(** * The project editor's drawing module and SCPI enum check

    A shallow embedding of the offscreen draw cache ([drawFromCache]), the
    cache-key builder ([getCacheId]), the primitive renderers ([drawText],
    [drawMultilineText], [drawBitmap], [drawRectangle]), some widget adapters
    and [ScpiEnumMember.check], followed by the properties proved of them.

    Conventions of the embedding:
    - a JavaScript string is the list of its UTF-16 code units ([jsstring]);
    - a JavaScript number is [num]: an exact rational, or one of the three
      special values.  Rounding of binary64 arithmetic is not modelled: sums,
      products and quotients are exact, which binary64 is on the whole numbers
      below 2^53; the step [y_i++] of a loop and the printing of a number are
      operations of the platform, given by the environment.  Pixel geometry
      that the source keeps in integers is computed in [Z] and injected with
      [zn];
    - the module-level variables [cache] and [cacheMap] are the fields of
      [cache_state], threaded explicitly;
    - a non-terminating evaluation is [None] in a fuel-indexed function. *)

From Stdlib Require Import ZArith QArith Qround Qabs Lia.
From stdpp Require Import gmap strings list fin_maps pretty.

Set Default Proof Using "Type".
Set Warnings "-register-all".
Local Open Scope Z_scope.

(** ** JavaScript strings *)

Definition jsstring : Type := list N.

Definition js (s : string) : jsstring :=
  (fun a => Ascii.N_of_ascii a) <$> String.list_ascii_of_string s.

(** [String(n)] for an integer [n]. *)
Definition string_of_Z (z : Z) : jsstring := js (pretty z).

(** [String(b)] for a boolean. *)
Definition string_of_bool (b : bool) : jsstring :=
  if b then js "true" else js "false".

(** Truthiness of a string and of an optional string ([undefined] is [None]). *)
Definition truthy_str (s : jsstring) : bool :=
  match s with [] => false | _ :: _ => true end.

Definition truthy_ostr (s : option jsstring) : bool :=
  match s with Some t => truthy_str t | None => false end.

(** ** JavaScript numbers *)

Inductive num : Type :=
| Num (q : Q)
| PosInf
| NegInf
| NaN.

Definition zn (z : Z) : num := Num (inject_Z z).

(** ** The 2D surface: operations of the [lcd] module and canvases *)

Record Glyph := { encoding : Z; dx : option Z }.

Record Font := {
  font_id : jsstring;
  font_modificationTime : option num;
  font_height : Z;
  font_glyphs : list Glyph
}.

Record ImageElement := { img_width : Z; img_height : Z }.

(** One call on the [lcd] module (or on the context) made by a render
    callback.  Colours are the values handed to [lcd.setColor]; [None] is
    [undefined]. *)
Inductive lcd_op : Type :=
| setColor (c : option jsstring)
| setBackColor (c : option jsstring)
| fillRect (x1 y1 x2 y2 : num) (radius : option num)
| drawStr (text : jsstring) (x y : num) (font : Font)
| lcdDrawBitmap (image : ImageElement) (x y w h : num)
| drawHLine (x y l : num)
| drawVLine (x y l : num).

(** What a canvas has received: [lcd] operations, and [ctx.drawImage] of
    another canvas (named by its allocation number). *)
Inductive painted : Type :=
| PLcd (op : lcd_op)
| PImage (src : nat) (x y : num).

(** An [HTMLCanvasElement]: [canvas_id] is the allocation number given by
    [document.createElement], which stands for the object's identity. *)
Record canvas := {
  canvas_id : nat;
  canvas_width : Z;
  canvas_height : Z;
  canvas_content : list painted
}.

Definition paint (cv : canvas) (p : painted) : canvas :=
  {| canvas_id := canvas_id cv;
     canvas_width := canvas_width cv;
     canvas_height := canvas_height cv;
     canvas_content := canvas_content cv ++ [p] |}.

(** ** The draw cache *)

Definition MAX_DRAW_CACHE_SIZE : nat := 1000.

(** [cache] and [cacheMap] of the module, and the allocator of canvases. *)
Record cache_state := {
  cache : list jsstring;
  cacheMap : gmap jsstring canvas;
  next_canvas : nat
}.

Definition initial_state : cache_state :=
  {| cache := []; cacheMap := ∅; next_canvas := 0 |}.

(** What a render callback does: a sequence of [lcd] operations and of
    [ctx.drawImage(draw...(...), x, y)], where the image comes from a nested
    call of [drawFromCache]. *)
Inductive action_of (C : Type) : Type :=
| Lcd (op : lcd_op)
| DrawImage (src : C) (x y : num).
Arguments Lcd {C} op.
Arguments DrawImage {C} src x y.

(** A call [drawFromCache(section, id, w, h, callback)].  The callback is
    [None] when running it would not terminate. *)
Inductive call : Type :=
| DrawFromCache (section : jsstring) (id : option jsstring) (w h : Z)
    (callback : option (list (action_of call))).

Abbreviation action := (action_of call).

(** [id = section + "." + id] for a non-null id. *)
Definition composite (section : jsstring) (id : option jsstring) : option jsstring :=
  match id with
  | Some i => Some (section ++ js "." ++ i)
  | None => None
  end.

(** The result of a terminating call: the canvas returned, the state after
    it, and the keys pushed on [cache] during the call, in order.  The third
    component is only observed; no branch reads it. *)
Definition result : Type := canvas * cache_state * list jsstring.

Section RunCallback.
Variable exec : call -> cache_state -> option result.

(** The callback body, run against the context of [cv]. *)
Fixpoint run_callback (acts : list action) (cv : canvas) (st : cache_state)
    (log : list jsstring) : option result :=
  match acts with
  | [] => Some (cv, st, log)
  | Lcd op :: rest => run_callback rest (paint cv (PLcd op)) st log
  | DrawImage src x y :: rest =>
      match exec src st with
      | None => None
      | Some (img, st', pushed) =>
          run_callback rest (paint cv (PImage (canvas_id img) x y)) st'
            (log ++ pushed)
      end
  end.
End RunCallback.

(** [cache.shift()] followed by [cacheMap.delete(cacheKey)] when the key is
    truthy. *)
Definition evict_oldest (st : cache_state) : cache_state :=
  match cache st with
  | [] => st
  | cacheKey :: rest =>
      {| cache := rest;
         cacheMap := if truthy_str cacheKey then delete cacheKey (cacheMap st)
                     else cacheMap st;
         next_canvas := next_canvas st |}
  end.

(** The tail of [drawFromCache] for a non-null id: make room, then
    [cache.push(id); cacheMap.set(id, canvas)]. *)
Definition store (k : jsstring) (cv : canvas) (st : cache_state) : cache_state :=
  let st' := if Nat.eqb (length (cache st)) MAX_DRAW_CACHE_SIZE
             then evict_oldest st else st in
  {| cache := cache st' ++ [k];
     cacheMap := <[k := cv]> (cacheMap st');
     next_canvas := next_canvas st' |}.

Definition create_canvas (w h : Z) (st : cache_state) : canvas * cache_state :=
  ({| canvas_id := next_canvas st; canvas_width := w; canvas_height := h;
      canvas_content := [] |},
   {| cache := cache st; cacheMap := cacheMap st;
      next_canvas := S (next_canvas st) |}).

Definition lookup_canvas (k : option jsstring) (st : cache_state) : option canvas :=
  match k with
  | Some key => cacheMap st !! key
  | None => None
  end.

Fixpoint drawFromCache (c : call) (st : cache_state) {struct c} : option result :=
  match c with
  | DrawFromCache section id w h callback =>
      let key := composite section id in
      match lookup_canvas key st with
      | Some cv => Some (cv, st, [])
      | None =>
          match callback with
          | None => None
          | Some acts =>
              let (cv0, st0) := create_canvas w h st in
              match run_callback drawFromCache acts cv0 st0 [] with
              | None => None
              | Some (cv, st1, log) =>
                  match key with
                  | Some k => Some (cv, store k cv st1, log ++ [k])
                  | None => Some (cv, st1, log)
                  end
              end
          end
      end
  end.

(** A sequence of calls made one after the other. *)
Fixpoint drawAll (cs : list call) (st : cache_state) (log : list jsstring)
    : option (cache_state * list jsstring) :=
  match cs with
  | [] => Some (st, log)
  | c :: rest =>
      match drawFromCache c st with
      | None => None
      | Some (_, st', pushed) => drawAll rest st' (log ++ pushed)
      end
  end.

(** The composite keys a call can push: its own and those of the calls its
    callback makes. *)
Fixpoint call_keys (c : call) : list jsstring :=
  match c with
  | DrawFromCache section id w h callback =>
      match callback with
      | Some acts =>
          flat_map (fun a => match a with
                             | DrawImage src _ _ => call_keys src
                             | Lcd _ => []
                             end) acts
      | None => []
      end ++
      match composite section id with
      | Some k => [k]
      | None => []
      end
  end.

Definition nested_keys (acts : list action) : list jsstring :=
  flat_map (fun a => match a with
                     | DrawImage src _ _ => call_keys src
                     | Lcd _ => []
                     end) acts.

(** No callback calls [drawFromCache] with the composite key of a call it
    is running under. *)
Fixpoint distinct_nesting (c : call) : bool :=
  match c with
  | DrawFromCache section id w h callback =>
      match callback with
      | Some acts =>
          forallb (fun a => match a with
                            | DrawImage src _ _ => distinct_nesting src
                            | Lcd _ => true
                            end) acts
          && match composite section id with
             | Some k => bool_decide (k ∉ nested_keys acts)
             | None => true
             end
      | None => true
      end
  end.

(** The last [n] elements of a list. *)
Definition last_n {A} (n : nat) (l : list A) : list A :=
  drop (length l - n) l.

(** The invariant of the module state between calls. *)
Record cache_inv (st : cache_state) : Prop := {
  inv_nodup : NoDup (cache st);
  inv_sync : forall k, k ∈ cache st <-> is_Some (cacheMap st !! k);
  inv_bound : (length (cache st) <= MAX_DRAW_CACHE_SIZE)%nat;
  inv_truthy : forall k, k ∈ cache st -> truthy_str k = true;
  inv_alloc : forall k cv, cacheMap st !! k = Some cv ->
                (canvas_id cv < next_canvas st)%nat
}.

(** [st'] is reached from [st] by pushing the keys [log]. *)
Record extends (st st' : cache_state) (log : list jsstring) : Prop := {
  ext_inv : cache_inv st';
  ext_next : (next_canvas st <= next_canvas st')%nat;
  ext_cache : cache st' = last_n MAX_DRAW_CACHE_SIZE (cache st ++ log);
  ext_map : forall k cv, cacheMap st' !! k = Some cv ->
              cacheMap st !! k = Some cv \/
              (k ∈ log /\ (next_canvas st <= canvas_id cv < next_canvas st')%nat)
}.

(** A property of the calls a callback makes. *)
Definition nested_call (P : call -> Prop) (a : action) : Prop :=
  match a with
  | DrawImage src _ _ => P src
  | Lcd _ => True
  end.

(** What a terminating call does to an invariant state. *)
Definition call_extends (c : call) : Prop :=
  forall st cv st' log,
    distinct_nesting c = true -> cache_inv st ->
    drawFromCache c st = Some (cv, st', log) ->
    extends st st' log /\ (forall k, k ∈ log -> k ∈ call_keys c).

(** A call pushes at most the keys it requests. *)
Definition log_bounded (c : call) : Prop :=
  forall st cv st' log,
    drawFromCache c st = Some (cv, st', log) ->
    (length log <= length (call_keys c))%nat.


(** ** Arithmetic on JavaScript numbers

    Zero is unsigned and finite results are exact. *)

Definition Qsign (q : Q) : comparison := (0 ?= q)%Q.

Definition nadd (a b : num) : num :=
  match a, b with
  | NaN, _ | _, NaN => NaN
  | PosInf, NegInf | NegInf, PosInf => NaN
  | PosInf, _ | _, PosInf => PosInf
  | NegInf, _ | _, NegInf => NegInf
  | Num p, Num q => Num (p + q)
  end.

Definition nneg (a : num) : num :=
  match a with
  | Num p => Num (- p)
  | PosInf => NegInf
  | NegInf => PosInf
  | NaN => NaN
  end.

Definition nsub (a b : num) : num := nadd a (nneg b).

(** An infinity with the sign of [q]; [NaN] for zero. *)
Definition inf_of_sign (q : Q) : num :=
  match Qsign q with
  | Lt => PosInf
  | Gt => NegInf
  | Eq => NaN
  end.

Definition nmul (a b : num) : num :=
  match a, b with
  | NaN, _ | _, NaN => NaN
  | Num p, Num q => Num (p * q)
  | PosInf, PosInf | NegInf, NegInf => PosInf
  | PosInf, NegInf | NegInf, PosInf => NegInf
  | Num p, PosInf | PosInf, Num p => inf_of_sign p
  | Num p, NegInf | NegInf, Num p => nneg (inf_of_sign p)
  end.

Definition ndiv (a b : num) : num :=
  match a, b with
  | NaN, _ | _, NaN => NaN
  | Num p, Num q => if Qeq_bool q 0 then inf_of_sign p else Num (p / q)
  | Num _, (PosInf | NegInf) => Num 0
  | (PosInf | NegInf), (PosInf | NegInf) => NaN
  | PosInf, Num q => match Qsign q with Gt => NegInf | _ => PosInf end
  | NegInf, Num q => match Qsign q with Gt => PosInf | _ => NegInf end
  end.

(** [Math.floor], [Math.round] (halves go up) and [Math.abs]. *)
Definition nfloor (a : num) : num :=
  match a with
  | Num p => zn (Qfloor p)
  | _ => a
  end.

Definition nround (a : num) : num :=
  match a with
  | Num p => zn (Qfloor (p + (1 # 2)))
  | _ => a
  end.

Definition nabs (a : num) : num :=
  match a with
  | Num p => Num (Qabs p)
  | PosInf | NegInf => PosInf
  | NaN => NaN
  end.

(** [a < b], [a <= b] and [a == b]; all false when an operand is [NaN]. *)
Definition nlt (a b : num) : bool :=
  match a, b with
  | NaN, _ | _, NaN => false
  | Num p, Num q => negb (Qle_bool q p)
  | _, NegInf | PosInf, _ => false
  | NegInf, _ | _, PosInf => true
  end.

Definition neq (a b : num) : bool :=
  match a, b with
  | Num p, Num q => Qeq_bool p q
  | PosInf, PosInf | NegInf, NegInf => true
  | _, _ => false
  end.

Definition nle (a b : num) : bool := nlt a b || neq a b.

Definition isNaN (a : num) : bool :=
  match a with NaN => true | _ => false end.

(** [a || 0] for a number: zero and [NaN] are falsy. *)
Definition num_or_zero (a : num) : num :=
  match a with
  | NaN => zn 0
  | Num p => if Qeq_bool p 0 then zn 0 else a
  | _ => a
  end.

(** A number that may be [undefined], used in arithmetic. *)
Definition of_optZ (o : option Z) : num :=
  match o with
  | Some z => zn z
  | None => NaN
  end.

(** [o || 0] for an integer property that may be [undefined]. *)
Definition or_zero (o : option Z) : Z :=
  match o with
  | Some z => z
  | None => 0
  end.


(** ** [JSON.parse] on a string literal

    [JSON.parse(doc)] for a document that is one string literal between
    optional white space; [None] stands for the [SyntaxError] thrown on
    any other text that starts with a quote. *)

Definition is_json_ws (c : N) : bool :=
  (c =? 32)%N || (c =? 9)%N || (c =? 10)%N || (c =? 13)%N.

Definition hex_digit (c : N) : option N :=
  if (48 <=? c)%N && (c <=? 57)%N then Some (c - 48)%N
  else if (65 <=? c)%N && (c <=? 70)%N then Some (c - 55)%N
  else if (97 <=? c)%N && (c <=? 102)%N then Some (c - 87)%N
  else None.

Definition hex4 (a b c d : N) : option N :=
  match hex_digit a, hex_digit b, hex_digit c, hex_digit d with
  | Some x, Some y, Some z, Some t => Some (((x * 16 + y) * 16 + z) * 16 + t)%N
  | _, _, _, _ => None
  end.

(** The escape [\c] for a single character [c]. *)
Definition simple_escape (c : N) : option N :=
  if (c =? 34)%N then Some 34%N
  else if (c =? 92)%N then Some 92%N
  else if (c =? 47)%N then Some 47%N
  else if (c =? 98)%N then Some 8%N
  else if (c =? 102)%N then Some 12%N
  else if (c =? 110)%N then Some 10%N
  else if (c =? 114)%N then Some 13%N
  else if (c =? 116)%N then Some 9%N
  else None.

(** The characters after the opening quote, up to the closing one: the
    value, and what follows the closing quote. *)
Fixpoint json_string_body (l : list N) : option (jsstring * list N) :=
  match l with
  | [] => None
  | c :: rest =>
      if (c =? 34)%N then Some ([], rest)
      else if (c =? 92)%N then
        match rest with
        | [] => None
        | e :: rest' =>
            if (e =? 117)%N then
              match rest' with
              | a :: b :: c' :: d :: rest'' =>
                  match hex4 a b c' d, json_string_body rest'' with
                  | Some u, Some (v, r) => Some (u :: v, r)
                  | _, _ => None
                  end
              | _ => None
              end
            else
              match simple_escape e, json_string_body rest' with
              | Some u, Some (v, r) => Some (u :: v, r)
              | _, _ => None
              end
        end
      else if (c <? 32)%N then None
      else
        match json_string_body rest with
        | Some (v, r) => Some (c :: v, r)
        | None => None
        end
  end.

Fixpoint skip_ws (l : list N) : list N :=
  match l with
  | c :: rest => if is_json_ws c then skip_ws rest else l
  | [] => []
  end.

Definition JSON_parse (doc : jsstring) : option jsstring :=
  match skip_ws doc with
  | c :: rest =>
      if (c =? 34)%N then
        match json_string_body rest with
        | Some (v, r) => match skip_ws r with [] => Some v | _ :: _ => None end
        | None => None
        end
      else None
  | [] => None
  end.

(** [try { text = JSON.parse('"' + text + '"'); } catch (e) { console.log(e, text); }] *)
Definition unescape (text : jsstring) : jsstring :=
  match JSON_parse ([34%N] ++ text ++ [34%N]) with
  | Some t => t
  | None => text
  end.


(** ** Project objects and the collaborators of the drawing module *)

Record Style := {
  style_id : jsstring;
  style_modificationTime : option num;
  inheritFrom : option jsstring
}.

Record Bitmap := {
  bitmap_id : jsstring;
  bitmap_modificationTime : option num;
  imageElement : option ImageElement;
  bitmap_backgroundColor : option jsstring
}.

(** An [EezObject] as [getCacheId] sees it. *)
Inductive EezObject : Type :=
| AStyle (style : Style)
| AFont (font : Font)
| ABitmap (bitmap : Bitmap)
| AnObject (id : jsstring) (modificationTime : option num).

Definition obj_id (obj : EezObject) : jsstring :=
  match obj with
  | AStyle s => style_id s
  | AFont f => font_id f
  | ABitmap b => bitmap_id b
  | AnObject i _ => i
  end.

Definition obj_modificationTime (obj : EezObject) : option num :=
  match obj with
  | AStyle s => style_modificationTime s
  | AFont f => font_modificationTime f
  | ABitmap b => bitmap_modificationTime b
  | AnObject _ t => t
  end.

(** The values [getStyleProperty(style, name)] gives for the property names
    the drawing module asks for; [None] is [undefined].  The paddings are
    read in arithmetic without a fallback and are taken to be numbers. *)
Record StyleProperties := {
  borderSize : option Z;
  borderRadius : option Z;
  borderColor : option jsstring;
  color : option jsstring;
  backgroundColor : option jsstring;
  alignHorizontal : option jsstring;
  alignVertical : option jsstring;
  paddingHorizontal : Z;
  paddingVertical : Z;
  font : option jsstring
}.

(** The functions the module imports from the rest of the project and from
    the platform: style resolution, the registries, the default style, the
    [data] module, [lcd.measureStr], and the operations of binary64 numbers
    that are not computed here: the conversions from and to strings, the
    remainder, and the addition of 1 that [y_i++] performs. *)
Record Env := {
  getStyleProperty : Style -> StyleProperties;
  findStyle : jsstring -> option Style;
  findFont : jsstring -> option Font;
  findBitmap : jsstring -> option Bitmap;
  getDefaultStyle : Style;
  data_get : jsstring -> option jsstring;
  data_getMin : jsstring -> num;
  data_getMax : jsstring -> num;
  data_getValueList : jsstring -> list jsstring;
  measureStr : jsstring -> Font -> Z -> Z;
  ToNumber : jsstring -> num;
  parseFloat : jsstring -> num;
  NumberToString : num -> jsstring;
  remainder : num -> num -> num;
  increment : num -> num
}.

Section Drawing.
Variable E : Env.

Definition styleGetBorderSize (style : Style) : option Z :=
  borderSize (getStyleProperty E style).

Definition styleGetBorderRadius (style : Style) : option Z :=
  borderRadius (getStyleProperty E style).

Definition styleIsHorzAlignLeft (style : Style) : bool :=
  bool_decide (alignHorizontal (getStyleProperty E style) = Some (js "left")).

Definition styleIsHorzAlignRight (style : Style) : bool :=
  bool_decide (alignHorizontal (getStyleProperty E style) = Some (js "right")).

Definition styleIsVertAlignTop (style : Style) : bool :=
  bool_decide (alignVertical (getStyleProperty E style) = Some (js "top")).

Definition styleIsVertAlignBottom (style : Style) : bool :=
  bool_decide (alignVertical (getStyleProperty E style) = Some (js "bottom")).

(** [font && findFont(font)] *)
Definition styleGetFont (style : Style) : option Font :=
  match font (getStyleProperty E style) with
  | Some name => if truthy_str name then findFont E name else None
  | None => None
  end.

(** [style.inheritFrom && findStyle(style.inheritFrom)] *)
Definition inheritFromStyle (style : Style) : option Style :=
  match inheritFrom style with
  | Some name => if truthy_str name then findStyle E name else None
  | None => None
  end.

(** [obj._id + "-" + modificationTime], or [obj._id]; the concatenation
    converts the number to a string. *)
Definition base_id (obj : EezObject) : jsstring :=
  match obj_modificationTime obj with
  | Some t => obj_id obj ++ js "-" ++ NumberToString E t
  | None => obj_id obj
  end.

(** [style != defaultStyle]: objects are compared by reference, and [_id]
    is unique per object. *)
Definition is_default_style (style : Style) : bool :=
  bool_decide (style_id style = style_id (getDefaultStyle E)).

(** [getCacheId]; [fuel] bounds the depth of the recursion. *)
Fixpoint getCacheId (fuel : nat) (obj : EezObject) : option jsstring :=
  match fuel with
  | O => None
  | S fuel' =>
      let id := base_id obj in
      match obj with
      | AStyle style =>
          match
            match styleGetFont style with
            | Some font => getCacheId fuel' (AFont font)
            | None => Some []
            end
          with
          | None => None
          | Some font_part =>
              let id := id ++ font_part in
              match inheritFromStyle style with
              | Some inheritFromStyle =>
                  match getCacheId fuel' (AStyle inheritFromStyle) with
                  | Some r => Some (id ++ js "," ++ r)
                  | None => None
                  end
              | None =>
                  let defaultStyle := getDefaultStyle E in
                  if is_default_style style then Some id
                  else
                    match getCacheId fuel' (AStyle defaultStyle) with
                    | Some r => Some (id ++ js "," ++ r)
                    | None => None
                    end
              end
          end
      | _ => Some id
      end
  end.
End Drawing.


(** ** The primitive renderers *)

(** What an exported renderer does: it loops for ever, returns [undefined]
    without touching the cache, or calls [drawFromCache]. *)
Inductive rendered : Type :=
| Diverges
| ReturnsUndefined
| Draws (c : call).

(** The rectangle [x1, y1, x2, y2] (corners included) and the corner radius
    a callback works with. *)
Record box := {
  box_x1 : Z;
  box_y1 : Z;
  box_x2 : Z;
  box_y2 : Z;
  box_radius : Z
}.

Definition fill_box (b : box) (rounded : bool) : lcd_op :=
  fillRect (zn (box_x1 b)) (zn (box_y1 b)) (zn (box_x2 b)) (zn (box_y2 b))
    (if rounded then Some (zn (box_radius b)) else None).

Definition is_space (c : N) : bool := (c =? 32)%N.
Definition is_newline (c : N) : bool := (c =? 10)%N.

(** [while (i < text.length && text[i] != " " && text[i] != "\n") i++]:
    how far [i] moves, given the text from [i] on. *)
Fixpoint word_length (text : jsstring) : nat :=
  match text with
  | c :: rest => if is_space c || is_newline c then O else S (word_length rest)
  | [] => O
  end.

(** [while (text[i] == " ") i++]: how far [i] moves. *)
Fixpoint spaces_length (text : jsstring) : nat :=
  match text with
  | c :: rest => if is_space c then S (spaces_length rest) else O
  | [] => O
  end.

Section Renderers.
Variable E : Env.
(** The bound on the depth of [getCacheId] and on the iterations of the
    loops of [drawMultilineText]. *)
Variable fuel : nat.

(** The block at the head of every render callback: the full rectangle,
    and, for a positive border size, the border fill and the inset. *)
Definition border_step (style : Style) (w h : Z) : list lcd_op * box :=
  let x1 := 0 in
  let y1 := 0 in
  let x2 := w - 1 in
  let y2 := h - 1 in
  let borderSize := or_zero (styleGetBorderSize E style) in
  let borderRadius := or_zero (styleGetBorderRadius E style) in
  let full := {| box_x1 := x1; box_y1 := y1; box_x2 := x2; box_y2 := y2;
                 box_radius := borderRadius |} in
  if 0 <? borderSize then
    ([setColor (borderColor (getStyleProperty E style)); fill_box full true],
     {| box_x1 := x1 + borderSize; box_y1 := y1 + borderSize;
        box_x2 := x2 - borderSize; box_y2 := y2 - borderSize;
        box_radius := Z.max (borderRadius - borderSize) 0 |})
  else ([], full).

(** [lcd.setBackColor] and [lcd.setColor] before text is drawn. *)
Definition text_colors (inverse : bool) (styleColor styleBackgroundColor : option jsstring)
    : list lcd_op :=
  if inverse then [setBackColor styleColor; setColor styleBackgroundColor]
  else [setBackColor styleBackgroundColor; setColor styleColor].

(** The callback of [drawText] after the [try] statement: [text] is the
    value the statement leaves in the variable. *)
Definition drawText_body (text : jsstring) (font : Font) (b : box) (style : Style)
    (inverse : bool) (styleColor styleBackgroundColor : option jsstring)
    : list lcd_op :=
  let sp := getStyleProperty E style in
  let x1 := box_x1 b in
  let y1 := box_y1 b in
  let x2 := box_x2 b in
  let y2 := box_y2 b in
  let width := measureStr E text font (x2 - x1 + 1) in
  let height := font_height font in
  let x_offset :=
    if styleIsHorzAlignLeft E style then x1 + paddingHorizontal sp
    else if styleIsHorzAlignRight E style then x2 - paddingHorizontal sp - width
    else x1 + (x2 - x1 + 1 - width) / 2 in
  let y_offset :=
    if styleIsVertAlignTop E style then y1 + paddingVertical sp
    else if styleIsVertAlignBottom E style then y2 - paddingVertical sp - height
    else y1 + (y2 - y1 + 1 - height) / 2 in
  text_colors inverse styleColor styleBackgroundColor ++
  [drawStr text (zn x_offset) (zn y_offset) font].

(** The callback of [drawText]. *)
Definition drawText_callback (text : jsstring) (w h : Z) (style : Style)
    (inverse : bool) (overrideBackgroundColor : option jsstring) : list lcd_op :=
  let sp := getStyleProperty E style in
  let (border, b) := border_step style w h in
  let styleColor := color sp in
  let styleBackgroundColor :=
    match overrideBackgroundColor with
    | Some c => Some c
    | None => backgroundColor sp
    end in
  let backgroundColor := if inverse then styleColor else styleBackgroundColor in
  border ++ [setColor backgroundColor; fill_box b true] ++
  match styleGetFont E style with
  | None => []
  | Some font =>
      drawText_body (unescape text) font b style inverse styleColor
        styleBackgroundColor
  end.

Definition drawText_key (cacheId text : jsstring) (w h : Z) (inverse : bool) : jsstring :=
  cacheId ++ js "." ++ text ++ js "." ++ string_of_Z w ++ js "." ++ string_of_Z h
    ++ js "." ++ string_of_bool inverse.

(** [drawText]; [None] when [getCacheId] does not return. *)
Definition drawText (text : jsstring) (w h : Z) (style : Style) (inverse : bool)
    (overrideBackgroundColor : option jsstring) : option call :=
  match getCacheId E fuel (AStyle style) with
  | None => None
  | Some cacheId =>
      Some (DrawFromCache (js "drawText")
              (Some (drawText_key cacheId text w h inverse)) w h
              (Some (Lcd <$> drawText_callback text w h style inverse
                               overrideBackgroundColor)))
  end.

(** [while (width > x2 - x + 1) { y += height; if (y + height > y2) break; x = x1; }]:
    the values of [x] and [y] at the exit. *)
Fixpoint wrap (n : nat) (width height x1 x2 y2 x y : Z) : option (Z * Z) :=
  match n with
  | O => None
  | S n' =>
      if x2 - x + 1 <? width then
        let y := y + height in
        if y2 <? y + height then Some (x, y)
        else wrap n' width height x1 x2 y2 x1 y
      else Some (x, y)
  end.

(** The [while (true)] loop of [drawMultilineText], from the values of
    [i], [x] and [y] at the head of an iteration. *)
Fixpoint layout (n : nat) (text : jsstring) (font : Font) (colors : list lcd_op)
    (height spaceWidth x1 x2 y2 : Z) (i : nat) (x y : Z) : option (list lcd_op) :=
  match n with
  | O => None
  | S n' =>
      let j := i in
      let i := (j + word_length (drop j text))%nat in
      let word := take (i - j) (drop j text) in
      let width := measureStr E word font 0 in
      match wrap fuel width height x1 x2 y2 x y with
      | None => None
      | Some (x, y) =>
          if y2 <? y + height then Some []
          else
            let ops := colors ++ [drawStr word (zn x) (zn y) font] in
            let x := x + width in
            let k := spaces_length (drop i text) in
            let x := x + spaceWidth * Z.of_nat k in
            let i := (i + k)%nat in
            if Nat.eqb i (length text) || bool_decide (text !! i = Some 10%N) then
              let y := y + height in
              if Nat.eqb i (length text) then Some ops
              else
                let i := S i in
                let extraHeightBetweenParagraphs := (2 * height) / 10 in
                let y := y + extraHeightBetweenParagraphs in
                if y2 <? y + height then Some ops
                else
                  match layout n' text font colors height spaceWidth x1 x2 y2 i x1 y with
                  | Some more => Some (ops ++ more)
                  | None => None
                  end
            else
              match layout n' text font colors height spaceWidth x1 x2 y2 i x y with
              | Some more => Some (ops ++ more)
              | None => None
              end
      end
  end.

(** The callback of [drawMultilineText] after the [try] statement. *)
Definition drawMultilineText_body (text : jsstring) (font : Font) (b : box)
    (style : Style) (inverse : bool) : option (list lcd_op) :=
  let sp := getStyleProperty E style in
  let colors := text_colors inverse (color sp) (backgroundColor sp) in
  let height := (9 * font_height font) / 10 in
  let x1 := box_x1 b + paddingHorizontal sp in
  let x2 := box_x2 b - paddingHorizontal sp in
  let y1 := box_y1 b + paddingVertical sp in
  let y2 := box_y2 b - paddingVertical sp in
  let spaceGlyph := List.find (fun glyph => encoding glyph =? 32) (font_glyphs font) in
  let spaceWidth :=
    match spaceGlyph with
    | Some glyph => or_zero (dx glyph)
    | None => 0
    end in
  layout fuel text font colors height spaceWidth x1 x2 y2 O x1 y1.

(** The callback of [drawMultilineText]; [None] when a loop does not end. *)
Definition drawMultilineText_callback (text : jsstring) (w h : Z) (style : Style)
    (inverse : bool) : option (list lcd_op) :=
  let sp := getStyleProperty E style in
  let (border, b) := border_step style w h in
  let backgroundColor := if inverse then color sp else backgroundColor sp in
  let head := border ++ [setColor backgroundColor; fill_box b true] in
  match styleGetFont E style with
  | None => Some head
  | Some font =>
      match drawMultilineText_body (unescape text) font b style inverse with
      | Some ops => Some (head ++ ops)
      | None => None
      end
  end.

(** [drawMultilineText]; [None] when [getCacheId] does not return. *)
Definition drawMultilineText (text : jsstring) (w h : Z) (style : Style)
    (inverse : bool) : option call :=
  match getCacheId E fuel (AStyle style) with
  | None => None
  | Some cacheId =>
      Some (DrawFromCache (js "drawMultilineText")
              (Some (drawText_key cacheId text w h inverse)) w h
              (match drawMultilineText_callback text w h style inverse with
               | Some ops => Some (Lcd <$> ops)
               | None => None
               end))
  end.

(** The callback of [drawBitmap], for a bitmap with an image element. *)
Definition drawBitmap_callback (bitmap : Bitmap) (image : ImageElement) (w h : Z)
    (style : Style) (inverse : bool) : list lcd_op :=
  let sp := getStyleProperty E style in
  let (border, b) := border_step style w h in
  let x1 := box_x1 b in
  let y1 := box_y1 b in
  let x2 := box_x2 b in
  let y2 := box_y2 b in
  let colors := text_colors inverse (color sp) (backgroundColor sp) in
  let backgroundColor := if inverse then color sp else backgroundColor sp in
  let width := img_width image in
  let height := img_height image in
  let x_offset :=
    if styleIsHorzAlignLeft E style then x1 + paddingHorizontal sp
    else if styleIsHorzAlignRight E style then x2 - paddingHorizontal sp - width
    else x1 + (x2 - x1 - width) / 2 in
  let y_offset :=
    if styleIsVertAlignTop E style then y1 + paddingVertical sp
    else if styleIsVertAlignBottom E style then y2 - paddingVertical sp - height
    else y1 + (y2 - y1 - height) / 2 in
  border ++
  [setColor backgroundColor; fill_box b true;
   setColor backgroundColor; fill_box b false] ++
  colors ++
  [setColor (Some (if truthy_ostr (bitmap_backgroundColor bitmap)
                   then default [] (bitmap_backgroundColor bitmap)
                   else js "transparent"));
   fillRect (zn x_offset) (zn y_offset) (zn (x_offset + width - 1))
     (zn (y_offset + height - 1)) None;
   lcdDrawBitmap image (zn x_offset) (zn y_offset) (zn width) (zn height)].

Definition drawBitmap_key (styleId bitmapId : jsstring) (w h : Z) (inverse : bool)
    : jsstring :=
  styleId ++ js "." ++ bitmapId ++ js "." ++ js "." ++ string_of_Z w ++ js "."
    ++ string_of_Z h ++ js "." ++ string_of_bool inverse.

Definition drawBitmap (bitmap : Bitmap) (w h : Z) (style : Style) (inverse : bool)
    : rendered :=
  match imageElement bitmap with
  | None => ReturnsUndefined
  | Some image =>
      match getCacheId E fuel (AStyle style) with
      | None => Diverges
      | Some styleId =>
          match getCacheId E fuel (ABitmap bitmap) with
          | None => Diverges
          | Some bitmapId =>
              Draws (DrawFromCache (js "drawBitmap")
                       (Some (drawBitmap_key styleId bitmapId w h inverse)) w h
                       (Some (Lcd <$> drawBitmap_callback bitmap image w h style
                                        inverse)))
          end
      end
  end.

(** The callback of [drawRectangle]. *)
Definition drawRectangle_callback (w h : Z) (style : Style) (inverse : bool)
    : list lcd_op :=
  let sp := getStyleProperty E style in
  let (border, b) := border_step style w h in
  border ++
  [setColor (if inverse then backgroundColor sp else color sp); fill_box b true].

Definition drawRectangle_key (cacheId : jsstring) (w h : Z) (inverse : bool) : jsstring :=
  cacheId ++ js "." ++ string_of_Z w ++ js "." ++ string_of_Z h ++ js "."
    ++ string_of_bool inverse.

Definition drawRectangle (w h : Z) (style : Style) (inverse : bool) : rendered :=
  if (0 <? w) && (0 <? h) then
    match getCacheId E fuel (AStyle style) with
    | None => Diverges
    | Some cacheId =>
        Draws (DrawFromCache (js "drawRectangle")
                 (Some (drawRectangle_key cacheId w h inverse)) w h
                 (Some (Lcd <$> drawRectangle_callback w h style inverse)))
    end
  else ReturnsUndefined.
End Renderers.


(** ** Widgets and their adapters *)

Record Rect := { rect_width : Z; rect_height : Z }.

(** The fields of [Widget.Widget] the adapters read. *)
Record Widget := {
  widget_data : option jsstring;
  widget_style : Style
}.

Record UpDownWidget := {
  upDown_data : option jsstring;
  upDown_style : Style;
  buttonsStyle : Style;
  downButtonText : option jsstring;
  upButtonText : option jsstring
}.

Record ScaleWidget := {
  scale_data : option jsstring;
  scale_style : Style;
  needlePosition : option jsstring;
  needleWidth : option Z;
  needleHeight : option Z
}.

Record BarGraphWidget := {
  barGraph_data : option jsstring;
  barGraph_style : Style;
  orientation : option jsstring;
  textStyle : Style;
  line1Data : option jsstring;
  line1Style : Style;
  line2Data : option jsstring;
  line2Style : Style
}.

(** [(widget.data && data.get(widget.data)) || 0]: a non-empty string, or
    the number [0]. *)
Inductive selected : Type :=
| SelectedString (s : jsstring)
| SelectedZero.

(** [calcPos] of [drawBarGraphWidget], which closes over [min], [max] and
    [d].  The product and the quotient are exact here; binary64 rounds each
    of them, which can move a quotient that is close to a half across it
    before [Math.round] is applied. *)
Definition calcPos (min max : num) (d : Z) (value : num) : num :=
  let pos := nround (ndiv (nmul value (zn d)) (nsub max min)) in
  let pos := if nlt pos (zn 0) then zn 0 else pos in
  let pos := if nlt (zn d) pos then zn d else pos in
  pos.

Section Adapters.
Variable E : Env.
Variable fuel : nat.

(** [ref && f(ref)] for a data reference. *)
Definition with_data {A} (ref : option jsstring) (f : jsstring -> A) : option A :=
  match ref with
  | Some r => if truthy_str r then Some (f r) else None
  | None => None
  end.

(** [(ref && data.getMin(ref)) || 0] and the like. *)
Definition bound_or_zero (ref : option jsstring) (f : jsstring -> num) : num :=
  match with_data ref f with
  | Some n => num_or_zero n
  | None => zn 0
  end.

(** A value of [data.get] used where a string is expected: [undefined]
    is converted by the concatenations of [drawText]. *)
Definition as_text (v : option jsstring) : jsstring :=
  default (js "undefined") v.

(** [a || b] for strings. *)
Definition str_or (a : option jsstring) (b : jsstring) : jsstring :=
  match a with
  | Some s => if truthy_str s then s else b
  | None => b
  end.

Definition selectedButton_of (widget : Widget) : selected :=
  match with_data (widget_data widget) (data_get E) with
  | Some (Some s) => if truthy_str s then SelectedString s else SelectedZero
  | _ => SelectedZero
  end.

Definition string_of_selected (s : selected) : jsstring :=
  match s with
  | SelectedString t => t
  | SelectedZero => js "0"
  end.

(** [i == selectedButton] *)
Definition is_selected (i : Z) (s : selected) : bool :=
  match s with
  | SelectedString t => neq (zn i) (ToNumber E t)
  | SelectedZero => i =? 0
  end.

(** [buttonLabels.join(",")] *)
Fixpoint join_comma (l : list jsstring) : jsstring :=
  match l with
  | [] => []
  | [a] => a
  | a :: rest => a ++ js "," ++ join_comma rest
  end.

(** The [for] loops of [drawButtonGroupWidget]: one [drawText] per label,
    each drawn at the current position, which then moves by the step. *)
Fixpoint button_images (labels : list jsstring) (i : Z) (w h : Z) (style : Style)
    (sel : selected) (x y : Z) (stepx stepy : Z) : option (list action) :=
  match labels with
  | [] => Some []
  | label :: rest =>
      match drawText E fuel label w h style (is_selected i sel) None,
            button_images rest (i + 1) w h style sel (x + stepx) (y + stepy)
              stepx stepy with
      | Some c, Some more => Some (DrawImage c (zn x) (zn y) :: more)
      | _, _ => None
      end
  end.

Definition drawButtonGroupWidget_callback (buttonLabels : list jsstring)
    (selectedButton : selected) (style : Style) (rect : Rect)
    : option (list action) :=
  let x := 0 in
  let y := 0 in
  let w := rect_width rect in
  let h := rect_height rect in
  let n := Z.of_nat (length buttonLabels) in
  if h <? w then
    let buttonWidth := w / n in
    let x := x + (w - buttonWidth * n) / 2 in
    let buttonHeight := h in
    button_images buttonLabels 0 buttonWidth buttonHeight style selectedButton
      x y buttonWidth 0
  else
    let buttonWidth := w in
    let buttonHeight := h / n in
    let y := y + (h - buttonHeight * n) / 2 in
    let labelHeight := Z.min buttonWidth buttonHeight in
    let yOffset := (buttonHeight - labelHeight) / 2 in
    button_images buttonLabels 0 buttonWidth labelHeight style selectedButton
      x (y + yOffset) 0 buttonHeight.

Definition drawButtonGroupWidget (widget : Widget) (rect : Rect) : option call :=
  let buttonLabels :=
    default [] (with_data (widget_data widget) (data_getValueList E)) in
  let selectedButton := selectedButton_of widget in
  let style := widget_style widget in
  match getCacheId E fuel (AStyle style) with
  | None => None
  | Some cacheId =>
      Some (DrawFromCache (js "drawButtonGroup")
              (Some (cacheId ++ js "." ++ join_comma buttonLabels ++ js "."
                       ++ string_of_selected selectedButton ++ js "."
                       ++ string_of_Z (rect_width rect) ++ js "."
                       ++ string_of_Z (rect_height rect)))
              (rect_width rect) (rect_height rect)
              (drawButtonGroupWidget_callback buttonLabels selectedButton style rect))
  end.

Definition drawUpDownWidget_callback (upDownWidget : UpDownWidget) (rect : Rect)
    : option (list action) :=
  let style := upDown_style upDownWidget in
  let buttonsStyle := buttonsStyle upDownWidget in
  match styleGetFont E buttonsStyle with
  | None => Some []
  | Some buttonsFont =>
      let text :=
        match upDown_data upDownWidget with
        | Some ref => if truthy_str ref then as_text (data_get E ref) else []
        | None => []
        end in
      match drawText E fuel (str_or (downButtonText upDownWidget) (js "<"))
              (font_height buttonsFont) (rect_height rect) buttonsStyle false None,
            drawText E fuel text (rect_width rect - 2 * font_height buttonsFont)
              (rect_height rect) style false None,
            drawText E fuel (str_or (upButtonText upDownWidget) (js ">"))
              (font_height buttonsFont) (rect_height rect) buttonsStyle false None
      with
      | Some downButtonCanvas, Some textCanvas, Some upButonCanvas =>
          Some [DrawImage downButtonCanvas (zn 0) (zn 0);
                DrawImage textCanvas (zn (font_height buttonsFont)) (zn 0);
                DrawImage upButonCanvas
                  (zn (rect_width rect - font_height buttonsFont)) (zn 0)]
      | _, _, _ => None
      end
  end.

Definition drawUpDownWidget (upDownWidget : UpDownWidget) (rect : Rect) : call :=
  DrawFromCache (js "drawUpDownWidget") None (rect_width rect) (rect_height rect)
    (drawUpDownWidget_callback upDownWidget rect).

(** The callback shared by [drawYTGraphWidget] and [drawListGraphWidget]. *)
Definition graph_callback (style : Style) (rect : Rect) : list lcd_op :=
  let (border, b) := border_step E style (rect_width rect) (rect_height rect) in
  border ++ [setColor (backgroundColor (getStyleProperty E style)); fill_box b true].

Definition drawYTGraphWidget (widget : Widget) (rect : Rect) : call :=
  DrawFromCache (js "drawYTGraphWidget") None (rect_width rect) (rect_height rect)
    (Some (Lcd <$> graph_callback (widget_style widget) rect)).

Definition drawListGraphWidget (widget : Widget) (rect : Rect) : call :=
  DrawFromCache (js "drawListGraphWidget") None (rect_width rect) (rect_height rect)
    (Some (Lcd <$> graph_callback (widget_style widget) rect)).

(** [needlePosition == "left" || needlePosition == "right"] and
    [needlePosition == "left" || needlePosition == "top"]. *)
Definition is_vertical (scaleWidget : ScaleWidget) : bool :=
  bool_decide (needlePosition scaleWidget = Some (js "left"))
  || bool_decide (needlePosition scaleWidget = Some (js "right")).

Definition is_flip (scaleWidget : ScaleWidget) : bool :=
  bool_decide (needlePosition scaleWidget = Some (js "left"))
  || bool_decide (needlePosition scaleWidget = Some (js "top")).

(** [for (let y_i = ...; y_i <= y_to; y_i++)], from the value of [y_i] at
    a test of the condition on: the values for which the body runs, or [None]
    when the loop does not end within [n] rounds.  [y_i++] is the binary64
    addition of 1. *)
Fixpoint for_range (n : nat) (y_i y_to : num) : option (list num) :=
  match n with
  | O => None
  | S n' =>
      if nle y_i y_to then
        match for_range n' (increment E y_i) y_to with
        | Some ys => Some (y_i :: ys)
        | None => None
        end
      else Some []
  end.

(** [vertical ? lcd.drawHLine(ctx, a, y, l) : lcd.drawVLine(ctx, y, a, l)] *)
Definition scale_line (vertical : bool) (a y l : num) : lcd_op :=
  if vertical then drawHLine a y l else drawVLine y a l.

(** The thumb part of one iteration of the loop of [drawScale]. *)
Definition thumb_row (style : Style) (vertical flip : bool) (needleSize : Z)
    (x2 l2 y_value y_i y : num) : list lcd_op :=
  let sp := getStyleProperty E style in
  let d := nabs (nsub y_i y_value) in
  if nle d (zn (needleSize / 2)) then
    [setColor (color sp);
     if flip then scale_line vertical x2 y (nsub l2 d)
     else scale_line vertical (nadd x2 d) y (nsub l2 d)] ++
    (if negb (neq y_i y_value) then
       [setColor (backgroundColor sp);
        if flip then scale_line vertical (nsub (nadd x2 l2) d) y d
        else scale_line vertical x2 y d]
     else [])
  else
    [setColor (backgroundColor sp); scale_line vertical x2 y l2].

(** The tick part of one iteration of the loop of [drawScale]. *)
Definition tick_row (style : Style) (vertical flip : bool)
    (x1 l1 s y_min y_max y_i y : num) : list lcd_op :=
  let sp := getStyleProperty E style in
  if nle y_min y_i && nle y_i y_max then
    if neq (remainder E y_i s) (zn 0) then
      [setColor (borderColor sp); scale_line vertical x1 y l1]
    else if neq (remainder E y_i (ndiv s (zn 2))) (zn 0) then
      [setColor (borderColor sp);
       if flip then scale_line vertical (nadd x1 (ndiv l1 (zn 2))) y (ndiv l1 (zn 2))
       else scale_line vertical x1 y (ndiv l1 (zn 2))]
    else if neq (remainder E y_i (ndiv s (zn 10))) (zn 0) then
      [setColor (borderColor sp);
       if flip
       then scale_line vertical (nsub (nadd x1 l1) (ndiv l1 (zn 4))) y (ndiv l1 (zn 4))
       else scale_line vertical x1 y (ndiv l1 (zn 4))]
    else
      [setColor (backgroundColor sp); scale_line vertical x1 y l1]
  else [].

(** [drawScale]; [None] when the loop does not end. *)
Definition drawScale (scaleWidget : ScaleWidget) (rect : Rect)
    (y_from y_to y_min y_max y_value f d : num) : option (list lcd_op) :=
  let vertical := is_vertical scaleWidget in
  let flip := is_flip scaleWidget in
  let nw := of_optZ (needleWidth scaleWidget) in
  let nh := of_optZ (needleHeight scaleWidget) in
  let width := zn (rect_width rect) in
  let height := zn (rect_height rect) in
  let needleSize :=
    if vertical then or_zero (needleHeight scaleWidget)
    else or_zero (needleWidth scaleWidget) in
  let '(x1, l1, x2, l2) :=
    if vertical then
      if flip
      then (nadd nw (zn 2), nsub width (nadd nw (zn 2)), zn 0,
            zn (or_zero (needleWidth scaleWidget)))
      else (zn 0, nsub width (nadd nw (zn 2)), nsub width nw,
            zn (or_zero (needleWidth scaleWidget)))
    else
      if flip
      then (nadd nh (zn 2), nsub height (nadd nh (zn 2)), zn 0,
            zn (or_zero (needleHeight scaleWidget)))
      else (zn 0, nsub (nsub height nh) (zn 2), nsub height nh,
            zn (or_zero (needleHeight scaleWidget))) in
  let s := ndiv (nmul (zn 10) f) d in
  let y_offset :=
    if vertical
    then nfloor (nsub (nsub height (zn 1))
                   (ndiv (nsub height (nsub y_max y_min)) (zn 2)))
    else nfloor (ndiv (nsub width (nsub y_max y_min)) (zn 2)) in
  let style := scale_style scaleWidget in
  match for_range fuel y_from y_to with
  | None => None
  | Some ys =>
      Some (flat_map
              (fun y_i =>
                 let y := if vertical then nsub y_offset y_i else nadd y_offset y_i in
                 tick_row style vertical flip x1 l1 s y_min y_max y_i y ++
                 thumb_row style vertical flip needleSize x2 l2 y_value y_i y)
              ys)
  end.

(** What the callback of [drawScaleWidget] computes before it calls
    [drawScale]: [y_from_min], [y_from_max], [y_min], [y_max], [y_value],
    [f] and [d]. *)
Definition drawScaleWidget_args (scaleWidget : ScaleWidget) (rect : Rect)
    : num * num * num * num * num * num * num :=
  let value := zn 0 in
  let min := bound_or_zero (scale_data scaleWidget) (data_getMin E) in
  let max := bound_or_zero (scale_data scaleWidget) (data_getMax E) in
  let vertical := is_vertical scaleWidget in
  let needleSize :=
    if vertical then or_zero (needleHeight scaleWidget)
    else or_zero (needleWidth scaleWidget) in
  let f :=
    if vertical
    then nfloor (ndiv (zn (rect_height rect - needleSize)) max)
    else nfloor (ndiv (zn (rect_width rect - needleSize)) max) in
  let '(f, d) :=
    if nlt (zn 10) max then (f, zn 1)
    else (nmul (zn 10) (ndiv f (zn 10)), zn 10) in
  let y_min := nround (nmul min f) in
  let y_max := nround (nmul max f) in
  let y_value := nround (nmul value f) in
  let y_from_min := nsub y_min (zn (needleSize / 2)) in
  let y_from_max := nadd y_max (zn (needleSize / 2)) in
  (y_from_min, y_from_max, y_min, y_max, y_value, f, d).

Definition drawScaleWidget_callback (scaleWidget : ScaleWidget) (rect : Rect)
    : option (list lcd_op) :=
  let style := scale_style scaleWidget in
  let '(y_from_min, y_from_max, y_min, y_max, y_value, f, d) :=
    drawScaleWidget_args scaleWidget rect in
  match drawScale scaleWidget rect y_from_min y_from_max y_min y_max y_value f d with
  | Some ops =>
      Some ([setColor (backgroundColor (getStyleProperty E style));
             fillRect (zn 0) (zn 0) (zn (rect_width rect - 1))
               (zn (rect_height rect - 1)) None] ++ ops)
  | None => None
  end.

Definition drawScaleWidget (scaleWidget : ScaleWidget) (rect : Rect) : call :=
  DrawFromCache (js "drawScaleWidget") None (rect_width rect) (rect_height rect)
    (match drawScaleWidget_callback scaleWidget rect with
     | Some ops => Some (Lcd <$> ops)
     | None => None
     end).

(** [orientation == name] *)
Definition oriented (barGraphWidget : BarGraphWidget) (name : string) : bool :=
  bool_decide (orientation barGraphWidget = Some (js name)).

(** What the callback of [drawBarGraphWidget] computes first: [min],
    [max], [valueText], [value] and [d]. *)
Definition drawBarGraphWidget_args (barGraphWidget : BarGraphWidget) (rect : Rect)
    : num * num * jsstring * num * Z :=
  let min := bound_or_zero (barGraph_data barGraphWidget) (data_getMin E) in
  let max := bound_or_zero (barGraph_data barGraphWidget) (data_getMax E) in
  let valueText :=
    match with_data (barGraph_data barGraphWidget) (data_get E) with
    | Some (Some s) => if truthy_str s then s else js "0"
    | _ => js "0"
    end in
  let value := parseFloat E valueText in
  let value := if isNaN value then zn 0 else value in
  let horizontal :=
    oriented barGraphWidget "left-right" || oriented barGraphWidget "right-left" in
  let d := if horizontal then rect_width rect else rect_height rect in
  (min, max, valueText, value, d).

(** [let pos = calcPos(value)] in the callback of [drawBarGraphWidget]. *)
Definition drawBarGraphWidget_pos (barGraphWidget : BarGraphWidget) (rect : Rect)
    : num :=
  let '(min, max, _, value, d) := drawBarGraphWidget_args barGraphWidget rect in
  calcPos min max d value.

(** The two fills of the bar. *)
Definition bar_fills (barGraphWidget : BarGraphWidget) (rect : Rect) (pos : num)
    : list lcd_op :=
  let sp := getStyleProperty E (barGraph_style barGraphWidget) in
  let w := zn (rect_width rect) in
  let h := zn (rect_height rect) in
  let w1 := zn (rect_width rect - 1) in
  let h1 := zn (rect_height rect - 1) in
  if oriented barGraphWidget "left-right" then
    [setColor (color sp); fillRect (zn 0) (zn 0) (nsub pos (zn 1)) h1 None;
     setColor (backgroundColor sp); fillRect pos (zn 0) w1 h1 None]
  else if oriented barGraphWidget "right-left" then
    [setColor (backgroundColor sp);
     fillRect (zn 0) (zn 0) (nsub (nsub w pos) (zn 1)) h1 None;
     setColor (color sp); fillRect (nsub w pos) (zn 0) w1 h1 None]
  else if oriented barGraphWidget "top-bottom" then
    [setColor (color sp); fillRect (zn 0) (zn 0) w1 (nsub pos (zn 1)) None;
     setColor (backgroundColor sp); fillRect (zn 0) pos w1 h1 None]
  else
    [setColor (backgroundColor sp);
     fillRect (zn 0) (zn 0) w1 (nsub (nsub h pos) (zn 1)) None;
     setColor (color sp); fillRect (zn 0) (nsub h pos) w1 h1 None].

(** The value drawn over a horizontal bar; [None] when [drawText] does
    not return. *)
Definition bar_text (barGraphWidget : BarGraphWidget) (rect : Rect)
    (valueText : jsstring) (pos : num) : option (list action) :=
  let sp := getStyleProperty E (barGraph_style barGraphWidget) in
  let textStyle := textStyle barGraphWidget in
  match styleGetFont E textStyle with
  | None => Some []
  | Some font =>
      let w := measureStr E valueText font (rect_width rect) in
      let padding := paddingHorizontal (getStyleProperty E textStyle) in
      let w := w + padding in
      if (0 <? w) && (0 <? rect_height rect) then
        let '(backgroundColor, x) :=
          if nle (nadd pos (zn w)) (zn (rect_width rect))
          then (backgroundColor sp, pos)
          else (color sp, nsub (nsub pos (zn w)) (zn padding)) in
        match drawText E fuel valueText w (rect_height rect) textStyle false
                backgroundColor with
        | Some c => Some [DrawImage c x (zn 0)]
        | None => None
        end
      else Some []
  end.

(** [drawLine] of [drawBarGraphWidget]. *)
Definition drawLine (barGraphWidget : BarGraphWidget) (rect : Rect)
    (min max : num) (d : Z) (lineData : option jsstring) (lineStyle : Style)
    : list lcd_op :=
  let value :=
    match with_data lineData (fun ref => parseFloat E (as_text (data_get E ref))) with
    | Some n => num_or_zero n
    | None => zn 0
    end in
  let value := if isNaN value then zn 0 else value in
  let pos := calcPos min max d value in
  let pos := if neq pos (zn d) then zn (d - 1) else pos in
  let w := zn (rect_width rect) in
  let h := zn (rect_height rect) in
  [setColor (color (getStyleProperty E lineStyle));
   if oriented barGraphWidget "left-right" then
     drawVLine pos (zn 0) (zn (rect_height rect - 1))
   else if oriented barGraphWidget "right-left" then
     drawVLine (nsub w pos) (zn 0) (zn (rect_height rect - 1))
   else if oriented barGraphWidget "top-bottom" then
     drawHLine (zn 0) pos (zn (rect_width rect - 1))
   else drawHLine (zn 0) (nsub h pos) (zn (rect_width rect - 1))].

Definition drawBarGraphWidget_callback (barGraphWidget : BarGraphWidget) (rect : Rect)
    : option (list action) :=
  let '(min, max, valueText, value, d) :=
    drawBarGraphWidget_args barGraphWidget rect in
  let horizontal :=
    oriented barGraphWidget "left-right" || oriented barGraphWidget "right-left" in
  let pos := calcPos min max d value in
  match (if horizontal then bar_text barGraphWidget rect valueText pos else Some []) with
  | None => None
  | Some text =>
      Some ((Lcd <$> bar_fills barGraphWidget rect pos) ++ text ++
            (Lcd <$> drawLine barGraphWidget rect min max d
                       (line1Data barGraphWidget) (line1Style barGraphWidget)) ++
            (Lcd <$> drawLine barGraphWidget rect min max d
                       (line2Data barGraphWidget) (line2Style barGraphWidget)))
  end.

Definition drawBarGraphWidget (barGraphWidget : BarGraphWidget) (rect : Rect) : call :=
  DrawFromCache (js "drawBarGraphWidget") None (rect_width rect) (rect_height rect)
    (drawBarGraphWidget_callback barGraphWidget rect).
End Adapters.


(** ** [ScpiEnumMember.check] *)

Module Scpi.

(** A member of an enum; [member_ref] stands for the identity of the
    object, which [===] compares. *)
Record ScpiEnumMember := {
  member_ref : nat;
  name : option jsstring;
  value : option jsstring
}.

(** The messages [check] can produce: the error it builds itself, and
    the one [output.propertyNotSetMessage(this, "name")] returns. *)
Inductive Message : Type :=
| ErrorMessage (text : jsstring) (property : jsstring)
| PropertyNotSetMessage (property : jsstring).

Definition same_object (a b : ScpiEnumMember) : bool :=
  Nat.eqb (member_ref a) (member_ref b).

(** The [for] loop of [check], from index [i] on: the final values of
    [thisIndex] and [otherIndex]. *)
Fixpoint scan (this : ScpiEnumMember) (arr : list ScpiEnumMember) (i : Z)
    (thisIndex otherIndex : Z) : Z * Z :=
  match arr with
  | [] => (thisIndex, otherIndex)
  | m :: rest =>
      if same_object m this then scan this rest (i + 1) i otherIndex
      else if negb (same_object m this) && bool_decide (name m = name this)
      then scan this rest (i + 1) thisIndex i
      else scan this rest (i + 1) thisIndex otherIndex
  end.

(** [check], where [arr] is [getParent(this)]. *)
Definition check (this : ScpiEnumMember) (arr : list ScpiEnumMember) : list Message :=
  if truthy_ostr (name this) then
    let '(thisIndex, otherIndex) := scan this arr 0 (-1) (-1) in
    if negb (otherIndex =? -1) && (otherIndex <? thisIndex) then
      [ErrorMessage
         (js "Member name '" ++ default [] (name this) ++ js "' is not unique")
         (js "name")]
    else []
  else [PropertyNotSetMessage (js "name")].

End Scpi.


(** ** The drawing functions as the rest of the editor calls them *)

(** One call of a function of the module that draws through the cache.
    The other exported adapters ([drawTextWidget], [drawButtonWidget],
    [drawBitmapWidget], ...) only choose the arguments of one of the first
    four. *)
Inductive request : Type :=
| DrawText (text : jsstring) (w h : Z) (style : Style) (inverse : bool)
    (overrideBackgroundColor : option jsstring)
| DrawMultilineText (text : jsstring) (w h : Z) (style : Style) (inverse : bool)
| DrawBitmap (bitmap : Bitmap) (w h : Z) (style : Style) (inverse : bool)
| DrawRectangle (w h : Z) (style : Style) (inverse : bool)
| DrawButtonGroupWidget (widget : Widget) (rect : Rect)
| DrawScaleWidget (scaleWidget : ScaleWidget) (rect : Rect)
| DrawBarGraphWidget (barGraphWidget : BarGraphWidget) (rect : Rect)
| DrawYTGraphWidget (widget : Widget) (rect : Rect)
| DrawUpDownWidget (upDownWidget : UpDownWidget) (rect : Rect)
| DrawListGraphWidget (widget : Widget) (rect : Rect).

Definition draws (c : option call) : rendered :=
  match c with
  | Some c => Draws c
  | None => Diverges
  end.

Definition serve (E : Env) (fuel : nat) (r : request) : rendered :=
  match r with
  | DrawText text w h style inverse o => draws (drawText E fuel text w h style inverse o)
  | DrawMultilineText text w h style inverse =>
      draws (drawMultilineText E fuel text w h style inverse)
  | DrawBitmap bitmap w h style inverse => drawBitmap E fuel bitmap w h style inverse
  | DrawRectangle w h style inverse => drawRectangle E fuel w h style inverse
  | DrawButtonGroupWidget widget rect => draws (drawButtonGroupWidget E fuel widget rect)
  | DrawScaleWidget scaleWidget rect => Draws (drawScaleWidget E fuel scaleWidget rect)
  | DrawBarGraphWidget barGraphWidget rect =>
      Draws (drawBarGraphWidget E fuel barGraphWidget rect)
  | DrawYTGraphWidget widget rect => Draws (drawYTGraphWidget E widget rect)
  | DrawUpDownWidget upDownWidget rect => Draws (drawUpDownWidget E fuel upDownWidget rect)
  | DrawListGraphWidget widget rect => Draws (drawListGraphWidget E widget rect)
  end.

(** The value returned ([None] is [undefined]), the state after the call
    and the keys pushed; [None] when the call does not return. *)
Definition perform (E : Env) (fuel : nat) (r : request) (st : cache_state)
    : option (option canvas * cache_state * list jsstring) :=
  match serve E fuel r with
  | Diverges => None
  | ReturnsUndefined => Some (None, st, [])
  | Draws c =>
      match drawFromCache c st with
      | Some (cv, st', pushed) => Some (Some cv, st', pushed)
      | None => None
      end
  end.

(** Requests served one after the other: the final state and all the keys
    pushed, in order. *)
Fixpoint session (E : Env) (fuel : nat) (rs : list request) (st : cache_state)
    (log : list jsstring) : option (cache_state * list jsstring) :=
  match rs with
  | [] => Some (st, log)
  | r :: rest =>
      match perform E fuel r st with
      | None => None
      | Some (_, st', pushed) => session E fuel rest st' (log ++ pushed)
      end
  end.

(** ** The cache id as the specification words it *)

(** The unique identifier of an entity, followed by ["-"] and its
    last-modification timestamp when it has one. *)
Definition stamped_id (E : Env) (id : jsstring) (time : option num) : jsstring :=
  match time with
  | Some t => id ++ js "-" ++ NumberToString E t
  | None => id
  end.

(** The font a style resolves to: the one the font registry holds under
    the name that is the style's font property. *)
Definition resolves_font (E : Env) (style : Style) (f : Font) : Prop :=
  exists name,
    font (getStyleProperty E style) = Some name /\ name <> [] /\
    findFont E name = Some f.

(** The style found under the [inheritFrom] name of a style. *)
Definition inherits_from (E : Env) (style target : Style) : Prop :=
  exists name,
    inheritFrom style = Some name /\ name <> [] /\ findStyle E name = Some target.

(** What the font contributes to the cache id of a style, given the cache
    ids of the entities: the cache id of the font that resolves, if any. *)
Definition font_part (cache_id : EezObject -> jsstring -> Prop) (E : Env)
    (style : Style) (part : jsstring) : Prop :=
  (exists f, resolves_font E style f /\ cache_id (AFont f) part) \/
  ((forall f, ~ resolves_font E style f) /\ part = []).

(** The cache id of an entity: its stamped identifier; for a style,
    extended with the cache id of its resolved font and then, after a comma,
    with the cache id of the style found under [inheritFrom] or, when none is
    found and the style is not the default one, of the default style. *)
Inductive specified_id (E : Env) : EezObject -> jsstring -> Prop :=
| sid_font f :
    specified_id E (AFont f) (stamped_id E (font_id f) (font_modificationTime f))
| sid_bitmap b :
    specified_id E (ABitmap b) (stamped_id E (bitmap_id b) (bitmap_modificationTime b))
| sid_object id time :
    specified_id E (AnObject id time) (stamped_id E id time)
| sid_inherited style part target r :
    font_part (specified_id E) E style part ->
    inherits_from E style target ->
    specified_id E (AStyle target) r ->
    specified_id E (AStyle style)
      (stamped_id E (style_id style) (style_modificationTime style) ++ part
         ++ js "," ++ r)
| sid_fallback style part r :
    font_part (specified_id E) E style part ->
    (forall target, ~ inherits_from E style target) ->
    style_id style <> style_id (getDefaultStyle E) ->
    specified_id E (AStyle (getDefaultStyle E)) r ->
    specified_id E (AStyle style)
      (stamped_id E (style_id style) (style_modificationTime style) ++ part
         ++ js "," ++ r)
| sid_default style part :
    font_part (specified_id E) E style part ->
    (forall target, ~ inherits_from E style target) ->
    style_id style = style_id (getDefaultStyle E) ->
    specified_id E (AStyle style)
      (stamped_id E (style_id style) (style_modificationTime style) ++ part).

(** The chain of styles the cache id of a style follows (the style found
    under [inheritFrom], else the default style) ends, at the default style. *)
Inductive chain_ends (E : Env) : Style -> Prop :=
| ends_here style :
    (forall target, ~ inherits_from E style target) ->
    style_id style = style_id (getDefaultStyle E) ->
    chain_ends E style
| ends_after_inherited style target :
    inherits_from E style target -> chain_ends E target -> chain_ends E style
| ends_after_default style :
    (forall target, ~ inherits_from E style target) ->
    style_id style <> style_id (getDefaultStyle E) ->
    chain_ends E (getDefaultStyle E) -> chain_ends E style.

(** ** The chain of styles a cache id follows *)

(** The style a style's cache id is extended with: the one found under
    [inheritFrom], else the default style unless the style is the default. *)
Definition parent_style (E : Env) (style : Style) : option Style :=
  match inheritFromStyle E style with
  | Some s => Some s
  | None => if is_default_style E style then None else Some (getDefaultStyle E)
  end.

Definition is_style (obj : EezObject) : bool :=
  match obj with AStyle _ => true | _ => false end.
(** ** A small project, to evaluate the definitions on *)

Module Sample.

Definition font1 : Font :=
  {| font_id := js "font1"; font_modificationTime := None; font_height := 8;
     font_glyphs := [{| encoding := 32; dx := Some 4 |}] |}.

Definition default_style : Style :=
  {| style_id := js "style0"; style_modificationTime := None; inheritFrom := None |}.

Definition title_style : Style :=
  {| style_id := js "style1"; style_modificationTime := Some (zn 1700);
     inheritFrom := Some (js "default") |}.

(** A style that names itself as the style it inherits from. *)
Definition looping_style : Style :=
  {| style_id := js "style2"; style_modificationTime := None;
     inheritFrom := Some (js "loop") |}.

Definition properties : StyleProperties :=
  {| borderSize := Some 1; borderRadius := Some 3;
     borderColor := Some (js "gray"); color := Some (js "black");
     backgroundColor := Some (js "white");
     alignHorizontal := None; alignVertical := None;
     paddingHorizontal := 2; paddingVertical := 1;
     font := Some (js "font1") |}.

(** A decimal numeral; anything else is [NaN]. *)
Fixpoint digits (l : jsstring) (acc : Z) : option Z :=
  match l with
  | [] => Some acc
  | c :: rest =>
      if (48 <=? c)%N && (c <=? 57)%N
      then digits rest (10 * acc + Z.of_N (c - 48))
      else None
  end.

Definition number_of (s : jsstring) : num :=
  match s with
  | [] => NaN
  | _ :: _ => match digits s 0 with Some z => zn z | None => NaN end
  end.

(** [String(n)] for the numbers of the sample project, which are whole
    numbers below 10^21, printed with all their digits; the special values
    have their names. *)
Definition number_text (n : num) : jsstring :=
  match n with
  | Num q => string_of_Z (Qfloor q)
  | PosInf => js "Infinity"
  | NegInf => js "-Infinity"
  | NaN => js "NaN"
  end.

(** The remainder of two integers; [NaN] otherwise. *)
Definition integer_remainder (a b : num) : num :=
  match a, b with
  | Num p, Num q =>
      if Qeq_bool q 0 then NaN
      else if Qeq_bool (inject_Z (Qfloor p)) p && Qeq_bool (inject_Z (Qfloor q)) q
      then zn (Z.rem (Qfloor p) (Qfloor q))
      else NaN
  | _, _ => NaN
  end.

Definition find_style (n : jsstring) : option Style :=
  if decide (n = js "default") then Some default_style
  else if decide (n = js "title") then Some title_style
  else None.

Definition env : Env :=
  {| getStyleProperty := fun _ => properties;
     findStyle := find_style;
     findFont := fun n => if decide (n = js "font1") then Some font1 else None;
     findBitmap := fun _ => None;
     getDefaultStyle := default_style;
     data_get := fun r =>
       if decide (r = js "level") then Some (js "10")
       else if decide (r = js "speed") then Some (js "5")
       else if decide (r = js "choice") then Some (js "1")
       else None;
     data_getMin := fun r => if decide (r = js "level") then zn 10 else zn 0;
     data_getMax := fun r =>
       if decide (r = js "level") then zn 110
       else if decide (r = js "speed") then zn 10
       else zn 0;
     data_getValueList := fun r =>
       if decide (r = js "choice") then [js "A"; js "B"] else [];
     measureStr := fun text _ _ => 6 * Z.of_nat (length text);
     ToNumber := number_of;
     parseFloat := number_of;
     NumberToString := number_text;
     remainder := integer_remainder;
     increment := fun y => nadd y (zn 1) |}.

(** The same project with [looping_style] registered under ["loop"]. *)
Definition looping_env : Env :=
  {| getStyleProperty := getStyleProperty env;
     findStyle := fun n =>
       if decide (n = js "loop") then Some looping_style else find_style n;
     findFont := findFont env;
     findBitmap := findBitmap env;
     getDefaultStyle := getDefaultStyle env;
     data_get := data_get env;
     data_getMin := data_getMin env;
     data_getMax := data_getMax env;
     data_getValueList := data_getValueList env;
     measureStr := measureStr env;
     ToNumber := ToNumber env;
     parseFloat := parseFloat env;
     NumberToString := NumberToString env;
     remainder := remainder env;
     increment := increment env |}.

Definition big_image : ImageElement := {| img_width := 20; img_height := 20 |}.
Definition small_image : ImageElement := {| img_width := 4; img_height := 3 |}.

Definition big_bitmap : Bitmap :=
  {| bitmap_id := js "bitmap1"; bitmap_modificationTime := None;
     imageElement := Some big_image; bitmap_backgroundColor := None |}.

Definition small_bitmap : Bitmap :=
  {| bitmap_id := js "bitmap2"; bitmap_modificationTime := Some (zn 12);
     imageElement := Some small_image; bitmap_backgroundColor := Some (js "red") |}.

Definition upDown : UpDownWidget :=
  {| upDown_data := Some (js "speed"); upDown_style := title_style;
     buttonsStyle := default_style; downButtonText := None;
     upButtonText := Some (js "+") |}.

Definition scale : ScaleWidget :=
  {| scale_data := Some (js "speed"); scale_style := default_style;
     needlePosition := Some (js "bottom"); needleWidth := Some 5;
     needleHeight := Some 4 |}.

Definition barGraph : BarGraphWidget :=
  {| barGraph_data := Some (js "level"); barGraph_style := default_style;
     orientation := Some (js "left-right"); textStyle := title_style;
     line1Data := None; line1Style := default_style;
     line2Data := None; line2Style := default_style |}.

Definition buttons : Widget :=
  {| widget_data := Some (js "choice"); widget_style := title_style |}.

Definition rect : Rect := {| rect_width := 100; rect_height := 20 |}.

(** A text, a button group, an up/down widget, and the first text again. *)
Definition mixed_session : list request :=
  [DrawText (js "a") 10 6 default_style false None;
   DrawButtonGroupWidget buttons rect;
   DrawUpDownWidget upDown rect;
   DrawText (js "a") 10 6 default_style false None].

(** Calls of [drawText] with [n] different texts. *)
Definition texts (n : nat) : list request :=
  (fun k => DrawText (string_of_Z (Z.of_nat k)) 10 6 default_style false None)
    <$> seq 0 n.

End Sample.


(** The two conditions [distinct_nesting] puts on a callback. *)
Definition distinct_actions (acts : list action) : bool :=
  forallb (fun a => match a with
                    | DrawImage src _ _ => distinct_nesting src
                    | Lcd _ => true
                    end) acts.

(** Every key a list of actions can push is a key of [drawText]. *)
Definition text_keys_only (acts : list action) : Prop :=
  distinct_actions acts = true /\
  forall k, k ∈ nested_keys acts -> exists k', k = js "drawText" ++ js "." ++ k'.

(** The list and the map hold the same keys, each once. *)
Definition synchronized (st : cache_state) : Prop :=
  NoDup (cache st) /\
  dom (cacheMap st) = list_to_set (cache st) /\
  length (cache st) = size (cacheMap st).







(** ** The shared geometry rule as the specification words it *)

(** The border fill: the border colour on the full rectangle with the
    radius of the style, when the border size is positive. *)
Definition specified_border (E : Env) (style : Style) (w h : Z) : list lcd_op :=
  let B := or_zero (styleGetBorderSize E style) in
  let R := or_zero (styleGetBorderRadius E style) in
  if 0 <? B
  then [setColor (borderColor (getStyleProperty E style));
        fillRect (zn 0) (zn 0) (zn (w - 1)) (zn (h - 1)) (Some (zn R))]
  else [].

(** The four edges inset by the border size, the radius reduced by it and
    floored at 0. *)
Definition specified_inset (E : Env) (style : Style) (w h : Z) : box :=
  let B := or_zero (styleGetBorderSize E style) in
  let R := or_zero (styleGetBorderRadius E style) in
  {| box_x1 := B; box_y1 := B; box_x2 := w - 1 - B; box_y2 := h - 1 - B;
     box_radius := Z.max (R - B) 0 |}.

(** Modelled from the spec: the module [lcd] is not among the sources.
    [lcd.fillRect(ctx, x1, y1, x2, y2)] paints the pixels from [(x1, y1)] to
    [(x2, y2)], corners included, and [lcd.drawBitmap(ctx, image, x, y, w, h)]
    the [w] by [h] pixels from [(x, y)] on.  [within x_lo x_hi y_lo y_hi op]:
    such an operation paints a rectangle of at least one pixel that lies
    inside [x_lo, x_hi) x [y_lo, y_hi); setting a colour paints nothing. *)
Definition within (x_lo x_hi y_lo y_hi : Z) (op : lcd_op) : Prop :=
  match op with
  | fillRect a b c d _ =>
      exists x1 y1 x2 y2,
        a = zn x1 /\ b = zn y1 /\ c = zn x2 /\ d = zn y2 /\
        x1 <= x2 /\ y1 <= y2 /\
        x_lo <= x1 /\ x2 < x_hi /\ y_lo <= y1 /\ y2 < y_hi
  | lcdDrawBitmap _ a b c d =>
      exists x y w h,
        a = zn x /\ b = zn y /\ c = zn w /\ d = zn h /\
        0 < w /\ 0 < h /\
        x_lo <= x /\ x + w <= x_hi /\ y_lo <= y /\ y + h <= y_hi
  | setColor _ | setBackColor _ => True
  | drawStr _ _ _ _ | drawHLine _ _ _ | drawVLine _ _ _ => False
  end.

(** The image has pixels, the paddings are not negative, and the image
    with the paddings leaves room on every side of the inset rectangle. *)
Definition bitmap_fits (E : Env) (style : Style) (w h : Z) (image : ImageElement)
    : Prop :=
  let B := or_zero (styleGetBorderSize E style) in
  let sp := getStyleProperty E style in
  0 < img_width image /\ 0 < img_height image /\
  0 <= paddingHorizontal sp /\ 0 <= paddingVertical sp /\
  img_width image + paddingHorizontal sp <= w - 2 * B - 1 /\
  img_height image + paddingVertical sp <= h - 2 * B - 1.


(** The evaluation returned. *)
Definition returns {A} (o : option A) : bool :=
  match o with
  | Some _ => true
  | None => false
  end.


(** The project [E] with other current values bound to the data items. *)
Definition with_data_get (E : Env) (g : jsstring -> option jsstring) : Env :=
  {| getStyleProperty := getStyleProperty E;
     findStyle := findStyle E;
     findFont := findFont E;
     findBitmap := findBitmap E;
     getDefaultStyle := getDefaultStyle E;
     data_get := g;
     data_getMin := data_getMin E;
     data_getMax := data_getMax E;
     data_getValueList := data_getValueList E;
     measureStr := measureStr E;
     ToNumber := ToNumber E;
     parseFloat := parseFloat E;
     NumberToString := NumberToString E;
     remainder := remainder E;
     increment := increment E |}.



(** The sample project with a font one pixel high. *)
Module Flat.

Definition font : Font :=
  {| font_id := js "flat"; font_modificationTime := None; font_height := 1;
     font_glyphs := [] |}.

Definition env : Env :=
  {| getStyleProperty := getStyleProperty Sample.env;
     findStyle := findStyle Sample.env;
     findFont := fun _ => Some font;
     findBitmap := findBitmap Sample.env;
     getDefaultStyle := getDefaultStyle Sample.env;
     data_get := data_get Sample.env;
     data_getMin := data_getMin Sample.env;
     data_getMax := data_getMax Sample.env;
     data_getValueList := data_getValueList Sample.env;
     measureStr := measureStr Sample.env;
     ToNumber := ToNumber Sample.env;
     parseFloat := parseFloat Sample.env;
     NumberToString := NumberToString Sample.env;
     remainder := remainder Sample.env;
     increment := increment Sample.env |}.

End Flat.


(** A project with two data items whose button labels differ only in where
    a comma is. *)
Module Comma.

Definition env : Env :=
  {| getStyleProperty := getStyleProperty Sample.env;
     findStyle := findStyle Sample.env;
     findFont := findFont Sample.env;
     findBitmap := findBitmap Sample.env;
     getDefaultStyle := getDefaultStyle Sample.env;
     data_get := fun _ => None;
     data_getMin := data_getMin Sample.env;
     data_getMax := data_getMax Sample.env;
     data_getValueList := fun r =>
       if decide (r = js "one") then [js "a,b"]
       else if decide (r = js "two") then [js "a"; js "b"]
       else [];
     measureStr := measureStr Sample.env;
     ToNumber := ToNumber Sample.env;
     parseFloat := parseFloat Sample.env;
     NumberToString := NumberToString Sample.env;
     remainder := remainder Sample.env;
     increment := increment Sample.env |}.

Definition one_button : Widget :=
  {| widget_data := Some (js "one"); widget_style := Sample.default_style |}.

Definition two_buttons : Widget :=
  {| widget_data := Some (js "two"); widget_style := Sample.default_style |}.

End Comma.

(** [buttonLabels] of [drawButtonGroupWidget]. *)
Definition buttonLabels_of (E : Env) (widget : Widget) : list jsstring :=
  default [] (with_data (widget_data widget) (data_getValueList E)).


(** The sample project with a data item whose minimum is minus infinity. *)
Module Unbounded.

Definition env : Env :=
  {| getStyleProperty := getStyleProperty Sample.env;
     findStyle := findStyle Sample.env;
     findFont := findFont Sample.env;
     findBitmap := findBitmap Sample.env;
     getDefaultStyle := getDefaultStyle Sample.env;
     data_get := data_get Sample.env;
     data_getMin := fun _ => NegInf;
     data_getMax := data_getMax Sample.env;
     data_getValueList := data_getValueList Sample.env;
     measureStr := measureStr Sample.env;
     ToNumber := ToNumber Sample.env;
     parseFloat := parseFloat Sample.env;
     NumberToString := NumberToString Sample.env;
     remainder := remainder Sample.env;
     increment := increment Sample.env |}.

End Unbounded.

(** ** [findScpiEnum] *)

Module ScpiEnums.

(** A [ScpiEnum]: its name and its members. *)
Record ScpiEnum := {
  enum_name : option jsstring;
  members : list Scpi.ScpiEnumMember
}.

(** [findScpiEnum], where [enums] is [scpi.enums] of the project. *)
Fixpoint findScpiEnum (enums : list ScpiEnum) (enumeration : jsstring)
    : option ScpiEnum :=
  match enums with
  | [] => None
  | e :: rest =>
      if bool_decide (enum_name e = Some enumeration) then Some e
      else findScpiEnum rest enumeration
  end.

End ScpiEnums.

(** ** The store as the specification words it *)

Section SpecifiedRequests.
Variable keys_after : call -> list jsstring -> list jsstring.

(** The requests a render function makes, one after the other. *)
Fixpoint specified_requests (acts : list action) (held : list jsstring)
    : list jsstring :=
  match acts with
  | [] => held
  | Lcd _ :: rest => specified_requests rest held
  | DrawImage src _ _ :: rest => specified_requests rest (keys_after src held)
  end.
End SpecifiedRequests.

(** The keys the store holds, oldest first, after a render is requested
    while it holds [held].  Under the composite key [section + "." + id]: a
    key that is held gives a hit, which leaves the keys as they are, whatever
    the age of the entry; otherwise the render function runs, with the
    requests it makes itself, and the key is added as the most recent one,
    the 1000 most recent keys being kept.  With no id the render function
    runs and nothing is added for the request itself. *)
Fixpoint specified_keys (c : call) (held : list jsstring) {struct c} : list jsstring :=
  match c with
  | DrawFromCache section id w h callback =>
      let rendered :=
        match callback with
        | Some acts => specified_requests specified_keys acts held
        | None => held
        end in
      match id with
      | Some i =>
          let k := section ++ js "." ++ i in
          if bool_decide (k ∈ held) then held else last_n 1000 (rendered ++ [k])
      | None => rendered
      end
  end.

(** The keys held after a sequence of requests made of the empty store. *)
Definition specified_store (cs : list call) : list jsstring :=
  fold_left (fun held c => specified_keys c held) cs [].

(** A request under the key [k] whose render function makes no request. *)
Definition requests_key (c : call) (k : jsstring) : Prop :=
  exists section id w h ops,
    c = DrawFromCache section (Some id) w h (Some (Lcd <$> ops)) /\
    k = section ++ js "." ++ id.

(** The keys a sequence of requests inserts, in order: each request either
    misses, under a key that was not inserted before, or hits one of the
    1000 keys inserted last. *)
Inductive inserted_keys : list call -> list jsstring -> Prop :=
| inserted_none : inserted_keys [] []
| inserted_miss cs keys c k :
    inserted_keys cs keys -> requests_key c k -> k ∉ keys ->
    inserted_keys (cs ++ [c]) (keys ++ [k])
| inserted_hit cs keys c k :
    inserted_keys cs keys -> requests_key c k -> k ∈ last_n 1000 keys ->
    inserted_keys (cs ++ [c]) keys.

Definition keys_spec (c : call) : Prop :=
  forall st cv st' log,
    distinct_nesting c = true -> cache_inv st ->
    drawFromCache c st = Some (cv, st', log) ->
    cache st' = specified_keys c (cache st).

(** The calls of [drawFromCache] that a sequence of requests makes. *)
Definition calls_of (E : Env) (fuel : nat) (rs : list request) : list call :=
  omap (fun r => match serve E fuel r with
                 | Draws c => Some c
                 | _ => None
                 end) rs.

(** ** Further projects *)

(** A project in which the default style inherits from a style that
    inherits from no style. *)
Module Fallback.

Definition base_style : Style :=
  {| style_id := js "style3"; style_modificationTime := None; inheritFrom := None |}.

Definition default_style : Style :=
  {| style_id := js "style0"; style_modificationTime := None;
     inheritFrom := Some (js "base") |}.

Definition env : Env :=
  {| getStyleProperty := getStyleProperty Sample.env;
     findStyle := fun n => if decide (n = js "base") then Some base_style else None;
     findFont := findFont Sample.env;
     findBitmap := findBitmap Sample.env;
     getDefaultStyle := default_style;
     data_get := data_get Sample.env;
     data_getMin := data_getMin Sample.env;
     data_getMax := data_getMax Sample.env;
     data_getValueList := data_getValueList Sample.env;
     measureStr := measureStr Sample.env;
     ToNumber := ToNumber Sample.env;
     parseFloat := parseFloat Sample.env;
     NumberToString := NumberToString Sample.env;
     remainder := remainder Sample.env;
     increment := increment Sample.env |}.

End Fallback.

(** The sample project with a second data item, ["full"], that shows the
    text of ["level"] at the end of its range. *)
Module Full.

Definition env : Env :=
  {| getStyleProperty := getStyleProperty Sample.env;
     findStyle := findStyle Sample.env;
     findFont := findFont Sample.env;
     findBitmap := findBitmap Sample.env;
     getDefaultStyle := getDefaultStyle Sample.env;
     data_get := fun r =>
       if decide (r = js "full") then Some (js "10") else data_get Sample.env r;
     data_getMin := data_getMin Sample.env;
     data_getMax := fun r =>
       if decide (r = js "full") then zn 10 else data_getMax Sample.env r;
     data_getValueList := data_getValueList Sample.env;
     measureStr := measureStr Sample.env;
     ToNumber := ToNumber Sample.env;
     parseFloat := parseFloat Sample.env;
     NumberToString := NumberToString Sample.env;
     remainder := remainder Sample.env;
     increment := increment Sample.env |}.

Definition barGraph : BarGraphWidget :=
  {| barGraph_data := Some (js "full"); barGraph_style := Sample.default_style;
     orientation := Some (js "left-right"); textStyle := Sample.title_style;
     line1Data := None; line1Style := Sample.default_style;
     line2Data := None; line2Style := Sample.default_style |}.

End Full.

(** ** The loop of the scale *)

(** The whole numbers that binary64 holds exactly lie between -2^53 and
    2^53. *)
Definition safe_integer_bound : Z := 9007199254740992.

(** The platform's [y + 1] is exact on the whole numbers between -2^53 and
    2^53 - 1, as binary64 has it. *)
Definition exact_increment (E : Env) : Prop :=
  forall z, - safe_integer_bound <= z < safe_integer_bound ->
    increment E (zn z) = zn (z + 1).

(** The bounds [y_from] and [y_to] of the loop of [drawScale] that
    [drawScaleWidget] computes. *)
Definition scale_loop_bounds (E : Env) (scaleWidget : ScaleWidget) (rect : Rect)
    : num * num :=
  let '(y_from, y_to, _, _, _, _, _) := drawScaleWidget_args E scaleWidget rect in
  (y_from, y_to).

(** The operations that directly follow a [lcd.setColor(c)]. *)
Fixpoint drawn_in (c : option jsstring) (ops : list lcd_op) : list lcd_op :=
  match ops with
  | [] => []
  | op :: rest =>
      match op, rest with
      | setColor c', next :: _ =>
          if bool_decide (c' = c) then next :: drawn_in c rest else drawn_in c rest
      | _, _ => drawn_in c rest
      end
  end.

(** [needleSize] of [drawScaleWidget] and [drawScale]. *)
Definition needle_size (scaleWidget : ScaleWidget) : Z :=
  if is_vertical scaleWidget then or_zero (needleHeight scaleWidget)
  else or_zero (needleWidth scaleWidget).

(** The sample project with a data item whose range, from 5 to 10, does
    not hold 0. *)
Module Gauge.

Definition env : Env :=
  {| getStyleProperty := getStyleProperty Sample.env;
     findStyle := findStyle Sample.env;
     findFont := findFont Sample.env;
     findBitmap := findBitmap Sample.env;
     getDefaultStyle := getDefaultStyle Sample.env;
     data_get := fun _ => Some (js "7");
     data_getMin := fun _ => zn 5;
     data_getMax := fun _ => zn 10;
     data_getValueList := data_getValueList Sample.env;
     measureStr := measureStr Sample.env;
     ToNumber := ToNumber Sample.env;
     parseFloat := parseFloat Sample.env;
     NumberToString := NumberToString Sample.env;
     remainder := remainder Sample.env;
     increment := increment Sample.env |}.

End Gauge.

(** ** The console *)




(** ** The words of a text as the specification splits it *)





(* ================================================================== *)
(** * Properties *)
(* ================================================================== *)

(** ** Lists: the last [n] elements *)

Lemma last_n_all {A} (n : nat) (l : list A) :
  (length l <= n)%nat -> last_n n l = l.
Proof.
  intros H. unfold last_n. replace (length l - n)%nat with 0%nat by lia. done.
Qed.

Lemma length_last_n {A} (n : nat) (l : list A) :
  length (last_n n l) = Nat.min n (length l).
Proof. unfold last_n. rewrite length_drop. lia. Qed.

Lemma last_n_app_last_n {A} (n : nat) (l k : list A) :
  last_n n (last_n n l ++ k) = last_n n (l ++ k).
Proof.
  destruct (decide (length l <= n)%nat) as [Hle|Hgt].
  - by rewrite (last_n_all n l).
  - assert (Hl : l = take (length l - n) l ++ drop (length l - n) l)
      by (by rewrite take_drop).
    assert (Hp : length (take (length l - n) l) = (length l - n)%nat)
      by (rewrite length_take; lia).
    unfold last_n at 2. revert Hl Hp.
    generalize (take (length l - n) l) (drop (length l - n) l).
    intros p s -> Hp. unfold last_n. rewrite !length_app in *.
    rewrite <- (assoc_L (++)).
    rewrite (drop_app_ge p) by lia.
    f_equal. lia.
Qed.

Lemma last_n_snoc_full {A} (n : nat) (x y : A) (l : list A) :
  length (x :: l) = n -> last_n n ((x :: l) ++ [y]) = l ++ [y].
Proof.
  intros H. unfold last_n. rewrite length_app. simpl in *.
  replace (S (length l + 1) - n)%nat with 1%nat by lia. done.
Qed.

(** ** Induction on calls, through the callbacks *)

Lemma call_nested_ind (P : call -> Prop) :
  (forall section id w h, P (DrawFromCache section id w h None)) ->
  (forall section id w h acts,
     Forall (nested_call P) acts ->
     P (DrawFromCache section id w h (Some acts))) ->
  forall c, P c.
Proof.
  intros Hnone Hsome. fix IH 1.
  intros [section id w h [acts|]]; [|apply Hnone].
  apply Hsome. induction acts as [|a acts IHacts]; constructor; [|exact IHacts].
  destruct a as [op|src x y]; simpl; [exact I|apply IH].
Qed.

(** ** Callbacks that only paint *)

Lemma run_callback_lcd exec ops : forall cv st log,
  run_callback exec (Lcd <$> ops) cv st log =
  Some ({| canvas_id := canvas_id cv; canvas_width := canvas_width cv;
           canvas_height := canvas_height cv;
           canvas_content := canvas_content cv ++ (PLcd <$> ops) |}, st, log).
Proof.
  induction ops as [|op ops IH]; intros cv st log; simpl.
  - rewrite app_nil_r. by destruct cv.
  - rewrite IH. simpl. by rewrite <- (assoc_L (++)).
Qed.

(** ** The cache invariant *)

Lemma MAX_DRAW_CACHE_SIZE_pos : (0 < MAX_DRAW_CACHE_SIZE)%nat.
Proof. unfold MAX_DRAW_CACHE_SIZE. lia. Qed.

Lemma initial_state_inv : cache_inv initial_state.
Proof.
  split; simpl.
  - constructor.
  - intros k. rewrite lookup_empty. split; [by intros ?%elem_of_nil|by intros [? ?]].
  - lia.
  - by intros k ?%elem_of_nil.
  - intros k cv. by rewrite lookup_empty.
Qed.

Lemma composite_truthy section id k :
  composite section id = Some k -> truthy_str k = true.
Proof.
  destruct id as [i|]; [|discriminate]. intros [= <-].
  destruct section; reflexivity.
Qed.

Lemma evict_oldest_inv st :
  cache_inv st -> cache_inv (evict_oldest st).
Proof.
  intros [Hnd Hsync Hb Ht Ha]. unfold evict_oldest.
  destruct (cache st) as [|k0 rest] eqn:Hc; [by split; rewrite ?Hc|].
  assert (Htk : truthy_str k0 = true) by (apply Ht; left).
  rewrite Htk. apply NoDup_cons in Hnd as [Hk0 Hnd].
  split; simpl.
  - done.
  - intros k. destruct (decide (k = k0)) as [->|Hne].
    + rewrite lookup_delete_eq. split; [done|by intros [? ?]].
    + rewrite lookup_delete_ne by done. rewrite <- Hsync.
      rewrite elem_of_cons. naive_solver.
  - simpl in Hb. lia.
  - intros k Hk. apply Ht. by right.
  - intros k cv Hk. apply lookup_delete_Some in Hk as [_ Hk]. eauto.
Qed.

Lemma store_inv k cv st :
  cache_inv st -> cacheMap st !! k = None -> truthy_str k = true ->
  (canvas_id cv < next_canvas st)%nat ->
  cache_inv (store k cv st).
Proof.
  intros Hinv Hk Htk Hid. unfold store.
  set (st' := if Nat.eqb _ _ then _ else _).
  assert (Hinv' : cache_inv st').
  { subst st'. destruct (Nat.eqb _ _); [by apply evict_oldest_inv|done]. }
  assert (Hk' : cacheMap st' !! k = None).
  { subst st'. destruct (Nat.eqb _ _); [|done]. unfold evict_oldest.
    destruct (cache st) as [|k0 rest]; [done|]. simpl.
    destruct (truthy_str k0); [|done]. by apply lookup_delete_None; right. }
  assert (Hlen : (length (cache st') < MAX_DRAW_CACHE_SIZE)%nat).
  { subst st'. destruct (Nat.eqb _ _) eqn:He.
    - apply Nat.eqb_eq in He. unfold evict_oldest.
      pose proof MAX_DRAW_CACHE_SIZE_pos.
      destruct (cache st) eqn:Hc; simpl in *; [rewrite Hc; simpl|]; lia.
    - apply Nat.eqb_neq in He. pose proof (inv_bound _ Hinv). lia. }
  assert (Hnext : next_canvas st' = next_canvas st).
  { subst st'. destruct (Nat.eqb _ _); [|done]. unfold evict_oldest.
    by destruct (cache st). }
  clearbody st'. destruct Hinv' as [Hnd Hsync Hb Ht Ha].
  assert (Hnotin : k ∉ cache st').
  { intros Hin. apply Hsync in Hin as [? Hin]. congruence. }
  split; simpl.
  - apply NoDup_app. split_and!; [done| |apply NoDup_singleton].
    intros x Hx ->%list_elem_of_singleton. done.
  - intros k'. rewrite elem_of_app, list_elem_of_singleton.
    destruct (decide (k' = k)) as [->|Hne].
    + rewrite lookup_insert_eq. naive_solver.
    + rewrite lookup_insert_ne by done. rewrite <- Hsync. naive_solver.
  - rewrite length_app. simpl. lia.
  - intros k' [Hin| ->%list_elem_of_singleton]%elem_of_app; eauto.
  - intros k' cv'. destruct (decide (k' = k)) as [->|Hne].
    + rewrite lookup_insert_eq. intros [= <-]. lia.
    + rewrite lookup_insert_ne by done. eauto.
Qed.

Lemma store_cache k cv st :
  (length (cache st) <= MAX_DRAW_CACHE_SIZE)%nat ->
  cache (store k cv st) = last_n MAX_DRAW_CACHE_SIZE (cache st ++ [k]).
Proof.
  intros Hb. unfold store. destruct (Nat.eqb _ _) eqn:He; simpl.
  - apply Nat.eqb_eq in He. unfold evict_oldest.
    pose proof MAX_DRAW_CACHE_SIZE_pos.
    destruct (cache st) as [|k0 rest] eqn:Hc; [simpl in He; lia|].
    simpl cache. by rewrite last_n_snoc_full.
  - apply Nat.eqb_neq in He. rewrite last_n_all; [done|].
    rewrite length_app. simpl. lia.
Qed.

Lemma store_lookup k cv st k' cv' :
  cacheMap (store k cv st) !! k' = Some cv' ->
  (k' = k /\ cv' = cv) \/ cacheMap st !! k' = Some cv'.
Proof.
  unfold store. simpl. destruct (decide (k' = k)) as [->|Hne].
  - rewrite lookup_insert_eq. intros [= <-]. by left.
  - rewrite lookup_insert_ne by done. intros H. right.
    destruct (Nat.eqb _ _); [|done]. unfold evict_oldest in H.
    destruct (cache st) as [|k0 rest]; [done|]. simpl in H.
    destruct (truthy_str k0); [|done].
    by apply lookup_delete_Some in H as [_ H].
Qed.

Lemma store_next k cv st : next_canvas (store k cv st) = next_canvas st.
Proof.
  unfold store. simpl. destruct (Nat.eqb _ _); [|done].
  unfold evict_oldest. by destruct (cache st).
Qed.

Lemma extends_refl st : cache_inv st -> extends st st [].
Proof.
  intros Hinv. split; [done|lia| |by left].
  rewrite app_nil_r, last_n_all; [done|apply Hinv].
Qed.

Lemma extends_trans st st1 st2 l1 l2 :
  extends st st1 l1 -> extends st1 st2 l2 -> extends st st2 (l1 ++ l2).
Proof.
  intros [_ Hn1 Hc1 Hm1] [Hi2 Hn2 Hc2 Hm2]. split; [done|lia| |].
  - by rewrite Hc2, Hc1, last_n_app_last_n, (assoc_L (++)).
  - intros k cv [H|[Hin Hid]]%Hm2.
    + apply Hm1 in H as [H|[Hin Hid]]; [by left|right].
      split; [apply elem_of_app; by left|lia].
    + right. split; [apply elem_of_app; by right|lia].
Qed.

Lemma extends_create w h st :
  cache_inv st -> extends st (create_canvas w h st).2 [].
Proof.
  intros Hinv. pose proof Hinv as [Hnd Hsync Hb Ht Ha].
  split; simpl; [|lia| |by left].
  - split; simpl; try done. intros k cv Hk. apply Ha in Hk. lia.
  - rewrite app_nil_r, last_n_all; done.
Qed.

Lemma extends_store st0 st k cv l :
  extends st0 st l -> cacheMap st !! k = None -> truthy_str k = true ->
  (next_canvas st0 <= canvas_id cv < next_canvas st)%nat ->
  extends st0 (store k cv st) (l ++ [k]).
Proof.
  intros [Hi Hn Hc Hm] Hk Htk Hid. split.
  - apply store_inv; [done..|lia].
  - rewrite store_next. lia.
  - rewrite store_cache by apply Hi.
    by rewrite Hc, last_n_app_last_n, (assoc_L (++)).
  - intros k' cv' [[-> ->]|H]%store_lookup.
    + right. rewrite store_next. split; [|lia].
      apply elem_of_app. right. by left.
    + apply Hm in H as [H|[Hin Hid']]; [by left|right].
      rewrite store_next. split; [apply elem_of_app; by left|done].
Qed.

(** ** Every call extends the state *)

Lemma run_callback_extends acts :
  Forall (nested_call call_extends) acts ->
  forallb (fun a => match a with
                    | DrawImage src _ _ => distinct_nesting src
                    | Lcd _ => true
                    end) acts = true ->
  forall cv st log0 cv' st' log',
    cache_inv st ->
    run_callback drawFromCache acts cv st log0 = Some (cv', st', log') ->
    exists new, log' = log0 ++ new /\
      extends st st' new /\
      (forall k, k ∈ new -> k ∈ nested_keys acts) /\
      canvas_id cv' = canvas_id cv /\
      canvas_width cv' = canvas_width cv /\
      canvas_height cv' = canvas_height cv.
Proof.
  induction 1 as [|a acts Ha _ IH]; intros Hwf cv st log0 cv' st' log' Hinv Hrun.
  - simpl in Hrun. injection Hrun as <- <- <-. exists [].
    rewrite app_nil_r. split_and!; try done. by apply extends_refl.
  - simpl in Hwf. apply andb_true_iff in Hwf as [Hwa Hwf].
    destruct a as [op|src x y]; simpl in Hrun.
    + apply (IH Hwf) in Hrun as (new & -> & He & Hk & Hid); [|done].
      exists new. split_and!; try done; apply Hid.
    + destruct (drawFromCache src st) as [[[img st1] pushed]|] eqn:Hsrc;
        [|discriminate].
      destruct (Ha _ _ _ _ Hwa Hinv Hsrc) as [He1 Hk1].
      apply (IH Hwf) in Hrun as (new & -> & He & Hk & Hid); [|apply He1].
      exists (pushed ++ new). split_and!.
      * by rewrite (assoc_L (++)).
      * by eapply extends_trans.
      * intros k [Hin|Hin]%elem_of_app; unfold nested_keys; simpl;
          apply elem_of_app; [left|right]; eauto.
      * apply Hid.
      * apply Hid.
      * apply Hid.
Qed.

Lemma drawFromCache_extends c : call_extends c.
Proof.
  induction c as [section id w h|section id w h acts IH] using call_nested_ind;
    intros st cv st' log Hwf Hinv Hrun; simpl in Hrun.
  - destruct (lookup_canvas _ st) as [cv0|]; [|discriminate].
    injection Hrun as <- <- <-. split; [by apply extends_refl|].
    by intros k ?%elem_of_nil.
  - destruct (lookup_canvas _ st) as [cv0|] eqn:Hlk.
    { injection Hrun as <- <- <-. split; [by apply extends_refl|].
      by intros k ?%elem_of_nil. }
    simpl in Hwf. apply andb_true_iff in Hwf as [Hwn Hwk].
    destruct (run_callback _ _ _ _ _) as [[[cv1 st1] log1]|] eqn:Hcb;
      [|discriminate].
    apply (run_callback_extends _ IH Hwn) in Hcb
      as (new & Hlog & He & Hk & Hid & _); [|apply (extends_create w h st Hinv)].
    simpl in Hlog, Hid. subst log1.
    pose proof (extends_trans _ _ _ _ _ (extends_create w h st Hinv) He) as He'.
    simpl in He'.
    destruct (composite section id) as [k|] eqn:Hkey.
    + injection Hrun as <- <- <-. simpl in Hlk.
      apply bool_decide_eq_true in Hwk.
      assert (Hnone : cacheMap st1 !! k = None).
      { destruct (cacheMap st1 !! k) as [cv2|] eqn:Hk2; [|done].
        apply (ext_map _ _ _ He') in Hk2 as [Hk2|[Hin _]]; [congruence|].
        by apply Hk in Hin. }
      split.
      * apply extends_store; try done.
        -- by eapply composite_truthy.
        -- rewrite Hid. pose proof (ext_next _ _ _ He). simpl in *. lia.
      * intros k' [Hin| ->%list_elem_of_singleton]%elem_of_app; simpl;
          rewrite Hkey; apply elem_of_app; [left; by apply Hk|right; by left].
    + injection Hrun as <- <- <-. split; [done|].
      intros k' Hin. simpl. rewrite Hkey, app_nil_r. by apply Hk.
Qed.

(** ** The calls the module makes never nest a key in itself *)

Lemma nested_keys_lcd (ops : list lcd_op) : nested_keys (Lcd <$> ops) = [].
Proof. induction ops as [|op ops IH]; [done|]. exact IH. Qed.

Lemma distinct_actions_lcd (ops : list lcd_op) : distinct_actions (Lcd <$> ops) = true.
Proof. induction ops as [|op ops IH]; [done|]. exact IH. Qed.

Lemma distinct_nesting_unfold section id w h acts :
  distinct_nesting (DrawFromCache section id w h (Some acts)) =
  distinct_actions acts &&
  match composite section id with
  | Some k => bool_decide (k ∉ nested_keys acts)
  | None => true
  end.
Proof. reflexivity. Qed.

Lemma leaf_distinct section id w h (ops : option (list lcd_op)) :
  distinct_nesting
    (DrawFromCache section id w h
       (match ops with Some l => Some (Lcd <$> l) | None => None end)) = true.
Proof.
  destruct ops as [l|]; [|done].
  rewrite distinct_nesting_unfold, distinct_actions_lcd, nested_keys_lcd.
  destruct (composite section id); [|done].
  apply bool_decide_eq_true. by intros ?%elem_of_nil.
Qed.

Lemma drawText_call E fuel text w h style inverse o c :
  drawText E fuel text w h style inverse o = Some c ->
  distinct_nesting c = true /\
  exists k, call_keys c = [js "drawText" ++ js "." ++ k].
Proof.
  unfold drawText. destruct (getCacheId _ _ _) as [cid|]; [|discriminate].
  intros [= <-]. split.
  - apply (leaf_distinct _ _ _ _ (Some _)).
  - eexists. simpl call_keys.
    change (flat_map _ ?l) with (nested_keys l).
    by rewrite nested_keys_lcd.
Qed.

Lemma button_group_key_not_text (a b : jsstring) :
  js "drawButtonGroup" ++ js "." ++ a <> js "drawText" ++ js "." ++ b.
Proof. intros H. cbn in H. discriminate H. Qed.

Lemma nested_keys_cons_image (c : call) x y (acts : list action) :
  nested_keys (DrawImage c x y :: acts) = call_keys c ++ nested_keys acts.
Proof. reflexivity. Qed.

Lemma nested_keys_app (l1 l2 : list action) :
  nested_keys (l1 ++ l2) = nested_keys l1 ++ nested_keys l2.
Proof. unfold nested_keys. apply flat_map_app. Qed.

Lemma distinct_actions_app (l1 l2 : list action) :
  distinct_actions (l1 ++ l2) = distinct_actions l1 && distinct_actions l2.
Proof. unfold distinct_actions. apply forallb_app. Qed.

Lemma text_keys_only_nil : text_keys_only [].
Proof. split; [done|by intros k ?%elem_of_nil]. Qed.

Lemma text_keys_only_lcd ops : text_keys_only (Lcd <$> ops).
Proof.
  split; [apply distinct_actions_lcd|].
  rewrite nested_keys_lcd. by intros k ?%elem_of_nil.
Qed.

Lemma text_keys_only_app l1 l2 :
  text_keys_only l1 -> text_keys_only l2 -> text_keys_only (l1 ++ l2).
Proof.
  intros [Hd1 Hk1] [Hd2 Hk2]. split.
  - by rewrite distinct_actions_app, Hd1, Hd2.
  - intros k. rewrite nested_keys_app. intros [?|?]%elem_of_app; eauto.
Qed.

Lemma text_keys_only_image E fuel text w h style inverse o c x y acts :
  drawText E fuel text w h style inverse o = Some c ->
  text_keys_only acts -> text_keys_only (DrawImage c x y :: acts).
Proof.
  intros [Hd [k0 Hk0]]%drawText_call [Hda Hka]. split.
  - unfold distinct_actions in *. simpl. by rewrite Hd, Hda.
  - intros k. rewrite nested_keys_cons_image, Hk0.
    intros [->%list_elem_of_singleton|?]%elem_of_app; eauto.
Qed.

Lemma button_images_keys E fuel labels : forall i w h style sel x y stepx stepy acts,
  button_images E fuel labels i w h style sel x y stepx stepy = Some acts ->
  text_keys_only acts.
Proof.
  induction labels as [|label rest IH]; intros i w h style sel x y stepx stepy acts;
    simpl.
  - intros [= <-]. apply text_keys_only_nil.
  - destruct (drawText _ _ _ _ _ _ _ _) as [c|] eqn:Hc; [|discriminate].
    destruct (button_images _ _ _ _ _ _ _ _ _ _ _ _) as [more|] eqn:Hm;
      [|discriminate].
    intros [= <-]. eapply text_keys_only_image; eauto.
Qed.

Lemma null_key_distinct section w h (callback : option (list action)) :
  (forall acts, callback = Some acts -> text_keys_only acts) ->
  distinct_nesting (DrawFromCache section None w h callback) = true.
Proof.
  intros H. destruct callback as [acts|]; [|done].
  rewrite distinct_nesting_unfold. simpl.
  rewrite andb_true_r. by apply H.
Qed.

Lemma drawUpDownWidget_keys E fuel upDownWidget rect acts :
  drawUpDownWidget_callback E fuel upDownWidget rect = Some acts ->
  text_keys_only acts.
Proof.
  unfold drawUpDownWidget_callback.
  destruct (styleGetFont _ _) as [buttonsFont|].
  - destruct (drawText _ _ _ _ _ _ _ _) as [c1|] eqn:H1; [|discriminate].
    destruct (drawText _ _ _ (_ - _) _ _ _ _) as [c2|] eqn:H2; [|discriminate].
    destruct (drawText _ _ (str_or (upButtonText _) _) _ _ _ _ _) as [c3|] eqn:H3;
      [|discriminate].
    intros [= <-].
    eapply text_keys_only_image; [exact H1|].
    eapply text_keys_only_image; [exact H2|].
    eapply text_keys_only_image; [exact H3|].
    apply text_keys_only_nil.
  - intros [= <-]. apply text_keys_only_nil.
Qed.

Lemma bar_text_keys E fuel barGraphWidget rect valueText pos acts :
  bar_text E fuel barGraphWidget rect valueText pos = Some acts ->
  text_keys_only acts.
Proof.
  unfold bar_text. destruct (styleGetFont _ _) as [font|].
  - destruct (_ && _).
    + destruct (nle _ _);
        (destruct (drawText _ _ _ _ _ _ _ _) as [c|] eqn:Hc; [|discriminate]);
        intros [= <-]; (eapply text_keys_only_image; [exact Hc|]);
        apply text_keys_only_nil.
    + intros [= <-]. apply text_keys_only_nil.
  - intros [= <-]. apply text_keys_only_nil.
Qed.

Lemma drawBarGraphWidget_keys E fuel barGraphWidget rect acts :
  drawBarGraphWidget_callback E fuel barGraphWidget rect = Some acts ->
  text_keys_only acts.
Proof.
  unfold drawBarGraphWidget_callback.
  destruct (drawBarGraphWidget_args _ _ _) as [[[[min max] valueText] value] d].
  set (text := if _ || _ then _ else _).
  assert (Ht : forall l, text = Some l -> text_keys_only l).
  { subst text. intros l. destruct (_ || _); [by apply bar_text_keys|].
    intros [= <-]. apply text_keys_only_nil. }
  destruct text as [l|]; [|discriminate]. specialize (Ht l eq_refl).
  set (fills := bar_fills _ _ _ _).
  set (ln1 := drawLine _ _ _ _ _ _ (line1Data _) _).
  set (ln2 := drawLine _ _ _ _ _ _ (line2Data _) _).
  clearbody fills ln1 ln2. intros [= <-].
  apply text_keys_only_app; [apply text_keys_only_lcd|].
  apply text_keys_only_app; [exact Ht|].
  apply text_keys_only_app; apply text_keys_only_lcd.
Qed.

Lemma serve_distinct E fuel r c :
  serve E fuel r = Draws c -> distinct_nesting c = true.
Proof.
  destruct r; simpl.
  - destruct (drawText _ _ _ _ _ _ _ _) as [c'|] eqn:Hc; [|discriminate].
    intros [= <-]. by eapply drawText_call.
  - unfold drawMultilineText.
    destruct (getCacheId _ _ _); [|discriminate]. intros [= <-].
    apply leaf_distinct.
  - unfold drawBitmap. destruct (imageElement _); [|discriminate].
    do 2 (destruct (getCacheId _ _ _); [|discriminate]). intros [= <-].
    apply (leaf_distinct _ _ _ _ (Some _)).
  - unfold drawRectangle. destruct (_ && _); [|discriminate].
    destruct (getCacheId _ _ _); [|discriminate]. intros [= <-].
    apply (leaf_distinct _ _ _ _ (Some _)).
  - unfold drawButtonGroupWidget.
    destruct (getCacheId _ _ _) as [cid|]; [|discriminate]. intros [= <-].
    destruct (drawButtonGroupWidget_callback _ _ _ _ _ _) as [acts|] eqn:Ha;
      [|done].
    assert (Hk : text_keys_only acts).
    { unfold drawButtonGroupWidget_callback in Ha.
      destruct (_ <? _); by eapply button_images_keys. }
    destruct Hk as [Hd Hk]. rewrite distinct_nesting_unfold, Hd. simpl.
    apply bool_decide_eq_true. intros [k' Hk']%Hk.
    by apply button_group_key_not_text in Hk'.
  - intros [= <-]. apply leaf_distinct.
  - intros [= <-]. apply null_key_distinct. intros acts.
    apply drawBarGraphWidget_keys.
  - intros [= <-]. apply (leaf_distinct _ _ _ _ (Some _)).
  - intros [= <-]. apply null_key_distinct. intros acts.
    apply drawUpDownWidget_keys.
  - intros [= <-]. apply (leaf_distinct _ _ _ _ (Some _)).
Qed.

(** ** Sessions keep the invariant *)

Lemma inv_synchronized st : cache_inv st -> synchronized st.
Proof.
  intros [Hnd Hsync _ _ _].
  assert (Hdom : dom (cacheMap st) = list_to_set (cache st)).
  { apply set_eq. intros k. by rewrite elem_of_dom, elem_of_list_to_set, Hsync. }
  split_and!; [done..|].
  by rewrite <- size_dom, Hdom, size_list_to_set.
Qed.

Lemma perform_extends E fuel r st res st' pushed :
  cache_inv st -> perform E fuel r st = Some (res, st', pushed) ->
  extends st st' pushed.
Proof.
  intros Hinv. unfold perform.
  destruct (serve E fuel r) as [| |c] eqn:Hs; [discriminate| |].
  - intros [= <- <- <-]. by apply extends_refl.
  - destruct (drawFromCache c st) as [[[cv st1] l]|] eqn:Hc; [|discriminate].
    intros [= <- <- <-].
    eapply drawFromCache_extends; eauto using serve_distinct.
Qed.

Lemma session_extends E fuel rs : forall st log0 st' log',
  cache_inv st -> session E fuel rs st log0 = Some (st', log') ->
  exists new, log' = log0 ++ new /\ extends st st' new.
Proof.
  induction rs as [|r rs IH]; intros st log0 st' log' Hinv; simpl.
  - intros [= <- <-]. exists []. rewrite app_nil_r. split; [done|].
    by apply extends_refl.
  - destruct (perform E fuel r st) as [[[res st1] pushed]|] eqn:Hp; [|discriminate].
    intros Hs. pose proof (perform_extends _ _ _ _ _ _ _ Hinv Hp) as He.
    apply IH in Hs as (new & -> & He'); [|apply He].
    exists (pushed ++ new). split; [by rewrite (assoc_L (++))|].
    by eapply extends_trans.
Qed.

Lemma session_snoc E fuel rs r : forall st log0 st1 log1 res st2 pushed,
  session E fuel rs st log0 = Some (st1, log1) ->
  perform E fuel r st1 = Some (res, st2, pushed) ->
  session E fuel (rs ++ [r]) st log0 = Some (st2, log1 ++ pushed).
Proof.
  induction rs as [|r' rs IH]; intros st log0 st1 log1 res st2 pushed; simpl.
  - intros [= <- <-] ->. done.
  - destruct (perform E fuel r' st) as [[[res' st'] pushed']|]; [|discriminate].
    eauto.
Qed.

Lemma session_inv E fuel rs st log :
  session E fuel rs initial_state [] = Some (st, log) ->
  cache_inv st /\ cache st = last_n MAX_DRAW_CACHE_SIZE log.
Proof.
  intros (new & -> & He)%session_extends; [|apply initial_state_inv].
  split; [apply He|]. by rewrite (ext_cache _ _ _ He).
Qed.

(** C9: between the calls of the drawing functions the insertion-order list
    has no duplicate, holds exactly the keys of the map, and is as long as the
    map is large; every further call (a hit, a miss that stores, a call with a
    null key) leaves them so. *)
Theorem cache_list_and_map_synchronized E fuel rs st log :
  session E fuel rs initial_state [] = Some (st, log) ->
  synchronized st /\
  forall r res st' pushed,
    perform E fuel r st = Some (res, st', pushed) -> synchronized st'.
Proof.
  intros Hs. split.
  - apply inv_synchronized. by eapply session_inv.
  - intros r res st' pushed Hp. apply inv_synchronized.
    eapply session_inv. by eapply session_snoc.
Qed.

Lemma cache_list_and_map_synchronized_witness :
  match session Sample.env 5 Sample.mixed_session initial_state [] with
  | Some (st, _) => synchronized st
  | None => False
  end.
Proof.
  destruct (session Sample.env 5 Sample.mixed_session initial_state [])
    as [[st log]|] eqn:H.
  - exact (proj1 (cache_list_and_map_synchronized Sample.env 5
                    Sample.mixed_session st log H)).
  - assert (Hr : returns (session Sample.env 5 Sample.mixed_session initial_state [])
                 = true) by (vm_compute; reflexivity).
    rewrite H in Hr. discriminate Hr.
Defined.

(** ** The bound of the cache *)

Lemma store_at_capacity k cv st oldest rest :
  cache st = oldest :: rest -> truthy_str oldest = true ->
  length (cache st) = MAX_DRAW_CACHE_SIZE ->
  cache (store k cv st) = rest ++ [k] /\
  cacheMap (store k cv st) = <[k := cv]> (delete oldest (cacheMap st)).
Proof.
  intros Hc Ht Hlen. unfold store.
  rewrite (proj2 (Nat.eqb_eq _ _) Hlen). unfold evict_oldest.
  rewrite Hc, Ht. done.
Qed.

Lemma keyed_call_stores section id w h callback k st cv st' log :
  composite section id = Some k ->
  drawFromCache (DrawFromCache section id w h callback) st = Some (cv, st', log) ->
  cacheMap st' !! k = Some cv.
Proof.
  intros Hk Hrun. simpl in Hrun. rewrite Hk in Hrun. simpl in Hrun.
  destruct (cacheMap st !! k) as [cv0|] eqn:Hlk.
  - by injection Hrun as <- <- <-.
  - destruct callback as [acts|]; [|discriminate].
    destruct (run_callback _ _ _ _ _) as [[[cv1 st1] log1]|]; [|discriminate].
    injection Hrun as <- <- <-. unfold store. simpl. apply lookup_insert_eq.
Qed.

Lemma hit_returns_stored (section id : jsstring) w h callback st cv :
  cacheMap st !! (section ++ js "." ++ id) = Some cv ->
  drawFromCache (DrawFromCache section (Some id) w h callback) st = Some (cv, st, []).
Proof.
  intros H. cbn [drawFromCache composite lookup_canvas].
  match goal with
  | |- match ?x with _ => _ end = _ => replace x with (Some cv) by (symmetry; exact H)
  end.
  reflexivity.
Qed.

Lemma run_callback_keys acts :
  Forall (nested_call keys_spec) acts ->
  distinct_actions acts = true ->
  forall cv st log0 cv' st' log',
    cache_inv st ->
    run_callback drawFromCache acts cv st log0 = Some (cv', st', log') ->
    cache st' = specified_requests specified_keys acts (cache st).
Proof.
  induction 1 as [|a acts Ha _ IH]; intros Hwf cv st log0 cv' st' log' Hinv Hrun.
  - simpl in Hrun. by injection Hrun as <- <- <-.
  - unfold distinct_actions in Hwf. simpl in Hwf.
    apply andb_true_iff in Hwf as [Hwa Hwf].
    destruct a as [op|src x y]; simpl in Hrun |- *.
    + by eapply IH.
    + destruct (drawFromCache src st) as [[[img st1] pushed]|] eqn:Hsrc;
        [|discriminate].
      rewrite <- (Ha _ _ _ _ Hwa Hinv Hsrc).
      eapply IH; [done| |exact Hrun].
      by eapply (drawFromCache_extends src).
Qed.

Lemma lookup_held k st :
  cache_inv st ->
  match cacheMap st !! k with
  | Some _ => k ∈ cache st
  | None => k ∉ cache st
  end.
Proof.
  intros Hinv. destruct (cacheMap st !! k) as [cv|] eqn:Hk.
  - apply (inv_sync _ Hinv). eauto.
  - intros [cv Hin]%(inv_sync _ Hinv). congruence.
Qed.

Lemma drawFromCache_unfold section id w h callback st :
  drawFromCache (DrawFromCache section id w h callback) st =
  match lookup_canvas (composite section id) st with
  | Some cv => Some (cv, st, [])
  | None =>
      match callback with
      | None => None
      | Some acts =>
          match run_callback drawFromCache acts (create_canvas w h st).1
                  (create_canvas w h st).2 [] with
          | None => None
          | Some (cv, st1, log) =>
              match composite section id with
              | Some k => Some (cv, store k cv st1, log ++ [k])
              | None => Some (cv, st1, log)
              end
          end
      end
  end.
Proof. reflexivity. Qed.

Lemma specified_keys_unfold section id w h callback held :
  specified_keys (DrawFromCache section id w h callback) held =
  let rendered :=
    match callback with
    | Some acts => specified_requests specified_keys acts held
    | None => held
    end in
  match id with
  | Some i =>
      if bool_decide (section ++ js "." ++ i ∈ held) then held
      else last_n 1000 (rendered ++ [section ++ js "." ++ i])
  | None => rendered
  end.
Proof. reflexivity. Qed.

Lemma drawFromCache_keys c : keys_spec c.
Proof.
  induction c as [section id w h|section id w h acts IH] using call_nested_ind;
    intros st cv st' log Hwf Hinv Hrun; rewrite drawFromCache_unfold in Hrun;
    rewrite specified_keys_unfold; cbv zeta.
  - destruct id as [i|]; [|discriminate Hrun].
    unfold composite, lookup_canvas in Hrun.
    pose proof (lookup_held (section ++ js "." ++ i) st Hinv) as Hheld.
    destruct (cacheMap st !! _) as [cv0|]; [|discriminate].
    injection Hrun as <- <- <-. by rewrite bool_decide_eq_true_2.
  - rewrite distinct_nesting_unfold in Hwf. apply andb_true_iff in Hwf as [Hwn Hwk].
    assert (Hcb : forall (cv1 : canvas) (st1 : cache_state) (log1 : list jsstring),
               run_callback drawFromCache acts
                 (create_canvas w h st).1 (create_canvas w h st).2 [] =
               Some (cv1, st1, log1) ->
               cache st1 = specified_requests specified_keys acts (cache st) /\
               (length (cache st1) <= MAX_DRAW_CACHE_SIZE)%nat).
    { intros cv1 st1 log1 Hcb.
      pose proof (extends_create w h st Hinv) as Hc.
      split.
      - by apply (run_callback_keys _ IH Hwn _ _ _ _ _ _ (ext_inv _ _ _ Hc) Hcb).
      - assert (Hall : Forall (nested_call call_extends) acts).
        { apply Forall_forall. intros a _. destruct a; simpl; [done|].
          apply drawFromCache_extends. }
        destruct (run_callback_extends acts Hall Hwn _ _ _ _ _ _ (ext_inv _ _ _ Hc) Hcb)
          as (new & _ & He & _).
        apply (inv_bound _ (ext_inv _ _ _ He)). }
    destruct id as [i|]; unfold composite, lookup_canvas in Hrun.
    + pose proof (lookup_held (section ++ js "." ++ i) st Hinv) as Hheld.
      destruct (cacheMap st !! _) as [cv0|].
      * injection Hrun as <- <- <-. by rewrite bool_decide_eq_true_2.
      * destruct (run_callback _ _ _ _ _) as [[[cv1 st1] log1]|] eqn:Hr; [|discriminate].
        injection Hrun as <- <- <-. destruct (Hcb _ _ _ eq_refl) as [Hkeys Hlen].
        rewrite bool_decide_eq_false_2 by done.
        rewrite store_cache by done. by rewrite Hkeys.
    + destruct (run_callback _ _ _ _ _) as [[[cv1 st1] log1]|] eqn:Hr; [|discriminate].
      injection Hrun as <- <- <-. by destruct (Hcb _ _ _ eq_refl) as [Hkeys _].
Qed.

Lemma drawAll_inv cs : forall st log0 st' log',
  forallb distinct_nesting cs = true -> cache_inv st ->
  drawAll cs st log0 = Some (st', log') ->
  cache_inv st' /\
  cache st' = fold_left (fun held c => specified_keys c held) cs (cache st).
Proof.
  induction cs as [|c cs IH]; intros st log0 st' log' Hwf Hinv; simpl.
  - by intros [= <- <-].
  - simpl in Hwf. apply andb_true_iff in Hwf as [Hc Hwf].
    destruct (drawFromCache c st) as [[[cv st1] pushed]|] eqn:Hrun; [|discriminate].
    intros Hrest. rewrite <- (drawFromCache_keys c _ _ _ _ Hc Hinv Hrun).
    eapply IH; [done| |exact Hrest].
    by eapply (drawFromCache_extends c).
Qed.

Lemma specified_requests_lcd f (ops : list lcd_op) held :
  specified_requests f (Lcd <$> ops) held = held.
Proof. induction ops as [|op ops IH]; [done|exact IH]. Qed.

Lemma specified_keys_leaf c k held :
  requests_key c k ->
  specified_keys c held =
  if bool_decide (k ∈ held) then held else last_n 1000 (held ++ [k]).
Proof.
  intros (section & id & w & h & ops & -> & ->).
  rewrite specified_keys_unfold. cbv zeta. by rewrite specified_requests_lcd.
Qed.

Lemma elem_of_last_n {A} (n : nat) (l : list A) x : x ∈ last_n n l -> x ∈ l.
Proof. unfold last_n. apply subseteq_drop. Qed.

Lemma specified_store_distinct cs : forall keys pre,
  Forall2 requests_key cs keys -> NoDup (pre ++ keys) ->
  fold_left (fun held c => specified_keys c held) cs (last_n 1000 pre) =
  last_n 1000 (pre ++ keys).
Proof.
  induction cs as [|c cs IH]; intros keys pre Hkeys Hnd.
  - apply Forall2_nil_inv_l in Hkeys as ->. by rewrite app_nil_r.
  - apply Forall2_cons_inv_l in Hkeys as (k & keys' & Hk & Hkeys & ->).
    simpl. rewrite (specified_keys_leaf c k _ Hk).
    assert (Hnot : k ∉ last_n 1000 pre).
    { intros Hin%elem_of_last_n. apply NoDup_app in Hnd as (_ & Hnd & _).
      apply (Hnd k Hin). by left. }
    rewrite bool_decide_eq_false_2 by done.
    rewrite last_n_app_last_n.
    rewrite (IH keys' (pre ++ [k]) Hkeys); rewrite <- (assoc_L (++)); done.
Qed.

Lemma leaf_call_at_capacity section id w h ops st oldest rest :
  cache_inv st ->
  cache st = oldest :: rest -> length (cache st) = 1000%nat ->
  section ++ js "." ++ id ∉ cache st ->
  exists cv st',
    drawFromCache (DrawFromCache section (Some id) w h (Some (Lcd <$> ops))) st =
    Some (cv, st', [section ++ js "." ++ id]) /\
    cache st' = rest ++ [section ++ js "." ++ id] /\
    cacheMap st' = <[section ++ js "." ++ id := cv]> (delete oldest (cacheMap st)).
Proof.
  intros Hinv Hc Hlen Hnot.
  rewrite drawFromCache_unfold. unfold composite, lookup_canvas.
  pose proof (lookup_held (section ++ js "." ++ id) st Hinv) as Hheld.
  destruct (cacheMap st !! _) as [cv0|]; [done|].
  rewrite run_callback_lcd. eexists _, _. split; [reflexivity|].
  apply (store_at_capacity _ _ (create_canvas w h st).2); [exact Hc| |exact Hlen].
  apply (inv_truthy _ Hinv). rewrite Hc. by left.
Qed.

Lemma session_draws_calls E fuel rs : forall st log st' log',
  session E fuel rs st log = Some (st', log') ->
  drawAll (calls_of E fuel rs) st log = Some (st', log') /\
  forallb distinct_nesting (calls_of E fuel rs) = true.
Proof.
  induction rs as [|r rs IH]; intros st log st' log'.
  - simpl. by intros [= <- <-].
  - cbn [session calls_of omap list_omap]. fold (calls_of E fuel rs). unfold perform.
    destruct (serve E fuel r) as [| |c] eqn:Hs; [discriminate| |].
    + rewrite app_nil_r. apply IH.
    + cbn [drawAll forallb].
      destruct (drawFromCache c st) as [[[cv st1] pushed]|]; [|discriminate].
      intros [H1 H2]%IH. split; [exact H1|].
      by rewrite (serve_distinct _ _ _ _ Hs).
Qed.

Lemma specified_store_inserted cs keys :
  inserted_keys cs keys -> NoDup keys /\ specified_store cs = last_n 1000 keys.
Proof.
  induction 1 as [|cs keys c k _ [Hnd IH] Hk Hnew|cs keys c k _ [Hnd IH] Hk Hold].
  - split; [constructor|done].
  - split.
    + apply NoDup_app. split_and!; [done| |apply NoDup_singleton].
      intros x Hx ->%list_elem_of_singleton. contradiction.
    + unfold specified_store in *. rewrite fold_left_app. simpl. rewrite IH.
      rewrite (specified_keys_leaf c k _ Hk).
      rewrite bool_decide_eq_false_2 by (by intros ?%elem_of_last_n).
      apply last_n_app_last_n.
  - split; [done|].
    unfold specified_store in *. rewrite fold_left_app. simpl. rewrite IH.
    rewrite (specified_keys_leaf c k _ Hk). by rewrite bool_decide_eq_true_2.
Qed.

Example inserted_with_hits :
  inserted_keys
    [DrawFromCache (js "s") (Some (js "a")) 1 1 (Some (Lcd <$> []));
     DrawFromCache (js "s") (Some (js "b")) 1 1 (Some (Lcd <$> []));
     DrawFromCache (js "s") (Some (js "a")) 1 1 (Some (Lcd <$> []))]
    [js "s.a"; js "s.b"].
Proof.
  apply (inserted_hit [_; _] [_; _] _ (js "s.a")).
  - apply (inserted_miss [_] [_] _ (js "s.b")).
    + apply (inserted_miss [] [] _ (js "s.a")).
      * constructor.
      * by eexists _, _, _, _, _.
      * by intros ?%elem_of_nil.
    + by eexists _, _, _, _, _.
    + by intros [=]%list_elem_of_singleton.
  - by eexists _, _, _, _, _.
  - vm_compute. by left.
Qed.

(** C1: after any sequence of calls of [drawFromCache] from the empty
    cache, no callback making a call under the key it runs under (as in every
    sequence of calls of the module's drawing functions, [session_draws_calls]):
    the list and the map hold at most 1000 entries; the list is the store the
    specification describes, and the map holds exactly its keys; when the calls
    are requests under pairwise distinct keys, the cache holds exactly the last
    1000 of them, so exactly 1000 entries once 1000 or more have been made,
    and the same holds of the keys inserted when requests that hit a held key
    come in between; a miss on a full cache drops the oldest key, and no
    other, before it stores the new one; and a hit returns the stored canvas
    and changes nothing, whatever the age of the entry. *)
Theorem draw_cache_bounded cs st log :
  forallb distinct_nesting cs = true ->
  drawAll cs initial_state [] = Some (st, log) ->
  ((length (cache st) <= 1000)%nat /\ (size (cacheMap st) <= 1000)%nat) /\
  (cache st = specified_store cs /\
   dom (cacheMap st) = list_to_set (specified_store cs) /\
   size (cacheMap st) = length (specified_store cs)) /\
  (forall keys,
     Forall2 requests_key cs keys -> NoDup keys ->
     cache st = last_n 1000 keys /\
     dom (cacheMap st) = list_to_set (last_n 1000 keys) /\
     ((1000 <= length keys)%nat ->
      length (cache st) = 1000%nat /\ size (cacheMap st) = 1000%nat)) /\
  (forall keys,
     inserted_keys cs keys ->
     NoDup keys /\ cache st = last_n 1000 keys /\
     dom (cacheMap st) = list_to_set (last_n 1000 keys) /\
     ((1000 <= length keys)%nat ->
      length (cache st) = 1000%nat /\ size (cacheMap st) = 1000%nat)) /\
  (forall section id w h ops oldest rest,
     cache st = oldest :: rest -> length (cache st) = 1000%nat ->
     section ++ js "." ++ id ∉ cache st ->
     exists cv st',
       drawFromCache (DrawFromCache section (Some id) w h (Some (Lcd <$> ops))) st =
       Some (cv, st', [section ++ js "." ++ id]) /\
       cache st' = rest ++ [section ++ js "." ++ id] /\
       cacheMap st' = <[section ++ js "." ++ id := cv]> (delete oldest (cacheMap st))) /\
  (forall section id w h callback cv,
     cacheMap st !! (section ++ js "." ++ id) = Some cv ->
     drawFromCache (DrawFromCache section (Some id) w h callback) st =
     Some (cv, st, [])).
Proof.
  intros Hwf Hrun.
  destruct (drawAll_inv cs _ _ _ _ Hwf initial_state_inv Hrun) as [Hinv Hc].
  change (cache st = specified_store cs) in Hc.
  destruct (inv_synchronized _ Hinv) as (_ & Hdom & Hsize).
  pose proof (inv_bound _ Hinv) as Hb. unfold MAX_DRAW_CACHE_SIZE in Hb.
  split_and!.
  - done.
  - by rewrite <- Hsize.
  - done.
  - by rewrite Hdom, Hc.
  - by rewrite <- Hsize, Hc.
  - intros keys Hkeys Hnd.
    assert (Hlast : cache st = last_n 1000 keys).
    { rewrite Hc. apply (specified_store_distinct cs keys [] Hkeys Hnd). }
    split_and!; [done|by rewrite Hdom, Hlast|].
    intros Hlen. rewrite <- Hsize, Hlast, length_last_n. lia.
  - intros keys [Hnd Hs]%specified_store_inserted.
    assert (Hlast : cache st = last_n 1000 keys) by (by rewrite Hc).
    split_and!; [done|done|by rewrite Hdom, Hlast|].
    intros Hlen. rewrite <- Hsize, Hlast, length_last_n. lia.
  - intros section id w h ops oldest rest. by apply leaf_call_at_capacity.
  - intros section id w h callback cv Hlk. by apply hit_returns_stored.
Qed.

Lemma draw_cache_bounded_witness :
  match drawAll (calls_of Sample.env 5 (Sample.texts 1001)) initial_state [] with
  | Some (st, _) =>
      cache st = specified_store (calls_of Sample.env 5 (Sample.texts 1001)) /\
      length (cache st) = 1000%nat /\
      head (cache st) = Some (js "drawText.style0font1.1.10.6.false")
  | None => False
  end.
Proof.
  destruct (drawAll (calls_of Sample.env 5 (Sample.texts 1001)) initial_state [])
    as [[st log]|] eqn:H.
  - assert (Hwf : forallb distinct_nesting
                    (calls_of Sample.env 5 (Sample.texts 1001)) = true)
      by (vm_compute; reflexivity).
    destruct (draw_cache_bounded _ st log Hwf H) as (_ & (Hc & _) & _).
    split; [exact Hc|].
    assert (Hfull : match drawAll (calls_of Sample.env 5 (Sample.texts 1001))
                            initial_state [] with
                    | Some (st, _) =>
                        Nat.eqb (length (cache st)) 1000 &&
                        bool_decide (head (cache st) =
                                     Some (js "drawText.style0font1.1.10.6.false"))
                    | None => false
                    end = true) by (vm_compute; reflexivity).
    rewrite H in Hfull. apply andb_true_iff in Hfull as [H1 H2].
    split; [by apply Nat.eqb_eq|by apply bool_decide_eq_true in H2].
  - assert (Hr : returns (drawAll (calls_of Sample.env 5 (Sample.texts 1001))
                            initial_state []) = true) by (vm_compute; reflexivity).
    rewrite H in Hr. discriminate Hr.
Defined.

(** With 1001 different texts the first key is dropped; asking for the
    first three texts again re-inserts them and drops three more. *)
Example eviction_of_the_oldest :
  match session Sample.env 5 (Sample.texts 1001 ++ Sample.texts 3) initial_state [] with
  | Some (st, log) =>
      (length (cache st), size (cacheMap st), length log, head (cache st))
  | None => (O, O, O, None)
  end = (1000%nat, 1000%nat, 1004%nat,
         Some (js "drawText.style0font1.4.10.6.false")).
Proof. vm_compute. reflexivity. Qed.

(** ** Calls with a null key *)









(** ** The cache id *)

Lemma getCacheId_plain E fuel obj :
  is_style obj = false -> getCacheId E (S fuel) obj = Some (base_id E obj).
Proof. by destruct obj. Qed.

Lemma getCacheId_style_S E fuel style :
  getCacheId E (S fuel) (AStyle style) =
  match
    match styleGetFont E style with
    | Some font => getCacheId E fuel (AFont font)
    | None => Some []
    end
  with
  | None => None
  | Some font_part =>
      match inheritFromStyle E style with
      | Some target =>
          match getCacheId E fuel (AStyle target) with
          | Some r => Some ((base_id E (AStyle style) ++ font_part) ++ js "," ++ r)
          | None => None
          end
      | None =>
          if is_default_style E style
          then Some (base_id E (AStyle style) ++ font_part)
          else
            match getCacheId E fuel (AStyle (getDefaultStyle E)) with
            | Some r => Some ((base_id E (AStyle style) ++ font_part) ++ js "," ++ r)
            | None => None
            end
      end
  end.
Proof. reflexivity. Qed.

Lemma getCacheId_more_fuel E fuel : forall obj r fuel',
  getCacheId E fuel obj = Some r -> (fuel <= fuel')%nat ->
  getCacheId E fuel' obj = Some r.
Proof.
  induction fuel as [|fuel IH]; intros obj r fuel' H Hle; [discriminate|].
  destruct fuel' as [|fuel']; [lia|]. assert (Hle' : (fuel <= fuel')%nat) by lia.
  destruct obj as [style|font|bitmap|id t]; try exact H.
  simpl in *.
  destruct (styleGetFont E style) as [font|].
  - destruct (getCacheId E fuel (AFont font)) as [fp|] eqn:Hf; [|discriminate].
    rewrite (IH _ _ _ Hf Hle').
    destruct (inheritFromStyle E style) as [target|].
    + destruct (getCacheId E fuel (AStyle target)) as [r'|] eqn:Hr; [|discriminate].
      by rewrite (IH _ _ _ Hr Hle').
    + destruct (is_default_style E style); [done|].
      destruct (getCacheId E fuel (AStyle _)) as [r'|] eqn:Hr; [|discriminate].
      by rewrite (IH _ _ _ Hr Hle').
  - destruct (inheritFromStyle E style) as [target|].
    + destruct (getCacheId E fuel (AStyle target)) as [r'|] eqn:Hr; [|discriminate].
      by rewrite (IH _ _ _ Hr Hle').
    + destruct (is_default_style E style); [done|].
      destruct (getCacheId E fuel (AStyle _)) as [r'|] eqn:Hr; [|discriminate].
      by rewrite (IH _ _ _ Hr Hle').
Qed.

Lemma truthy_str_nonempty (s : jsstring) : truthy_str s = true <-> s <> [].
Proof. destruct s; simpl; split; congruence. Qed.

Lemma styleGetFont_resolves E style f :
  styleGetFont E style = Some f <-> resolves_font E style f.
Proof.
  unfold styleGetFont, resolves_font. split.
  - destruct (font (getStyleProperty E style)) as [name|]; [|discriminate].
    destruct (truthy_str name) eqn:Ht; [|discriminate].
    intros H. exists name. split_and!; [done| |done]. by apply truthy_str_nonempty.
  - intros (name & -> & Hne%truthy_str_nonempty & Hf). by rewrite Hne.
Qed.

Lemma inheritFromStyle_inherits E style target :
  inheritFromStyle E style = Some target <-> inherits_from E style target.
Proof.
  unfold inheritFromStyle, inherits_from. split.
  - destruct (inheritFrom style) as [name|]; [|discriminate].
    destruct (truthy_str name) eqn:Ht; [|discriminate].
    intros H. exists name. split_and!; [done| |done]. by apply truthy_str_nonempty.
  - intros (name & -> & Hne%truthy_str_nonempty & Hf). by rewrite Hne.
Qed.

Lemma inheritFromStyle_none E style :
  inheritFromStyle E style = None <-> forall target, ~ inherits_from E style target.
Proof.
  split.
  - intros Hn target Ht%inheritFromStyle_inherits. congruence.
  - intros Hn. destruct (inheritFromStyle E style) as [t|] eqn:Ht; [|done].
    by apply inheritFromStyle_inherits, Hn in Ht.
Qed.

Lemma getCacheId_font_part E fuel style part :
  match styleGetFont E style with
  | Some f => getCacheId E fuel (AFont f)
  | None => Some []
  end = Some part ->
  font_part (specified_id E) E style part.
Proof.
  destruct (styleGetFont E style) as [f|] eqn:Hf.
  - destruct fuel as [|fuel]; [discriminate|]. intros [= <-].
    left. exists f. split; [by apply styleGetFont_resolves|]. apply sid_font.
  - intros [= <-]. right. split; [|done].
    intros f Hr%styleGetFont_resolves. congruence.
Qed.

Lemma getCacheId_sound E fuel : forall obj r,
  getCacheId E fuel obj = Some r -> specified_id E obj r.
Proof.
  induction fuel as [|fuel IH]; intros obj r; [discriminate|].
  destruct obj as [style|f|b|id t];
    try (intros [= <-]; constructor).
  rewrite getCacheId_style_S.
  destruct (match styleGetFont E style with
            | Some f => getCacheId E fuel (AFont f)
            | None => Some []
            end) as [fp|] eqn:Hfp; [|discriminate].
  apply getCacheId_font_part in Hfp.
  destruct (inheritFromStyle E style) as [target|] eqn:Hi.
  - destruct (getCacheId E fuel (AStyle target)) as [r'|] eqn:Hr; [|discriminate].
    intros [= <-]. rewrite <- (assoc_L (++)).
    eapply sid_inherited; [done|by apply inheritFromStyle_inherits|by apply IH].
  - pose proof (proj1 (inheritFromStyle_none E style) Hi) as Hnone.
    destruct (is_default_style E style) eqn:Hd.
    + intros [= <-]. apply sid_default; [done..|].
      by apply bool_decide_eq_true in Hd.
    + destruct (getCacheId E fuel (AStyle (getDefaultStyle E))) as [r'|] eqn:Hr;
        [|discriminate].
      intros [= <-]. rewrite <- (assoc_L (++)).
      apply sid_fallback; [done..| |by apply IH].
      by apply bool_decide_eq_false in Hd.
Qed.

Lemma font_part_complete E style part :
  font_part (specified_id E) E style part ->
  forall fuel,
    match styleGetFont E style with
    | Some f => getCacheId E (S fuel) (AFont f)
    | None => Some []
    end = Some part.
Proof.
  intros [(f & Hf%styleGetFont_resolves & Hid)|[Hnone ->]] fuel.
  - rewrite Hf. inversion Hid; subst. reflexivity.
  - destruct (styleGetFont E style) as [f|] eqn:Hf; [|done].
    by apply styleGetFont_resolves, Hnone in Hf.
Qed.

Lemma getCacheId_complete E obj r :
  specified_id E obj r ->
  exists depth, forall fuel, (depth <= fuel)%nat -> getCacheId E fuel obj = Some r.
Proof.
  induction 1 as [f|b|id t|style part target r Hfont Hin _ [d IH]
                  |style part r Hfont Hnone Hne _ [d IH]|style part Hfont Hnone He].
  - exists 1%nat. intros [|fuel] Hle; [lia|reflexivity].
  - exists 1%nat. intros [|fuel] Hle; [lia|reflexivity].
  - exists 1%nat. intros [|fuel] Hle; [lia|reflexivity].
  - exists (S (S d)). intros [|[|fuel]] Hle; [lia..|].
    rewrite getCacheId_style_S, (font_part_complete _ _ _ Hfont).
    apply inheritFromStyle_inherits in Hin. rewrite Hin.
    rewrite IH by lia. by rewrite <- (assoc_L (++)).
  - exists (S (S d)). intros [|[|fuel]] Hle; [lia..|].
    rewrite getCacheId_style_S, (font_part_complete _ _ _ Hfont).
    rewrite (proj2 (inheritFromStyle_none E style) Hnone).
    unfold is_default_style. rewrite bool_decide_eq_false_2 by done.
    rewrite IH by lia. by rewrite <- (assoc_L (++)).
  - exists 2%nat. intros [|[|fuel]] Hle; [lia..|].
    rewrite getCacheId_style_S, (font_part_complete _ _ _ Hfont).
    rewrite (proj2 (inheritFromStyle_none E style) Hnone).
    unfold is_default_style. by rewrite bool_decide_eq_true_2.
Qed.

Lemma font_part_exists E style : exists part, font_part (specified_id E) E style part.
Proof.
  destruct (styleGetFont E style) as [f|] eqn:Hf.
  - eexists. left. exists f. split; [by apply styleGetFont_resolves|apply sid_font].
  - exists []. right. split; [|done]. intros f Hr%styleGetFont_resolves. congruence.
Qed.

Lemma chain_ends_specified E style :
  chain_ends E style -> exists r, specified_id E (AStyle style) r.
Proof.
  induction 1 as [style Hnone He|style target Hin _ [r IH]|style Hnone Hne _ [r IH]];
    destruct (font_part_exists E style) as [part Hpart]; eexists.
  - by apply sid_default.
  - by eapply sid_inherited.
  - by eapply sid_fallback.
Qed.

Lemma specified_chain_ends E obj r :
  specified_id E obj r -> forall style, obj = AStyle style -> chain_ends E style.
Proof.
  induction 1 as [f|b|id t|style part target r Hfont Hin _ IH
                  |style part r Hfont Hnone Hne _ IH|style part Hfont Hnone He];
    intros s [= <-].
  - eapply ends_after_inherited; [done|]. by apply IH.
  - apply ends_after_default; [done..|]. by apply IH.
  - by apply ends_here.
Qed.

(** C2, as amended: every value [getCacheId] returns is the cache id the
    specification describes: the identifier, with ["-"] and the timestamp when
    there is one, extended for a style with the cache id of the font that
    resolves and then, after a comma, with the cache id of the style found
    under [inheritFrom] or, failing that and unless the style is the default
    one, of the default style.  That id is unique, and [getCacheId] returns it
    at every sufficient depth of recursion.  On an entity that is no style it
    always returns; on a style it returns exactly when the chain of styles the
    id follows ends. *)
Theorem getCacheId_is_the_specified_id E obj :
  (forall fuel r, getCacheId E fuel obj = Some r -> specified_id E obj r) /\
  (forall r, specified_id E obj r ->
     exists depth, forall fuel, (depth <= fuel)%nat -> getCacheId E fuel obj = Some r) /\
  (forall r r', specified_id E obj r -> specified_id E obj r' -> r = r') /\
  (forall style, obj = AStyle style ->
     (exists fuel r, getCacheId E fuel obj = Some r) <-> chain_ends E style) /\
  (is_style obj = false ->
   forall fuel,
     getCacheId E (S fuel) obj =
     Some (stamped_id E (obj_id obj) (obj_modificationTime obj))).
Proof.
  split_and!.
  - intros fuel r. apply getCacheId_sound.
  - intros r. apply getCacheId_complete.
  - intros r r' [d Hr]%getCacheId_complete [d' Hr']%getCacheId_complete.
    specialize (Hr (d + d')%nat ltac:(lia)). specialize (Hr' (d + d')%nat ltac:(lia)).
    congruence.
  - intros style ->. split.
    + intros (fuel & r & Hr%getCacheId_sound). by eapply specified_chain_ends.
    + intros [r [d Hr]%getCacheId_complete]%chain_ends_specified. eauto.
  - intros Hs fuel. by destruct obj.
Qed.

Lemma getCacheId_is_the_specified_id_witness :
  specified_id Sample.env (AStyle Sample.title_style)
    (js "style1-1700font1,style0font1").
Proof.
  apply (proj1 (getCacheId_is_the_specified_id Sample.env (AStyle Sample.title_style))
           5%nat).
  vm_compute. reflexivity.
Defined.

(** C2, as stated, fails: in a project whose default style inherits from a
    style that has no [inheritFrom], every [inheritFrom] chain has at most one
    step, and [getCacheId] returns on neither of the two styles: the style
    falls back to the default style, which inherits from it. *)
Lemma getCacheId_can_recurse_for_ever :
  (forall style target, inherits_from Fallback.env style target ->
     forall further, ~ inherits_from Fallback.env target further) /\
  (forall fuel, getCacheId Fallback.env fuel (AStyle Fallback.base_style) = None) /\
  (forall fuel, getCacheId Fallback.env fuel (AStyle Fallback.default_style) = None).
Proof.
  split.
  - intros style target (name & _ & _ & Hfind) further (name' & Hin & _).
    simpl in Hfind. destruct (decide (name = js "base")); [|discriminate].
    injection Hfind as <-. discriminate Hin.
  - assert (H : forall fuel,
               getCacheId Fallback.env fuel (AStyle Fallback.base_style) = None /\
               getCacheId Fallback.env fuel (AStyle Fallback.default_style) = None).
    { induction fuel as [|fuel [IHb IHd]]; [done|]. split.
      - rewrite getCacheId_style_S.
        change (inheritFromStyle Fallback.env Fallback.base_style) with (@None Style).
        change (is_default_style Fallback.env Fallback.base_style) with false.
        change (getDefaultStyle Fallback.env) with Fallback.default_style.
        rewrite IHd.
        destruct (match styleGetFont _ _ with Some _ => _ | None => _ end); reflexivity.
      - rewrite getCacheId_style_S.
        change (inheritFromStyle Fallback.env Fallback.default_style)
          with (Some Fallback.base_style).
        cbv beta iota. rewrite IHb.
        destruct (match styleGetFont _ _ with Some _ => _ | None => _ end); reflexivity. }
    split; intros fuel; apply H.
Qed.

Example getCacheId_of_a_style :
  getCacheId Sample.env 5 (AStyle Sample.title_style) =
  Some (js "style1-1700font1,style0font1").
Proof. vm_compute. reflexivity. Qed.

(** A style that inherits from itself: [getCacheId] never returns. *)
Example getCacheId_loops fuel :
  getCacheId Sample.looping_env fuel (AStyle Sample.looping_style) = None.
Proof.
  induction fuel as [|fuel IH]; [done|].
  rewrite getCacheId_style_S.
  change (inheritFromStyle Sample.looping_env Sample.looping_style)
    with (Some Sample.looping_style).
  destruct (match styleGetFont _ _ with Some _ => _ | None => _ end); [|done].
  cbv beta iota. by rewrite IH.
Qed.

(** ** The shared geometry rule *)

Lemma zn_inj a b : zn a = zn b -> a = b.
Proof. by intros [= ->]. Qed.

Lemma border_step_specified E style w h :
  0 <= or_zero (styleGetBorderSize E style) ->
  0 <= or_zero (styleGetBorderRadius E style) ->
  border_step E style w h = (specified_border E style w h, specified_inset E style w h).
Proof.
  intros HB HR. unfold border_step, specified_border, specified_inset, fill_box. simpl.
  destruct (0 <? or_zero (styleGetBorderSize E style)) eqn:Hpos.
  - do 3 f_equal.
  - apply Z.ltb_ge in Hpos.
    assert (HB0 : or_zero (styleGetBorderSize E style) = 0) by lia.
    rewrite HB0. f_equal. f_equal; lia.
Qed.

Lemma fill_box_within E style w h rounded :
  let B := or_zero (styleGetBorderSize E style) in
  2 * B < w -> 2 * B < h ->
  within B (w - B) B (h - B) (fill_box (specified_inset E style w h) rounded).
Proof.
  simpl. intros Hw Hh. eexists _, _, _, _.
  split_and!; try reflexivity; simpl; lia.
Qed.

Lemma bitmap_placed_within (a pad size lo hi : Z) (left right : bool) :
  0 <= pad -> size + pad <= hi - lo ->
  let offset := if left then lo + pad
                else if right then hi - pad - size
                else lo + (hi - lo - size) / 2 in
  lo <= offset /\ offset + size - 1 <= hi.
Proof.
  intros Hpad Hfit. simpl. destruct left; [lia|]. destruct right; [lia|].
  assert (0 <= (hi - lo - size) / 2) by (apply Z.div_pos; lia).
  assert ((hi - lo - size) / 2 <= hi - lo - size)
    by (apply Z.div_le_upper_bound; lia).
  lia.
Qed.

(** C4, as amended: for a border size B >= 0 and a radius R >= 0, the
    callbacks of [drawText], [drawMultilineText] and [drawBitmap] first paint,
    when B > 0, the border colour on the full rectangle with radius R, then
    work in the rectangle inset by B on the four sides with radius
    max(R - B, 0), and fill it with the background, a fill that lies in
    [B, W-B) x [B, H-B) when 2B < W and 2B < H.  The content is placed relative
    to the inset rectangle and is not clipped to it: the fills and the image
    of [drawBitmap] stay inside it when the image has pixels, the paddings are
    not negative and the image with the paddings leaves room; they never do
    when the image is wider or taller than the inset rectangle. *)
Theorem border_inset_rule E style w h :
  0 <= or_zero (styleGetBorderSize E style) ->
  0 <= or_zero (styleGetBorderRadius E style) ->
  let B := or_zero (styleGetBorderSize E style) in
  let border := specified_border E style w h in
  let inset := specified_inset E style w h in
  border_step E style w h = (border, inset) /\
  (2 * B < w -> 2 * B < h ->
   forall rounded, within B (w - B) B (h - B) (fill_box inset rounded)) /\
  (forall text inverse o, exists c rest,
     drawText_callback E text w h style inverse o =
     border ++ [setColor c; fill_box inset true] ++ rest) /\
  (forall fuel text inverse ops,
     drawMultilineText_callback E fuel text w h style inverse = Some ops ->
     exists c rest, ops = border ++ [setColor c; fill_box inset true] ++ rest) /\
  (forall bitmap image inverse, exists c rest,
     drawBitmap_callback E bitmap image w h style inverse =
     border ++ [setColor c; fill_box inset true] ++ rest /\
     (bitmap_fits E style w h image -> Forall (within B (w - B) B (h - B)) rest) /\
     (Forall (within B (w - B) B (h - B)) rest ->
      0 < img_width image <= w - 2 * B /\ 0 < img_height image <= h - 2 * B)).
Proof.
  intros HB HR B border inset.
  pose proof (border_step_specified E style w h HB HR) as Hstep.
  split_and!.
  - exact Hstep.
  - intros Hw Hh rounded. by apply fill_box_within.
  - intros text inverse o. unfold drawText_callback. rewrite Hstep. eauto.
  - intros fuel text inverse ops. unfold drawMultilineText_callback. rewrite Hstep.
    destruct (styleGetFont E style) as [font|].
    + destruct (drawMultilineText_body _ _ _ _ _ _ _) as [body|]; [|discriminate].
      intros [= <-]. eexists _, body. by rewrite <- (assoc_L (++)).
    + intros [= <-]. eexists _, []. by rewrite app_nil_r.
  - intros bitmap image inverse. unfold drawBitmap_callback. rewrite Hstep.
    eexists _, _. split; [reflexivity|]. split.
    + intros (Hiw & Hih & Hph & Hpv & Hfw & Hfh).
      fold B in Hfw, Hfh.
      pose proof (bitmap_placed_within 0 (paddingHorizontal (getStyleProperty E style))
                    (img_width image) B (w - 1 - B)
                    (styleIsHorzAlignLeft E style) (styleIsHorzAlignRight E style)
                    Hph ltac:(lia)) as [Hx1 Hx2].
      pose proof (bitmap_placed_within 0 (paddingVertical (getStyleProperty E style))
                    (img_height image) B (h - 1 - B)
                    (styleIsVertAlignTop E style) (styleIsVertAlignBottom E style)
                    Hpv ltac:(lia)) as [Hy1 Hy2].
      simpl in Hx1, Hx2, Hy1, Hy2.
      clear Hstep. subst B border inset.
      apply Forall_cons. split; [exact I|].
      apply Forall_cons. split; [apply fill_box_within; lia|].
      apply Forall_app. split.
      { unfold text_colors. destruct inverse; repeat constructor. }
      apply Forall_cons. split; [exact I|].
      apply Forall_cons. split.
      { cbn [within]. eexists _, _, _, _.
        split_and!; [reflexivity..| | | | | |];
          cbn [box_x1 box_x2 box_y1 box_y2 specified_inset]; lia. }
      apply Forall_cons. split; [|apply Forall_nil; exact I].
      cbn [within]. eexists _, _, _, _.
      split_and!; [reflexivity..| | | | | |];
        cbn [box_x1 box_x2 box_y1 box_y2 specified_inset]; lia.
    + clear Hstep. subst B border inset. intros Hall.
      apply Forall_cons in Hall as [_ Hall].
      apply Forall_cons in Hall as [_ Hall].
      apply Forall_app in Hall as [_ Hall].
      apply Forall_cons in Hall as [_ Hall].
      apply Forall_cons in Hall as [_ Hall].
      apply Forall_cons in Hall as [Himg _].
      cbn [within] in Himg.
      destruct Himg as (x & y & iw & ih & _ & _ & Hw%zn_inj & Hh%zn_inj & Himg).
      subst iw ih. lia.
Qed.

Lemma border_inset_rule_witness :
  border_step Sample.env Sample.default_style 10 6 =
  (specified_border Sample.env Sample.default_style 10 6,
   specified_inset Sample.env Sample.default_style 10 6).
Proof.
  apply (border_inset_rule Sample.env Sample.default_style 10 6);
    vm_compute; discriminate.
Defined.

(** C4, as stated, fails: with a border of 1 on a 10 by 10 bitmap, the
    callback of [drawBitmap] for a 20 by 20 image fills the rectangle from
    (-6, -6) to (13, 13) after the border step, which is not inside
    [1, 9) x [1, 9). *)
Lemma content_can_leave_the_inset_rectangle :
  or_zero (styleGetBorderSize Sample.env Sample.default_style) = 1 /\
  exists rest,
    drawBitmap_callback Sample.env Sample.big_bitmap Sample.big_image 10 10
      Sample.default_style false =
    specified_border Sample.env Sample.default_style 10 10 ++ rest /\
    fillRect (zn (-6)) (zn (-6)) (zn 13) (zn 13) None ∈ rest /\
    ~ within 1 9 1 9 (fillRect (zn (-6)) (zn (-6)) (zn 13) (zn 13) None).
Proof.
  split; [reflexivity|]. eexists. split; [vm_compute; reflexivity|]. split.
  - do 7 (apply elem_of_cons; right). apply elem_of_cons. by left.
  - intros (x1 & y1 & x2 & y2 & Hx1 & _ & _ & _ & _ & _ & Hlo & _).
    apply zn_inj in Hx1. lia.
Qed.

(** ** The fill of the inset rectangle *)

(** C5, as amended: after the border step, [drawText], [drawMultilineText]
    and [drawBitmap] fill the inset rectangle with the background colour of
    the style when [inverse] is false and with its colour when [inverse] is
    true, [drawText] taking [overrideBackgroundColor], when given, for the
    background; [drawRectangle] does the opposite: it fills with the colour
    of the style when [inverse] is false and with its background colour when
    [inverse] is true. *)
Theorem fill_colour_rule E style w h inverse :
  let sp := getStyleProperty E style in
  let border := (border_step E style w h).1 in
  let b := (border_step E style w h).2 in
  (forall text o, exists rest,
     drawText_callback E text w h style inverse o =
     border ++
     [setColor (if inverse then color sp
                else match o with Some c => Some c | None => backgroundColor sp end);
      fill_box b true] ++ rest) /\
  (forall fuel text ops,
     drawMultilineText_callback E fuel text w h style inverse = Some ops ->
     exists rest,
       ops = border ++
             [setColor (if inverse then color sp else backgroundColor sp);
              fill_box b true] ++ rest) /\
  (forall bitmap image, exists rest,
     drawBitmap_callback E bitmap image w h style inverse =
     border ++
     [setColor (if inverse then color sp else backgroundColor sp);
      fill_box b true] ++ rest) /\
  drawRectangle_callback E w h style inverse =
  border ++
  [setColor (if inverse then backgroundColor sp else color sp); fill_box b true].
Proof.
  intros sp border b. subst border b.
  destruct (border_step E style w h) as [border b] eqn:Hstep. simpl.
  split_and!.
  - intros text o. unfold drawText_callback. rewrite Hstep. eauto.
  - intros fuel text ops. unfold drawMultilineText_callback. rewrite Hstep.
    destruct (styleGetFont E style) as [font|].
    + destruct (drawMultilineText_body _ _ _ _ _ _ _) as [body|]; [|discriminate].
      intros [= <-]. exists body. by rewrite <- (assoc_L (++)).
    + intros [= <-]. exists []. reflexivity.
  - intros bitmap image. unfold drawBitmap_callback. rewrite Hstep.
    eexists. reflexivity.
  - unfold drawRectangle_callback. by rewrite Hstep.
Qed.

(** C5, as stated, fails for [drawRectangle]: with [inverse] false it fills
    the inset rectangle with the colour of the style, not with its
    background colour. *)
Lemma drawRectangle_fills_with_the_colour :
  color (getStyleProperty Sample.env Sample.default_style) = Some (js "black") /\
  backgroundColor (getStyleProperty Sample.env Sample.default_style)
    = Some (js "white") /\
  drawRectangle_callback Sample.env 10 6 Sample.default_style false =
  [setColor (Some (js "gray"));
   fillRect (zn 0) (zn 0) (zn 9) (zn 5) (Some (zn 3));
   setColor (Some (js "black"));
   fillRect (zn 1) (zn 1) (zn 8) (zn 4) (Some (zn 2))] /\
  setColor (Some (js "white")) ∉
    drawRectangle_callback Sample.env 10 6 Sample.default_style false.
Proof.
  split_and!; try reflexivity.
  intros Hin. repeat (apply elem_of_cons in Hin as [Hin|Hin]; [discriminate Hin|]).
  by apply elem_of_nil in Hin.
Qed.

(** ** The scale widget *)

Lemma nlt_zn a b : nlt (zn a) (zn b) = (a <? b).
Proof.
  unfold nlt, zn. destruct (a <? b) eqn:H.
  - apply negb_true_iff. apply not_true_is_false. rewrite Qle_bool_iff.
    rewrite <- Zle_Qle. apply Z.ltb_lt in H. lia.
  - apply negb_false_iff. rewrite Qle_bool_iff. rewrite <- Zle_Qle.
    apply Z.ltb_ge in H. lia.
Qed.

Lemma nadd_zn a b : nadd (zn a) (zn b) = zn (a + b).
Proof. unfold nadd, zn, inject_Z, Qplus. simpl. do 2 f_equal. lia. Qed.


Lemma neq_zn a b : neq (zn a) (zn b) = (a =? b).
Proof. unfold neq, zn, inject_Z, Qeq_bool. simpl. by rewrite !Z.mul_1_r. Qed.

Lemma nle_zn a b : nle (zn a) (zn b) = (a <=? b).
Proof.
  unfold nle. rewrite nlt_zn, neq_zn.
  destruct (a <? b) eqn:H1, (a =? b) eqn:H2, (a <=? b) eqn:H3; try reflexivity;
    rewrite ?Z.ltb_lt, ?Z.ltb_ge, ?Z.eqb_eq, ?Z.eqb_neq, ?Z.leb_le, ?Z.leb_gt in *; lia.
Qed.


Lemma for_range_exact E (hi : Z) (n : nat) : forall a,
  (forall z, a <= z <= hi -> increment E (zn z) = zn (z + 1)) ->
  (Z.to_nat (hi - a + 1) < n)%nat ->
  for_range E n (zn a) (zn hi) = Some (zn <$> seqZ a (hi - a + 1)).
Proof.
  induction n as [|n IH]; intros a Hinc Hn; [lia|].
  simpl. rewrite nle_zn. destruct (a <=? hi) eqn:Hle.
  - apply Z.leb_le in Hle. rewrite (Hinc a) by lia.
    rewrite IH; [|intros z Hz; apply Hinc; lia|lia].
    rewrite (seqZ_cons a) by lia.
    replace (Z.succ a) with (a + 1) by lia.
    by replace (Z.pred (hi - a + 1)) with (hi - (a + 1) + 1) by lia.
  - apply Z.leb_gt in Hle. by rewrite seqZ_nil by lia.
Qed.

Lemma for_range_more_fuel E n : forall m y y_to ys,
  for_range E n y y_to = Some ys -> (n <= m)%nat -> for_range E m y y_to = Some ys.
Proof.
  induction n as [|n IH]; intros m y y_to ys; [discriminate|].
  destruct m as [|m]; [lia|]. simpl. intros H Hle.
  destruct (nle y y_to); [|done].
  destruct (for_range E n (increment E y) y_to) as [ys'|] eqn:Hr; [|discriminate].
  by rewrite (IH m _ _ _ Hr) by lia.
Qed.

Lemma for_range_stuck E y y_to :
  increment E y = y -> nle y y_to = true -> forall n, for_range E n y y_to = None.
Proof.
  intros Hinc Hle n. induction n as [|n IH]; [done|].
  simpl. by rewrite Hle, Hinc, IH.
Qed.

Lemma nround_zero_times q : nround (nmul (zn 0) (Num q)) = zn 0.
Proof.
  unfold nround, nmul, zn. do 2 f_equal.
  transitivity (Qfloor (1 # 2)); [|reflexivity].
  apply Qfloor_comp. ring.
Qed.

Lemma drawScaleWidget_args_parts E scaleWidget rect :
  let '(y_from, y_to, y_min, y_max, y_value, f, _) :=
    drawScaleWidget_args E scaleWidget rect in
  y_value = nround (nmul (zn 0) f) /\
  y_from = nsub y_min (zn (needle_size scaleWidget / 2)) /\
  y_to = nadd y_max (zn (needle_size scaleWidget / 2)) /\
  y_min = nround (nmul (bound_or_zero (scale_data scaleWidget) (data_getMin E)) f) /\
  y_max = nround (nmul (bound_or_zero (scale_data scaleWidget) (data_getMax E)) f).
Proof.
  unfold drawScaleWidget_args, needle_size.
  destruct (nlt (zn 10) _); split_and!; reflexivity.
Qed.

Lemma drawScaleWidget_callback_rows E scaleWidget rect :
  let '(y_from, y_to, y_min, y_max, y_value, _, _) :=
    drawScaleWidget_args E scaleWidget rect in
  let style := scale_style scaleWidget in
  let vertical := is_vertical scaleWidget in
  let flip := is_flip scaleWidget in
  exists x1 l1 x2 l2 s y_offset,
    forall fuel,
      drawScaleWidget_callback E fuel scaleWidget rect =
      match for_range E fuel y_from y_to with
      | Some ys =>
          Some ([setColor (backgroundColor (getStyleProperty E style));
                 fillRect (zn 0) (zn 0) (zn (rect_width rect - 1))
                   (zn (rect_height rect - 1)) None] ++
                flat_map
                  (fun y_i =>
                     let y := if vertical then nsub y_offset y_i
                              else nadd y_offset y_i in
                     tick_row E style vertical flip x1 l1 s y_min y_max y_i y ++
                     thumb_row E style vertical flip (needle_size scaleWidget)
                       x2 l2 y_value y_i y)
                  ys)
      | None => None
      end.
Proof.
  unfold drawScaleWidget_callback, needle_size.
  destruct (drawScaleWidget_args E scaleWidget rect)
    as [[[[[[y_from y_to] y_min] y_max] y_value] f] d].
  unfold drawScale.
  destruct (is_vertical scaleWidget), (is_flip scaleWidget);
    eexists _, _, _, _, _, _; intros fuel;
    destruct (for_range E fuel y_from y_to); reflexivity.
Qed.







Lemma sample_increment_exact : exact_increment Sample.env.
Proof. intros z _. apply nadd_zn. Qed.

(** C6, as amended: [drawScaleWidget] never reads the value bound to the
    widget: it gives [drawScale] the scale position of the value 0, which is
    position 0 whenever the pixel-per-unit factor is finite.  The loop visits
    the positions from [y_min] less half the needle size to [y_max] plus half
    the needle size (one by one, when they are whole numbers that binary64
    steps through exactly), and the callback draws, after the background, the
    ticks and the thumb part of each visited position in turn: positions
    within half the needle size of the position of 0 carry the thumb, the
    longest line at the position itself, and the others are erased.  The scale
    is vertical iff [needlePosition] is "left" or "right" and flipped iff it is
    "left" or "top". *)
Theorem scale_thumb_rule E scaleWidget rect :
  (is_vertical scaleWidget = true <->
   needlePosition scaleWidget = Some (js "left") \/
   needlePosition scaleWidget = Some (js "right")) /\
  (is_flip scaleWidget = true <->
   needlePosition scaleWidget = Some (js "left") \/
   needlePosition scaleWidget = Some (js "top")) /\
  (forall g fuel, drawScaleWidget (with_data_get E g) fuel scaleWidget rect =
                  drawScaleWidget E fuel scaleWidget rect) /\
  (let '(y_from, y_to, y_min, y_max, y_value, f, _) :=
     drawScaleWidget_args E scaleWidget rect in
   let style := scale_style scaleWidget in
   let vertical := is_vertical scaleWidget in
   let flip := is_flip scaleWidget in
   let half := needle_size scaleWidget / 2 in
   (y_value = nround (nmul (zn 0) f) /\ (forall q, f = Num q -> y_value = zn 0)) /\
   (y_from = nsub y_min (zn half) /\ y_to = nadd y_max (zn half)) /\
   (exists x1 l1 x2 l2 s y_offset,
      forall fuel,
        drawScaleWidget_callback E fuel scaleWidget rect =
        match for_range E fuel y_from y_to with
        | Some ys =>
            Some ([setColor (backgroundColor (getStyleProperty E style));
                   fillRect (zn 0) (zn 0) (zn (rect_width rect - 1))
                     (zn (rect_height rect - 1)) None] ++
                  flat_map
                    (fun y_i =>
                       let y := if vertical then nsub y_offset y_i
                                else nadd y_offset y_i in
                       tick_row E style vertical flip x1 l1 s y_min y_max y_i y ++
                       thumb_row E style vertical flip (needle_size scaleWidget)
                         x2 l2 y_value y_i y)
                    ys)
        | None => None
        end) /\
   (exact_increment E ->
    forall a b fuel,
      y_from = zn a -> y_to = zn b ->
      - safe_integer_bound <= a -> b < safe_integer_bound ->
      (Z.to_nat (b - a + 1) < fuel)%nat ->
      for_range E fuel y_from y_to = Some (zn <$> seqZ a (b - a + 1)))) /\
  (forall style vertical flip needleSize x2 l2 y_value y_i y,
     let sp := getStyleProperty E style in
     let d := nabs (nsub y_i y_value) in
     (nle d (zn (needleSize / 2)) = true ->
      exists rest,
        thumb_row E style vertical flip needleSize x2 l2 y_value y_i y =
        setColor (color sp) ::
        scale_line vertical (if flip then x2 else nadd x2 d) y (nsub l2 d) :: rest) /\
     (nle d (zn (needleSize / 2)) = false ->
      thumb_row E style vertical flip needleSize x2 l2 y_value y_i y =
      [setColor (backgroundColor sp); scale_line vertical x2 y l2])).
Proof.
  split_and!.
  - unfold is_vertical. rewrite orb_true_iff, !bool_decide_eq_true. done.
  - unfold is_flip. rewrite orb_true_iff, !bool_decide_eq_true. done.
  - intros g fuel. reflexivity.
  - pose proof (drawScaleWidget_args_parts E scaleWidget rect) as Hparts.
    pose proof (drawScaleWidget_callback_rows E scaleWidget rect) as Hrows.
    destruct (drawScaleWidget_args E scaleWidget rect)
      as [[[[[[y_from y_to] y_min] y_max] y_value] f] d].
    destruct Hparts as (Hv & Hfrom & Hto & _). cbv zeta in Hrows |- *.
    split_and!; [exact Hv| |exact Hfrom|exact Hto|exact Hrows|].
    + intros q ->. rewrite Hv. apply nround_zero_times.
    + intros Hinc a b fuel -> -> Ha Hb Hfuel. apply for_range_exact; [|lia].
      intros z Hz. apply Hinc. lia.
  - intros style vertical flip needleSize x2 l2 y_value y_i y sp d. split.
    + intros Hd. unfold thumb_row. fold sp d. rewrite Hd.
      destruct flip; eexists; reflexivity.
    + intros Hd. unfold thumb_row. fold sp d. by rewrite Hd.
Qed.

Lemma scale_thumb_rule_witness :
  for_range Sample.env 200 (zn (-2)) (zn 92) = Some (zn <$> seqZ (-2) (92 - -2 + 1)).
Proof.
  pose proof (scale_thumb_rule Sample.env Sample.scale Sample.rect)
    as (_ & _ & _ & H & _).
  assert (Hb : scale_loop_bounds Sample.env Sample.scale Sample.rect = (zn (-2), zn 92))
    by (vm_compute; reflexivity).
  unfold scale_loop_bounds in Hb.
  destruct (drawScaleWidget_args Sample.env Sample.scale Sample.rect)
    as [[[[[[y_from y_to] y_min] y_max] y_value] f] d].
  injection Hb as -> ->. destruct H as (_ & _ & _ & H).
  apply (H sample_increment_exact (-2) 92 200%nat eq_refl eq_refl);
    unfold safe_integer_bound; lia.
Defined.

(** C6, as stated, fails: the data item bound to the sample scale has the
    value 5, which the factor 9 puts at position 45, column 50 of the bitmap;
    the thumb is placed at position 0: the lines drawn in its colour are at the
    columns 3 to 7, around column 5. *)
Lemma thumb_ignores_the_bound_value :
  data_get Sample.env (js "speed") = Some (js "5") /\
  (let '(_, _, _, _, y_value, f, _) :=
     drawScaleWidget_args Sample.env Sample.scale Sample.rect in
   (y_value, neq f (zn 9), nround (nmul (parseFloat Sample.env (js "5")) f)))
  = (zn 0, true, zn 45) /\
  match drawScaleWidget_callback Sample.env 200 Sample.scale Sample.rect with
  | Some ops => drawn_in (Some (js "black")) ops
  | None => []
  end = [drawVLine (zn 3) (zn 18) (zn 2); drawVLine (zn 4) (zn 17) (zn 3);
         drawVLine (zn 5) (zn 16) (zn 4); drawVLine (zn 6) (zn 17) (zn 3);
         drawVLine (zn 7) (zn 18) (zn 2)].
Proof. split; [reflexivity|]. split; vm_compute; reflexivity. Qed.

(** With a minimum of 5 and a maximum of 10 the loop visits the positions
    43 to 92, none of them within half the needle of position 0: nothing is
    drawn in the colour of the thumb. *)
Example scale_without_a_thumb :
  scale_loop_bounds Gauge.env Sample.scale Sample.rect = (zn 43, zn 92) /\
  match drawScaleWidget_callback Gauge.env 200 Sample.scale Sample.rect with
  | Some ops => Some (drawn_in (Some (js "black")) ops)
  | None => None
  end = Some [].
Proof. split; vm_compute; reflexivity. Qed.

(** ** The bar graph *)

(** The position [calcPos] gives when [max - min] is not zero: the value
    times [d] over [max - min], rounded, then clamped into [0, d]; [min] is
    not subtracted from the value. *)
Lemma calcPos_finite (mn mx v : Q) (d : Z) :
  ~ (mx - mn == 0)%Q ->
  calcPos (Num mn) (Num mx) d (Num v) =
  zn (Z.min d (Z.max 0 (Qfloor (v * inject_Z d / (mx + - mn) + (1 # 2))))).
Proof.
  intros Hne. unfold calcPos.
  change (nmul (Num v) (zn d)) with (Num (v * inject_Z d)).
  change (nsub (Num mx) (Num mn)) with (Num (mx + - mn)).
  assert (Hb : Qeq_bool (mx + - mn) 0 = false).
  { apply not_true_is_false. rewrite Qeq_bool_iff. exact Hne. }
  unfold ndiv. rewrite Hb.
  change (nround (Num ?a)) with (zn (Qfloor (a + (1 # 2)))).
  set (p := Qfloor _).
  rewrite nlt_zn. destruct (p <? 0) eqn:Hp0.
  - rewrite nlt_zn. apply Z.ltb_lt in Hp0.
    destruct (d <? 0) eqn:Hd; f_equal; [apply Z.ltb_lt in Hd|apply Z.ltb_ge in Hd]; lia.
  - rewrite nlt_zn. apply Z.ltb_ge in Hp0.
    destruct (d <? p) eqn:Hd; f_equal; [apply Z.ltb_lt in Hd|apply Z.ltb_ge in Hd]; lia.
Qed.

(** C7 on the code: with min = 10, max = 110 and the value 10 on a bar 100
    pixels long, the position is 10; the value normalized against
    [min, max] is 0. *)
Example bar_position_ignores_min :
  drawBarGraphWidget_args Sample.env Sample.barGraph Sample.rect =
    (zn 10, zn 110, js "10", zn 10, 100) /\
  drawBarGraphWidget_pos Sample.env Sample.barGraph Sample.rect = zn 10 /\
  calcPos (zn 10) (zn 110) 100 (zn 10) = zn 10.
Proof. split_and!; vm_compute; reflexivity. Qed.

(** With [max = min] and the value 0 the position is [NaN], which neither
    clamp catches. *)
Example bar_position_of_an_empty_interval (d : Z) :
  calcPos (zn 0) (zn 0) d (zn 0) = NaN.
Proof.
  unfold calcPos, zn, nmul, nsub, nadd, nneg, ndiv.
  change (Qeq_bool (0 + - 0) 0) with true. cbv beta iota.
  assert (H : inf_of_sign (inject_Z 0 * inject_Z d) = NaN).
  { unfold inf_of_sign, Qsign. 
    assert (Hc : (0 ?= inject_Z 0 * inject_Z d)%Q = Eq) by (apply Qeq_alt; ring).
    by rewrite Hc. }
  rewrite H. reflexivity.
Qed.

(** The example of the specification: min = 0, max = 100, value = 150. *)
Lemma bar_position_of_150_percent (d : Z) :
  0 <= d -> calcPos (zn 0) (zn 100) d (zn 150) = zn d.
Proof.
  intros Hd. unfold zn at 1 2 3. rewrite calcPos_finite by done.
  f_equal.
  assert (d <= Qfloor (inject_Z 150 * inject_Z d / (inject_Z 100 + - inject_Z 0) + (1 # 2))).
  { rewrite <- (Qfloor_Z d) at 1. apply Qfloor_resp_le.
    assert (Heq : (inject_Z 150 * inject_Z d / (inject_Z 100 + - inject_Z 0) + (1 # 2)
                   == (3 # 2) * inject_Z d + (1 # 2))%Q) by (field; discriminate).
    rewrite Heq. unfold Qle. cbn. lia. }
  lia.
Qed.

(** ** Text that is not a JSON string *)

Lemma text_colors_no_text inverse c1 c2 t x y f :
  drawStr t x y f ∉ text_colors inverse c1 c2.
Proof.
  unfold text_colors. destruct inverse; intros Hin;
    repeat (apply elem_of_cons in Hin as [Hin|Hin]; [discriminate Hin|]);
    by apply elem_of_nil in Hin.
Qed.


















Example unescape_examples :
  unescape (js "a\nb") = [97; 10; 98]%N /\
  unescape (js "tab\tA") = js "tab" ++ [9; 65]%N /\
  unescape (js "a\qb") = js "a\qb" /\
  unescape (js "half\") = js "half\" /\
  unescape (js "say " ++ [34%N] ++ js "hi") = js "say " ++ [34%N] ++ js "hi" /\
  unescape [97; 10; 98]%N = [97; 10; 98]%N.
Proof. split_and!; reflexivity. Qed.

(** ** [ScpiEnumMember.check] *)

Lemma scan_indices this arr : forall i ti oi ti' oi',
  Scpi.scan this arr i ti oi = (ti', oi') ->
  (ti' = ti \/
   exists k t, ti' = i + Z.of_nat k /\ arr !! k = Some t /\
               Scpi.same_object t this = true) /\
  (oi' = oi \/
   exists k m, oi' = i + Z.of_nat k /\ arr !! k = Some m /\
               Scpi.same_object m this = false /\ Scpi.name m = Scpi.name this).
Proof.
  induction arr as [|a arr IH]; intros i ti oi ti' oi'; simpl.
  - intros [= <- <-]. by split; left.
  - assert (Hshift : forall k, i + 1 + Z.of_nat k = i + Z.of_nat (S k)) by lia.
    destruct (Scpi.same_object a this) eqn:Hsame; simpl.
    + intros [Ht Ho]%IH. split.
      * right. destruct Ht as [->|(k & t & -> & Hk & Hs)].
        -- exists O, a. split_and!; [lia|done|done].
        -- exists (S k), t. by rewrite Hshift.
      * destruct Ho as [->|(k & m & -> & Hk & Hs)]; [by left|right].
        exists (S k), m. by rewrite Hshift.
    + destruct (bool_decide (Scpi.name a = Scpi.name this)) eqn:Hname.
      * apply bool_decide_eq_true in Hname. intros [Ht Ho]%IH. split.
        -- destruct Ht as [->|(k & t & -> & Hk & Hs)]; [by left|right].
           exists (S k), t. by rewrite Hshift.
        -- right. destruct Ho as [->|(k & m & -> & Hk & Hs)].
           ++ exists O, a. split_and!; [lia|done..].
           ++ exists (S k), m. by rewrite Hshift.
      * intros [Ht Ho]%IH. split.
        -- destruct Ht as [->|(k & t & -> & Hk & Hs)]; [by left|right].
           exists (S k), t. by rewrite Hshift.
        -- destruct Ho as [->|(k & m & -> & Hk & Hs)]; [by left|right].
           exists (S k), m. by rewrite Hshift.
Qed.

Lemma check_error_has_earlier_sibling this arr text property :
  Scpi.ErrorMessage text property ∈ Scpi.check this arr ->
  exists i j t m,
    (j < i)%nat /\
    arr !! i = Some t /\ Scpi.same_object t this = true /\
    arr !! j = Some m /\ Scpi.same_object m this = false /\
    Scpi.name m = Scpi.name this.
Proof.
  unfold Scpi.check. destruct (truthy_ostr (Scpi.name this)).
  - destruct (Scpi.scan this arr 0 (-1) (-1)) as [ti oi] eqn:Hscan.
    apply scan_indices in Hscan as [Ht Ho].
    destruct (negb (oi =? -1) && (oi <? ti)) eqn:Hc.
    + intros _. apply andb_true_iff in Hc as [Hne Hlt].
      apply negb_true_iff, Z.eqb_neq in Hne. apply Z.ltb_lt in Hlt.
      destruct Ho as [->|(j & m & -> & Hj & Hs & Hn)]; [done|].
      destruct Ht as [->|(i & t & -> & Hi & Hst)]; [lia|].
      exists i, j, t, m. split_and!; try done. lia.
    + by intros ?%elem_of_nil.
  - intros Hin. apply list_elem_of_singleton in Hin. discriminate Hin.
Qed.

(** C10: a member whose name is unset gets the "not set" message and no
    other; the "is not unique" error is reported only on a member that has a
    sibling of the same name at a lower index of the parent array; so the
    member that comes first among those of its name gets no message. *)
Theorem check_reports_later_duplicates this arr :
  (truthy_ostr (Scpi.name this) = false ->
   Scpi.check this arr = [Scpi.PropertyNotSetMessage (js "name")]) /\
  (forall text property,
     Scpi.ErrorMessage text property ∈ Scpi.check this arr ->
     truthy_ostr (Scpi.name this) = true /\
     exists i j t m,
       (j < i)%nat /\
       arr !! i = Some t /\ Scpi.same_object t this = true /\
       arr !! j = Some m /\ Scpi.same_object m this = false /\
       Scpi.name m = Scpi.name this) /\
  (forall i,
     NoDup (Scpi.member_ref <$> arr) -> arr !! i = Some this ->
     truthy_ostr (Scpi.name this) = true ->
     (forall j m, (j < i)%nat -> arr !! j = Some m -> Scpi.name m <> Scpi.name this) ->
     Scpi.check this arr = []).
Proof.
  split_and!.
  - intros Hn. unfold Scpi.check. by rewrite Hn.
  - intros text property Hin. split.
    + unfold Scpi.check in Hin. destruct (truthy_ostr (Scpi.name this)); [done|].
      apply list_elem_of_singleton in Hin. discriminate Hin.
    + by eapply check_error_has_earlier_sibling.
  - intros i Hnd Hi Hn Hfirst.
    destruct (Scpi.check this arr) as [|msg rest] eqn:Hcheck; [done|].
    assert (Hin : msg ∈ Scpi.check this arr) by (rewrite Hcheck; by left).
    assert (Herr : exists text property, msg = Scpi.ErrorMessage text property).
    { unfold Scpi.check in Hin. rewrite Hn in Hin.
      destruct (Scpi.scan this arr 0 (-1) (-1)) as [ti oi].
      destruct (_ && _); [|by apply elem_of_nil in Hin].
      apply list_elem_of_singleton in Hin. eauto. }
    destruct Herr as (text & property & ->).
    apply check_error_has_earlier_sibling
      in Hin as (i' & j & t & m & Hlt & Hi' & Hst & Hj & Hsm & Hname).
    assert (i' = i).
    { apply Nat.eqb_eq in Hst.
      eapply (NoDup_lookup _ _ _ (Scpi.member_ref this) Hnd);
        rewrite list_lookup_fmap; [rewrite Hi'|rewrite Hi]; simpl; by f_equal. }
    subst i'. exfalso. by eapply Hfirst.
Qed.

Lemma check_reports_later_duplicates_witness :
  Scpi.check
    {| Scpi.member_ref := 1; Scpi.name := Some (js "ON"); Scpi.value := Some (js "1") |}
    [{| Scpi.member_ref := 1; Scpi.name := Some (js "ON"); Scpi.value := Some (js "1") |};
     {| Scpi.member_ref := 2; Scpi.name := Some (js "ON"); Scpi.value := Some (js "2") |}]
  = [].
Proof.
  apply (proj2 (proj2 (check_reports_later_duplicates _ _)) O).
  - vm_compute. repeat constructor; intros Hin;
      repeat (apply elem_of_cons in Hin as [Hin|Hin]; [discriminate Hin|]);
      by apply elem_of_nil in Hin.
  - reflexivity.
  - reflexivity.
  - intros j m Hj. lia.
Defined.

Example check_examples :
  let a1 := {| Scpi.member_ref := 1; Scpi.name := Some (js "ON"); Scpi.value := None |} in
  let a2 := {| Scpi.member_ref := 2; Scpi.name := Some (js "ON"); Scpi.value := None |} in
  let a3 := {| Scpi.member_ref := 3; Scpi.name := Some (js "ON"); Scpi.value := None |} in
  let b := {| Scpi.member_ref := 4; Scpi.name := None; Scpi.value := None |} in
  Scpi.check a1 [a1; a2; a3; b] = [] /\
  Scpi.check a2 [a1; a2; a3; b] = [] /\
  Scpi.check a3 [a1; a2; a3; b] =
    [Scpi.ErrorMessage (js "Member name 'ON' is not unique") (js "name")] /\
  Scpi.check b [a1; a2; a3; b] = [Scpi.PropertyNotSetMessage (js "name")].
Proof. split_and!; reflexivity. Qed.

Lemma fill_colour_rule_witness :
  drawRectangle_callback Sample.env 10 6 Sample.default_style true =
  (border_step Sample.env Sample.default_style 10 6).1 ++
  [setColor (Some (js "white"));
   fill_box (border_step Sample.env Sample.default_style 10 6).2 true].
Proof.
  exact (proj2 (proj2 (proj2
           (fill_colour_rule Sample.env Sample.default_style 10 6 true)))).
Defined.

(* ================================================================== *)
(** * Further properties of the drawing module *)
(* ================================================================== *)

(** ** A stored canvas is returned without running the callback *)

Lemma run_callback_log_length acts :
  Forall (nested_call log_bounded) acts ->
  forall cv st log0 cv' st' log',
    run_callback drawFromCache acts cv st log0 = Some (cv', st', log') ->
    (length log' <= length log0 + length (nested_keys acts))%nat.
Proof.
  induction 1 as [|a acts Ha _ IH]; intros cv st log0 cv' st' log' Hrun;
    simpl in Hrun.
  - injection Hrun as <- <- <-. unfold nested_keys. simpl. lia.
  - destruct a as [op|src x y].
    + apply IH in Hrun. exact Hrun.
    + destruct (drawFromCache src st) as [[[img st1] pushed]|] eqn:Hsrc;
        [|discriminate].
      apply IH in Hrun. apply Ha in Hsrc.
      rewrite nested_keys_cons_image. rewrite !length_app in *. lia.
Qed.

Lemma drawFromCache_log_length c : log_bounded c.
Proof.
  induction c as [section id w h|section id w h acts IH] using call_nested_ind;
    intros st cv st' log; rewrite drawFromCache_unfold.
  - destruct (lookup_canvas _ st); [|discriminate]. intros [= <- <- <-]. simpl. lia.
  - destruct (lookup_canvas _ st); [intros [= <- <- <-]; simpl; lia|].
    destruct (run_callback _ _ _ _ _) as [[[cv1 st1] log1]|] eqn:Hr; [|discriminate].
    apply (run_callback_log_length _ IH) in Hr. simpl in Hr.
    cbn [call_keys]. change (flat_map _ acts) with (nested_keys acts).
    destruct (composite section id); intros [= <- <- <-];
      rewrite !length_app; simpl; lia.
Qed.

Lemma drawAll_extends cs : forall st log0 st' log',
  forallb distinct_nesting cs = true -> cache_inv st ->
  drawAll cs st log0 = Some (st', log') ->
  exists new,
    log' = log0 ++ new /\ extends st st' new /\
    (length new <= length (flat_map call_keys cs))%nat.
Proof.
  induction cs as [|c cs IH]; intros st log0 st' log' Hwf Hinv; simpl.
  - intros [= <- <-]. exists []. rewrite app_nil_r. split_and!; [done| |done].
    by apply extends_refl.
  - simpl in Hwf. apply andb_true_iff in Hwf as [Hc Hwf].
    destruct (drawFromCache c st) as [[[cv st1] pushed]|] eqn:Hrun; [|discriminate].
    destruct (drawFromCache_extends c _ _ _ _ Hc Hinv Hrun) as [He _].
    pose proof (drawFromCache_log_length c _ _ _ _ Hrun) as Hlen.
    intros (new & -> & He' & Hlen')%IH; [|done|apply He].
    exists (pushed ++ new). split_and!.
    + by rewrite (assoc_L (++)).
    + by eapply extends_trans.
    + rewrite !length_app. lia.
Qed.

Lemma last_n_keeps {A} (n : nat) (pre new : list A) (k : A) :
  (length new < n)%nat ->
  exists pre', last_n n (pre ++ k :: new) = pre' ++ k :: new.
Proof.
  intros Hlen. unfold last_n. exists (drop (length (pre ++ k :: new) - n) pre).
  apply drop_app_le. rewrite length_app. simpl. lia.
Qed.

Lemma miss_stores_last section id w h callback k st cv st' log :
  composite section id = Some k -> cacheMap st !! k = None ->
  drawFromCache (DrawFromCache section id w h callback) st = Some (cv, st', log) ->
  exists pre, cache st' = pre ++ [k].
Proof.
  intros Hk Hnone. rewrite drawFromCache_unfold, Hk. cbn [lookup_canvas].
  rewrite Hnone. destruct callback as [acts|]; [|discriminate].
  destruct (run_callback _ _ _ _ _) as [[[cv1 st1] log1]|]; [|discriminate].
  intros [= <- <- <-]. unfold store. simpl. eauto.
Qed.

(** X1: once a call with a non-null key has returned, its canvas is stored
    under the key, and the same section and key give the same canvas back
    without changing the cache and without running the callback, whatever the
    callback is (even one that would not terminate).  When the call was a
    miss, this lasts through any further calls that request fewer than 1000
    keys in all; [stored_canvas_is_evicted] shows that it ends once 1000
    other keys have been stored. *)
Theorem keyed_call_then_hit section id w h callback k st cv st' log :
  composite section id = Some k ->
  drawFromCache (DrawFromCache section id w h callback) st = Some (cv, st', log) ->
  cacheMap st' !! k = Some cv /\
  (forall w' h' callback',
     drawFromCache (DrawFromCache section id w' h' callback') st' = Some (cv, st', [])) /\
  (cache_inv st ->
   distinct_nesting (DrawFromCache section id w h callback) = true ->
   cacheMap st !! k = None ->
   forall cs st'' log2,
     forallb distinct_nesting cs = true ->
     (length (flat_map call_keys cs) < 1000)%nat ->
     drawAll cs st' [] = Some (st'', log2) ->
     cacheMap st'' !! k = Some cv /\
     forall w' h' callback',
       drawFromCache (DrawFromCache section id w' h' callback') st'' =
       Some (cv, st'', [])).
Proof.
  intros Hk Hrun.
  assert (Hstored : cacheMap st' !! k = Some cv) by (by eapply keyed_call_stores).
  assert (Hhit : forall st2, cacheMap st2 !! k = Some cv ->
            forall w' h' callback',
              drawFromCache (DrawFromCache section id w' h' callback') st2 =
              Some (cv, st2, [])).
  { intros st2 Hst2 w' h' callback'. rewrite drawFromCache_unfold, Hk.
    cbn [lookup_canvas]. by rewrite Hst2. }
  split_and!; [exact Hstored|by apply Hhit|].
  intros Hinv Hwf Hmiss cs st'' log2 Hcs Hfew Hall.
  destruct (drawFromCache_extends _ _ _ _ _ Hwf Hinv Hrun) as [He _].
  destruct (miss_stores_last _ _ _ _ _ _ _ _ _ _ Hk Hmiss Hrun) as [pre Hpre].
  destruct (drawAll_extends cs _ _ _ _ Hcs (ext_inv _ _ _ He) Hall)
    as (new & _ & He2 & Hlen).
  assert (Hcache : exists pre', cache st'' = pre' ++ k :: new).
  { rewrite (ext_cache _ _ _ He2), Hpre, <- (assoc_L (++)).
    apply last_n_keeps. unfold MAX_DRAW_CACHE_SIZE. lia. }
  destruct Hcache as [pre' Hcache].
  assert (Hin : k ∈ cache st'').
  { rewrite Hcache. apply elem_of_app. right. by left. }
  apply (inv_sync _ (ext_inv _ _ _ He2)) in Hin as [cv2 Hcv2].
  assert (cv2 = cv) as ->.
  { apply (ext_map _ _ _ He2) in Hcv2 as Hold. destruct Hold as [Hold|[Hnew _]].
    - congruence.
    - pose proof (inv_nodup _ (ext_inv _ _ _ He2)) as Hnd. rewrite Hcache in Hnd.
      apply NoDup_app in Hnd as (_ & _ & Hnd). apply NoDup_cons in Hnd as [Hnd _].
      contradiction. }
  split; [exact Hcv2|by apply Hhit].
Qed.

Lemma keyed_call_then_hit_witness :
  match drawFromCache
          (DrawFromCache (js "drawText") (Some (js "k")) 4 4
             (Some [Lcd (setColor None)])) initial_state with
  | Some (cv, st', _) =>
      drawFromCache (DrawFromCache (js "drawText") (Some (js "k")) 4 4 None) st'
      = Some (cv, st', [])
  | None => False
  end.
Proof.
  destruct (drawFromCache _ initial_state) as [[[cv st'] log]|] eqn:H.
  - exact (proj1 (proj2 (keyed_call_then_hit (js "drawText") (Some (js "k")) 4 4
                           (Some [Lcd (setColor None)]) (js "drawText.k")
                           initial_state cv st' log eq_refl H)) 4 4 None).
  - discriminate H.
Defined.

(** After 1001 different texts the entry of the first one is gone, and
    those of the second and of the last are held. *)
Example stored_canvas_is_evicted :
  match session Sample.env 5 (Sample.texts 1001) initial_state [] with
  | Some (st, _) =>
      (cacheMap st !! js "drawText.style0font1.0.10.6.false") = None /\
      is_Some (cacheMap st !! js "drawText.style0font1.1.10.6.false") /\
      is_Some (cacheMap st !! js "drawText.style0font1.1000.10.6.false")
  | None => False
  end.
Proof.
  destruct (session Sample.env 5 (Sample.texts 1001) initial_state [])
    as [[st log]|] eqn:H.
  - assert (Hb : match session Sample.env 5 (Sample.texts 1001) initial_state [] with
                 | Some (st, _) =>
                     negb (returns (cacheMap st !! js "drawText.style0font1.0.10.6.false"))
                     && returns (cacheMap st !! js "drawText.style0font1.1.10.6.false")
                     && returns (cacheMap st !! js "drawText.style0font1.1000.10.6.false")
                 | None => false
                 end = true) by (vm_compute; reflexivity).
    rewrite H in Hb. apply andb_true_iff in Hb as [[H0 H1]%andb_true_iff H2].
    destruct (cacheMap st !! js "drawText.style0font1.0.10.6.false"); [discriminate|].
    destruct (cacheMap st !! js "drawText.style0font1.1.10.6.false"); [|discriminate].
    destruct (cacheMap st !! js "drawText.style0font1.1000.10.6.false"); [|discriminate].
    split_and!; eauto.
  - assert (Hr : returns (session Sample.env 5 (Sample.texts 1001) initial_state [])
                 = true) by (vm_compute; reflexivity).
    rewrite H in Hr. discriminate Hr.
Qed.

(** ** Cycles of inheritance *)

(** X2: [getCacheId] does not return on a style from which the chain of
    styles its cache id is extended with (the [inheritFrom] target, else the
    default style) never ends: for a family of styles closed under that step,
    no depth of recursion is enough, and [drawText] on such a style does not
    return either. *)
Theorem getCacheId_diverges_on_cycles E (P : Style -> Prop) :
  (forall s, P s -> exists t, parent_style E s = Some t /\ P t) ->
  forall fuel s, P s ->
    getCacheId E fuel (AStyle s) = None /\
    forall text w h inverse o, drawText E fuel text w h s inverse o = None.
Proof.
  intros Hclosed.
  assert (Hid : forall fuel s, P s -> getCacheId E fuel (AStyle s) = None).
  { induction fuel as [|fuel IH]; intros s Hs; [done|].
    rewrite getCacheId_style_S.
    destruct (match styleGetFont E s with Some _ => _ | None => _ end); [|done].
    destruct (Hclosed s Hs) as (t & Ht & HPt). unfold parent_style in Ht.
    destruct (inheritFromStyle E s) as [u|].
    - injection Ht as ->. by rewrite (IH t HPt).
    - destruct (is_default_style E s); [discriminate|].
      injection Ht as <-. by rewrite (IH _ HPt). }
  intros fuel s Hs. split; [by apply Hid|].
  intros text w h inverse o. unfold drawText. by rewrite Hid.
Qed.

Lemma getCacheId_diverges_on_cycles_witness :
  getCacheId Sample.looping_env 1000 (AStyle Sample.looping_style) = None.
Proof.
  refine (proj1 (getCacheId_diverges_on_cycles Sample.looping_env
                   (fun s => s = Sample.looping_style) _ 1000
                   Sample.looping_style eq_refl)).
  intros s ->. exists Sample.looping_style. split; reflexivity.
Defined.

(** ** The wrap loop of [drawMultilineText] *)

Lemma wrap_never_exits n width x1 x2 y2 : forall x y,
  x2 - x + 1 < width -> x2 - x1 + 1 < width -> y <= y2 ->
  wrap n width 0 x1 x2 y2 x y = None.
Proof.
  induction n as [|n IH]; intros x y Hx Hx1 Hy; [done|].
  simpl. rewrite (proj2 (Z.ltb_lt _ _) Hx).
  replace (y + 0 + 0) with y by lia. replace (y + 0) with y by lia.
  rewrite (proj2 (Z.ltb_ge _ _) Hy). by apply IH.
Qed.

Lemma wrap_exits n width height x1 x2 y2 : forall x y,
  0 < height -> (Z.to_nat (y2 - y) < n)%nat ->
  exists x' y', wrap n width height x1 x2 y2 x y = Some (x', y').
Proof.
  induction n as [|n IH]; intros x y Hh Hn; [lia|].
  simpl. destruct (x2 - x + 1 <? width); [|eauto].
  destruct (y2 <? y + height + height) eqn:Hy; [eauto|].
  apply Z.ltb_ge in Hy. apply IH; [done|lia].
Qed.

Lemma layout_stuck_in_wrap E fuel n text font colors height spaceWidth x1 x2 y2 i x y :
  wrap fuel
    (measureStr E (take (i + word_length (drop i text) - i) (drop i text)) font 0)
    height x1 x2 y2 x y = None ->
  layout E fuel n text font colors height spaceWidth x1 x2 y2 i x y = None.
Proof. intros H. destruct n as [|n]; [done|]. simpl. by rewrite H. Qed.

(** X3: the inner loop of [drawMultilineText] that moves to the next line
    ends when the line height is positive (after at most as many rounds as
    there are pixel rows left), and never ends when the line height is 0, the
    word is wider than a full line and the current row is not below the box:
    with a font of height 0 or 1 the callback of [drawMultilineText] does not
    return on a text whose first word is wider than the box. *)
Theorem wrap_loop_needs_a_line_height E fuel text w h style inverse font :
  let sp := getStyleProperty E style in
  let b := (border_step E style w h).2 in
  let t := unescape text in
  let word := take (word_length t) t in
  styleGetFont E style = Some font ->
  0 <= font_height font <= 1 ->
  box_x2 b - paddingHorizontal sp - (box_x1 b + paddingHorizontal sp) + 1
    < measureStr E word font 0 ->
  box_y1 b + paddingVertical sp <= box_y2 b - paddingVertical sp ->
  drawMultilineText_callback E fuel text w h style inverse = None /\
  (forall n width height x1 x2 y2 x y,
     0 < height -> (Z.to_nat (y2 - y) < n)%nat ->
     exists x' y', wrap n width height x1 x2 y2 x y = Some (x', y')).
Proof.
  intros sp b t word Hfont Hheight Hwide Hroom. split.
  - unfold drawMultilineText_callback. subst b.
    destruct (border_step E style w h) as [border b]. simpl in *.
    rewrite Hfont. fold t.
    assert (Hbody : drawMultilineText_body E fuel t font b style inverse = None).
    { unfold drawMultilineText_body.
      assert (Hline : 9 * font_height font / 10 = 0)
        by (apply Z.div_small; lia).
      rewrite Hline. apply layout_stuck_in_wrap.
      rewrite Nat.add_0_l, Nat.sub_0_r.
      change (drop 0 t) with t. subst sp word.
      apply wrap_never_exits; [exact Hwide|exact Hwide|exact Hroom]. }
    by rewrite Hbody.
  - intros n width height x1 x2 y2 x y. apply wrap_exits.
Qed.

Lemma wrap_loop_needs_a_line_height_witness :
  drawMultilineText_callback Flat.env 1000 (js "wide-word") 20 20
    Sample.default_style false = None.
Proof.
  refine (proj1 (wrap_loop_needs_a_line_height Flat.env 1000 (js "wide-word") 20 20
                   Sample.default_style false Flat.font eq_refl _ _ _));
    vm_compute; try split; congruence.
Defined.

(** ** Texts without escape sequences *)

Lemma json_string_body_no_backslash (text : jsstring) :
  92%N ∉ text ->
  match json_string_body (text ++ [34%N]) with
  | None => True
  | Some (v, r) => (r = [] /\ v = text) \/ last r = Some 34%N
  end.
Proof.
  induction text as [|c text IH]; intros Hno.
  - simpl. by left.
  - assert (Hc : c <> 92%N) by (intros ->; apply Hno; by left).
    assert (Hno' : 92%N ∉ text) by (intros Hin; apply Hno; by right).
    specialize (IH Hno').
    cbn [app json_string_body].
    destruct (c =? 34)%N eqn:Hq.
    { right. apply last_snoc. }
    rewrite (proj2 (N.eqb_neq c 92) Hc).
    destruct (c <? 32)%N; [done|].
    destruct (json_string_body (text ++ [34%N])) as [[v r]|]; [|done].
    destruct IH as [[-> ->]|Hlast]; [by left|by right].
Qed.

Lemma skip_ws_keeps_last (r : list N) c :
  last r = Some c -> is_json_ws c = false -> skip_ws r <> [].
Proof.
  induction r as [|a r IH]; intros Hlast Hc; [discriminate|].
  simpl. destruct (is_json_ws a) eqn:Ha; [|done].
  apply IH; [|done]. destruct r as [|b r]; [|exact Hlast].
  simpl in Hlast. injection Hlast as ->. congruence.
Qed.

Lemma json_string_body_plain (text rest : jsstring) :
  Forall (fun c => c <> 34%N /\ c <> 92%N /\ (32 <= c)%N) text ->
  json_string_body (text ++ 34%N :: rest) = Some (text, rest).
Proof.
  induction 1 as [|c text (Hq & Hb & Hctl) _ IH]; [done|].
  cbn [app json_string_body].
  rewrite (proj2 (N.eqb_neq c 34) Hq), (proj2 (N.eqb_neq c 92) Hb).
  rewrite (proj2 (N.ltb_ge c 32) Hctl). by rewrite IH.
Qed.

Lemma JSON_parse_quoted (text : jsstring) :
  JSON_parse ([34%N] ++ text ++ [34%N]) =
  match json_string_body (text ++ [34%N]) with
  | Some (v, r) => match skip_ws r with [] => Some v | _ :: _ => None end
  | None => None
  end.
Proof. reflexivity. Qed.

(** X4: the [try] statement of the text renderers never changes a text that
    has no backslash, whether [JSON.parse] accepts the quoted text or throws;
    and [JSON.parse] gives back unchanged a text with no backslash, no double
    quote and no control character. *)
Theorem text_without_backslash_is_kept (text : jsstring) :
  92%N ∉ text ->
  unescape text = text /\
  (Forall (fun c => c <> 34%N /\ (32 <= c)%N) text ->
   JSON_parse ([34%N] ++ text ++ [34%N]) = Some text).
Proof.
  intros Hno. split.
  - unfold unescape. rewrite JSON_parse_quoted.
    pose proof (json_string_body_no_backslash text Hno) as H.
    destruct (json_string_body (text ++ [34%N])) as [[v r]|]; [|done].
    destruct H as [[-> ->]|Hlast]; [done|].
    pose proof (skip_ws_keeps_last r 34 Hlast eq_refl).
    by destruct (skip_ws r).
  - intros Hplain. rewrite JSON_parse_quoted.
    rewrite json_string_body_plain; [done|].
    apply Forall_forall. intros c Hc. rewrite Forall_forall in Hplain.
    destruct (Hplain c Hc). split_and!; [done| |done].
    intros ->. contradiction.
Qed.

Lemma text_without_backslash_is_kept_witness :
  unescape (js "say " ++ [34%N] ++ js "hi") = js "say " ++ [34%N] ++ js "hi".
Proof.
  apply (text_without_backslash_is_kept (js "say " ++ [34%N] ++ js "hi")).
  intros Hin. repeat (apply elem_of_cons in Hin as [Hin|Hin]; [discriminate Hin|]).
  by apply elem_of_nil in Hin.
Defined.

(** ** The range of the bar position *)

Lemma nround_cases (a : num) :
  (exists k, nround a = zn k) \/ nround a = PosInf \/ nround a = NegInf \/
  nround a = NaN.
Proof. destruct a; simpl; eauto. Qed.

(** X5: for a bar of length [d >= 0], whatever the minimum, the maximum and
    the value are (infinities included), [calcPos] gives either [NaN] or a
    whole number of pixels between 0 and [d]: an infinite quotient is
    clamped, and only an undefined one (0/0, such as value 0 with
    [max = min]) escapes the clamps. *)
Theorem calcPos_in_range (min max value : num) (d : Z) :
  0 <= d ->
  calcPos min max d value = NaN \/
  exists k, calcPos min max d value = zn k /\ 0 <= k <= d.
Proof.
  intros Hd. unfold calcPos.
  destruct (nround_cases (ndiv (nmul value (zn d)) (nsub max min)))
    as [[k Hr]|[Hr|[Hr|Hr]]]; rewrite Hr.
  - right. rewrite nlt_zn. destruct (k <? 0) eqn:Hk.
    + rewrite nlt_zn. rewrite (proj2 (Z.ltb_ge d 0) Hd). exists 0. split; [done|lia].
    + apply Z.ltb_ge in Hk. rewrite nlt_zn. destruct (d <? k) eqn:Hdk.
      * exists d. split; [done|lia].
      * apply Z.ltb_ge in Hdk. exists k. split; [done|lia].
  - right. exists d. split; [reflexivity|lia].
  - right. exists 0. change (nlt NegInf (zn 0)) with true. cbv beta iota.
    rewrite nlt_zn, (proj2 (Z.ltb_ge d 0) Hd). split; [done|lia].
  - by left.
Qed.

Lemma calcPos_in_range_witness :
  calcPos (zn 10) (zn 110) 100 PosInf = NaN \/
  exists k, calcPos (zn 10) (zn 110) 100 PosInf = zn k /\ 0 <= k <= 100.
Proof. apply calcPos_in_range. lia. Defined.

Example calcPos_examples :
  calcPos (zn 0) (zn 100) 80 (zn 150) = zn 80 /\
  calcPos (zn 0) (zn 100) 80 (zn (-3)) = zn 0 /\
  calcPos (zn 0) (zn 100) 80 PosInf = zn 80 /\
  calcPos (zn 5) (zn 5) 80 (zn 7) = zn 80 /\
  calcPos (zn 5) (zn 5) 80 (zn 0) = NaN.
Proof. split_and!; vm_compute; reflexivity. Qed.

(** ** Which duplicate [ScpiEnumMember.check] reports *)

Lemma scan_last this arr : forall i ti oi ti' oi',
  Scpi.scan this arr i ti oi = (ti', oi') ->
  (forall k t, arr !! k = Some t -> Scpi.same_object t this = true ->
               i + Z.of_nat k <= ti') /\
  (forall k m, arr !! k = Some m -> Scpi.same_object m this = false ->
               Scpi.name m = Scpi.name this -> i + Z.of_nat k <= oi').
Proof.
  induction arr as [|a arr IH]; intros i ti oi ti' oi' Hscan.
  - split; intros k x Hk; by rewrite lookup_nil in Hk.
  - simpl in Hscan.
    assert (Hnext : exists ti0 oi0,
               Scpi.scan this arr (i + 1) ti0 oi0 = (ti', oi') /\
               (Scpi.same_object a this = true -> ti0 = i) /\
               (Scpi.same_object a this = false ->
                Scpi.name a = Scpi.name this -> oi0 = i)).
    { destruct (Scpi.same_object a this) eqn:Hs; simpl in Hscan.
      - exists i, oi. split_and!; [done|done|discriminate].
      - destruct (bool_decide (Scpi.name a = Scpi.name this)) eqn:Hn.
        + exists ti, i. split_and!; [done|discriminate|done].
        + apply bool_decide_eq_false in Hn.
          exists ti, oi. split_and!; [done|discriminate|done]. }
    destruct Hnext as (ti0 & oi0 & Hrest & Hti0 & Hoi0).
    pose proof (scan_indices _ _ _ _ _ _ _ Hrest) as [Hti Hoi].
    destruct (IH _ _ _ _ _ Hrest) as [IHt IHo].
    split.
    + intros [|k] t Hk Hs; simpl in Hk.
      * injection Hk as <-. rewrite (Hti0 Hs) in Hti.
        destruct Hti as [->|(k' & _ & -> & _)]; lia.
      * specialize (IHt k t Hk Hs). lia.
    + intros [|k] m Hk Hs Hn; simpl in Hk.
      * injection Hk as <-. rewrite (Hoi0 Hs Hn) in Hoi.
        destruct Hoi as [->|(k' & _ & -> & _)]; lia.
      * specialize (IHo k m Hk Hs Hn). lia.
Qed.

(** X6: among the members of an enum that share a name, [check] reports
    the "is not unique" error on the last one only.  For a member with a set
    name in an array of distinct objects: if a sibling at a higher index has
    its name it gets no message, even when a sibling at a lower index has the
    name too; if a sibling at a lower index has its name and none at a higher
    index has, it gets exactly the error. *)
Theorem check_reports_the_last_duplicate this arr i :
  NoDup (Scpi.member_ref <$> arr) -> arr !! i = Some this ->
  truthy_ostr (Scpi.name this) = true ->
  (forall k m, (i < k)%nat -> arr !! k = Some m ->
               Scpi.name m = Scpi.name this -> Scpi.check this arr = []) /\
  (forall j m, (j < i)%nat -> arr !! j = Some m -> Scpi.name m = Scpi.name this ->
     (forall k m', (i < k)%nat -> arr !! k = Some m' ->
                   Scpi.name m' <> Scpi.name this) ->
     Scpi.check this arr =
     [Scpi.ErrorMessage
        (js "Member name '" ++ default [] (Scpi.name this) ++ js "' is not unique")
        (js "name")]).
Proof.
  intros Hnd Hi Hname.
  assert (Hsame : forall k t, arr !! k = Some t ->
                    Scpi.same_object t this = true <-> k = i).
  { intros k t Hk. split.
    - intros Hs%Nat.eqb_eq.
      eapply (NoDup_lookup _ _ _ (Scpi.member_ref this) Hnd);
        rewrite list_lookup_fmap; [rewrite Hk|rewrite Hi]; simpl; by f_equal.
    - intros ->. rewrite Hi in Hk. injection Hk as <-. apply Nat.eqb_refl. }
  assert (Hother : forall k t, arr !! k = Some t -> k <> i ->
                     Scpi.same_object t this = false).
  { intros k t Hk Hne. apply not_true_is_false. by rewrite (Hsame k t Hk). }
  unfold Scpi.check. rewrite Hname.
  destruct (Scpi.scan this arr 0 (-1) (-1)) as [ti oi] eqn:Hscan.
  pose proof (scan_indices _ _ _ _ _ _ _ Hscan) as [Hti Hoi].
  pose proof (scan_last _ _ _ _ _ _ _ Hscan) as [Lt Lo].
  assert (Hti' : ti = Z.of_nat i).
  { pose proof (Lt i this Hi (proj2 (Hsame i this Hi) eq_refl)).
    destruct Hti as [->|(k & t & -> & Hk & Hs)]; [lia|].
    apply (Hsame k t Hk) in Hs. lia. }
  subst ti. split.
  - intros k m Hik Hk Hn.
    pose proof (Lo k m Hk (Hother k m Hk ltac:(lia)) Hn).
    replace (oi <? Z.of_nat i) with false by (symmetry; apply Z.ltb_ge; lia).
    by rewrite andb_false_r.
  - intros j m Hji Hj Hn Hlater.
    pose proof (Lo j m Hj (Hother j m Hj ltac:(lia)) Hn).
    destruct Hoi as [->|(k & m' & -> & Hk & Hs & Hn')]; [lia|].
    assert (k <> i).
    { intros ->. rewrite (proj2 (Hsame i m' Hk) eq_refl) in Hs. discriminate. }
    assert (~ (i < k)%nat) by (intros Hik; by apply (Hlater k m' Hik Hk)).
    replace (0 + Z.of_nat k =? -1) with false by (symmetry; apply Z.eqb_neq; lia).
    replace (0 + Z.of_nat k <? Z.of_nat i) with true
      by (symmetry; apply Z.ltb_lt; lia).
    done.
Qed.

Lemma check_reports_the_last_duplicate_witness :
  let a1 := {| Scpi.member_ref := 1; Scpi.name := Some (js "ON"); Scpi.value := None |} in
  let a2 := {| Scpi.member_ref := 2; Scpi.name := Some (js "ON"); Scpi.value := None |} in
  let a3 := {| Scpi.member_ref := 3; Scpi.name := Some (js "ON"); Scpi.value := None |} in
  Scpi.check a2 [a1; a2; a3] = [].
Proof.
  intros a1 a2 a3.
  assert (Hnd : NoDup (Scpi.member_ref <$> [a1; a2; a3])).
  { vm_compute. repeat constructor; intros Hin;
      repeat (apply elem_of_cons in Hin as [Hin|Hin]; [discriminate Hin|]);
      by apply elem_of_nil in Hin. }
  exact (proj1 (check_reports_the_last_duplicate a2 [a1; a2; a3] 1
                  Hnd eq_refl eq_refl) 2%nat a3 ltac:(lia) eq_refl eq_refl).
Defined.

(** ** The key of a button group *)

(** X7: the cache key of a button group joins the labels with commas, so
    it does not tell apart two lists of labels with the same joined text.
    After one group has been drawn, another widget with the same style,
    rectangle and selected button whose labels join to the same text gets the
    canvas of the first group back, and its own callback is not run. *)
Theorem button_group_key_joins_labels E fuel widget1 widget2 rect c1 st cv st' log :
  widget_style widget1 = widget_style widget2 ->
  selectedButton_of E widget1 = selectedButton_of E widget2 ->
  join_comma (buttonLabels_of E widget1) = join_comma (buttonLabels_of E widget2) ->
  drawButtonGroupWidget E fuel widget1 rect = Some c1 ->
  drawFromCache c1 st = Some (cv, st', log) ->
  exists c2,
    drawButtonGroupWidget E fuel widget2 rect = Some c2 /\
    drawFromCache c2 st' = Some (cv, st', []).
Proof.
  intros Hstyle Hsel Hjoin Hc1 Hrun.
  unfold drawButtonGroupWidget in *. fold (buttonLabels_of E widget1) in Hc1.
  fold (buttonLabels_of E widget2). rewrite <- Hstyle, <- Hsel, <- Hjoin.
  destruct (getCacheId E fuel (AStyle (widget_style widget1))) as [cid|];
    [|discriminate].
  match type of Hc1 with
  | Some (DrawFromCache _ (Some ?k) _ _ ?cb) = _ =>
      set (key := k) in *; set (cb1 := cb) in *
  end.
  clearbody key cb1. eexists. split; [reflexivity|].
  apply hit_returns_stored.
  apply (keyed_call_stores (js "drawButtonGroup") (Some key) (rect_width rect)
           (rect_height rect) cb1 _ st cv st' log eq_refl).
  injection Hc1 as <-. exact Hrun.
Qed.

Lemma button_group_key_joins_labels_witness :
  buttonLabels_of Comma.env Comma.one_button
    <> buttonLabels_of Comma.env Comma.two_buttons /\
  match drawButtonGroupWidget Comma.env 5 Comma.one_button Sample.rect,
        drawButtonGroupWidget Comma.env 5 Comma.two_buttons Sample.rect with
  | Some c1, Some c2 =>
      match drawFromCache c1 initial_state with
      | Some (cv, st', _) => drawFromCache c2 st' = Some (cv, st', [])
      | None => False
      end
  | _, _ => False
  end.
Proof.
  split; [discriminate|].
  destruct (drawButtonGroupWidget Comma.env 5 Comma.one_button Sample.rect)
    as [c1|] eqn:H1; [|discriminate H1].
  destruct (drawFromCache c1 initial_state) as [[[cv st'] log]|] eqn:Hrun.
  - destruct (button_group_key_joins_labels Comma.env 5 Comma.one_button
                Comma.two_buttons Sample.rect c1 initial_state cv st' log
                eq_refl eq_refl eq_refl H1 Hrun) as (c2 & -> & Hhit).
    exact Hhit.
  - assert (Hr : returns (drawFromCache c1 initial_state) = true).
    { injection H1 as <-. vm_compute. reflexivity. }
    rewrite Hrun in Hr. discriminate Hr.
Defined.

(** ** The layout of a button group *)

Lemma button_images_places E fuel labels : forall i w h style sel x y stepx stepy acts,
  button_images E fuel labels i w h style sel x y stepx stepy = Some acts ->
  length acts = length labels /\
  forall c px py, DrawImage c px py ∈ acts ->
    exists k key callback,
      (k < length labels)%nat /\
      c = DrawFromCache (js "drawText") (Some key) w h (Some callback) /\
      px = zn (x + Z.of_nat k * stepx) /\ py = zn (y + Z.of_nat k * stepy).
Proof.
  induction labels as [|label rest IH]; intros i w h style sel x y stepx stepy acts;
    simpl.
  - intros [= <-]. split; [done|]. by intros c px py ?%elem_of_nil.
  - destruct (drawText _ _ _ _ _ _ _ _) as [c0|] eqn:Hc; [|discriminate].
    destruct (button_images _ _ _ _ _ _ _ _ _ _ _ _) as [more|] eqn:Hm;
      [|discriminate].
    intros [= <-]. destruct (IH _ _ _ _ _ _ _ _ _ _ Hm) as [Hlen Hall].
    split; [simpl; by rewrite Hlen|].
    intros c px py [Heq|Hin]%elem_of_cons.
    + injection Heq as -> -> ->. unfold drawText in Hc.
      destruct (getCacheId _ _ _); [|discriminate]. injection Hc as <-.
      exists O. eexists _, _. split_and!; [lia|reflexivity|f_equal; lia..].
    + destruct (Hall c px py Hin) as (k & key & cb & Hk & -> & -> & ->).
      exists (S k), key, cb. split_and!; [lia|done|f_equal; lia..].
Qed.

(** X8: [drawButtonGroupWidget] draws one button per label and keeps all
    of them inside the rectangle of the widget: for a rectangle of
    non-negative width and height and at least one label, every button image
    is a [drawText] canvas placed so that it lies within [0, width] across and
    [0, height] down, in a row when the rectangle is wider than tall and in a
    column otherwise. *)
Theorem button_group_stays_in_the_rectangle E fuel buttonLabels selectedButton style
    rect acts :
  0 <= rect_width rect -> 0 <= rect_height rect -> buttonLabels <> [] ->
  drawButtonGroupWidget_callback E fuel buttonLabels selectedButton style rect
    = Some acts ->
  length acts = length buttonLabels /\
  forall c px py, DrawImage c px py ∈ acts ->
    exists key callback x y w h,
      c = DrawFromCache (js "drawText") (Some key) w h (Some callback) /\
      px = zn x /\ py = zn y /\
      0 <= x /\ x + w <= rect_width rect /\ 0 <= y /\ y + h <= rect_height rect.
Proof.
  intros Hw Hh Hne. unfold drawButtonGroupWidget_callback.
  set (n := Z.of_nat (length buttonLabels)).
  assert (Hn : 0 < n) by (subst n; destruct buttonLabels; [done|simpl; lia]).
  set (W := rect_width rect) in *. set (H := rect_height rect) in *.
  destruct (H <? W) eqn:Horient.
  - intros [Hlen Hall]%button_images_places. split; [done|].
    intros c px py Hin. destruct (Hall c px py Hin) as (k & key & cb & Hk & -> & -> & ->).
    eexists key, cb, _, _, _, _. split_and!; [reflexivity..| | | |].
    + assert (0 <= W / n) by (apply Z.div_pos; lia).
      assert (W / n * n <= W) by (rewrite Z.mul_comm; apply Z.mul_div_le; lia).
      assert (0 <= (W - W / n * n) / 2) by (apply Z.div_pos; lia). nia.
    + assert (0 <= W / n) by (apply Z.div_pos; lia).
      assert (W / n * n <= W) by (rewrite Z.mul_comm; apply Z.mul_div_le; lia).
      assert ((W - W / n * n) / 2 <= W - W / n * n)
        by (apply Z.div_le_upper_bound; lia).
      assert (Z.of_nat k + 1 <= n) by (subst n; lia). nia.
    + lia.
    + lia.
  - intros [Hlen Hall]%button_images_places. split; [done|].
    intros c px py Hin. destruct (Hall c px py Hin) as (k & key & cb & Hk & -> & -> & ->).
    eexists key, cb, _, _, _, _. split_and!; [reflexivity..| | | |].
    + lia.
    + lia.
    + assert (0 <= H / n) by (apply Z.div_pos; lia).
      assert (H / n * n <= H) by (rewrite Z.mul_comm; apply Z.mul_div_le; lia).
      assert (0 <= (H - H / n * n) / 2) by (apply Z.div_pos; lia).
      assert (0 <= (H / n - Z.min W (H / n)) / 2) by (apply Z.div_pos; lia). nia.
    + assert (0 <= H / n) by (apply Z.div_pos; lia).
      assert (H / n * n <= H) by (rewrite Z.mul_comm; apply Z.mul_div_le; lia).
      assert ((H - H / n * n) / 2 <= H - H / n * n)
        by (apply Z.div_le_upper_bound; lia).
      assert ((H / n - Z.min W (H / n)) / 2 <= H / n - Z.min W (H / n))
        by (apply Z.div_le_upper_bound; lia).
      assert (Z.of_nat k + 1 <= n) by (subst n; lia). nia.
Qed.

Lemma button_group_stays_in_the_rectangle_witness :
  match drawButtonGroupWidget_callback Sample.env 5 [js "A"; js "B"; js "C"]
          SelectedZero Sample.default_style Sample.rect with
  | Some acts => length acts = 3%nat
  | None => False
  end.
Proof.
  destruct (drawButtonGroupWidget_callback Sample.env 5 [js "A"; js "B"; js "C"]
              SelectedZero Sample.default_style Sample.rect) as [acts|] eqn:H.
  - refine (proj1 (button_group_stays_in_the_rectangle Sample.env 5 _ _ _ _ acts
                     _ _ _ H)); [vm_compute; discriminate..|discriminate].
  - assert (Hr : returns (drawButtonGroupWidget_callback Sample.env 5
                            [js "A"; js "B"; js "C"] SelectedZero
                            Sample.default_style Sample.rect) = true)
      by (vm_compute; reflexivity).
    rewrite H in Hr. discriminate Hr.
Defined.

(** ** Termination of the scale *)



(** With a minimum of minus infinity the loop starts at minus infinity,
    where the step changes nothing, and never reaches its upper bound. *)
Example scale_loops_on_an_infinite_minimum fuel :
  drawScaleWidget_callback Unbounded.env fuel Sample.scale Sample.rect = None.
Proof.
  pose proof (drawScaleWidget_callback_rows Unbounded.env Sample.scale Sample.rect)
    as Hrows.
  assert (Hb : scale_loop_bounds Unbounded.env Sample.scale Sample.rect
               = (NegInf, zn 92)) by (vm_compute; reflexivity).
  unfold scale_loop_bounds in Hb.
  destruct (drawScaleWidget_args Unbounded.env Sample.scale Sample.rect)
    as [[[[[[y_from y_to] y_min] y_max] y_value] f] d].
  injection Hb as -> ->. cbv zeta in Hrows.
  destruct Hrows as (x1 & l1 & x2 & l2 & s & y_offset & Hrows).
  rewrite Hrows. by rewrite for_range_stuck.
Qed.

(** ** Looking an enum up by name *)

(** X10: [findScpiEnum] returns the first enum of the project with the
    given name, and [undefined] exactly when no enum has that name. *)
Theorem findScpiEnum_finds_the_first enums enumeration :
  (forall e, ScpiEnums.findScpiEnum enums enumeration = Some e <->
     exists i, enums !! i = Some e /\ ScpiEnums.enum_name e = Some enumeration /\
       forall j e', (j < i)%nat -> enums !! j = Some e' ->
                    ScpiEnums.enum_name e' <> Some enumeration) /\
  (ScpiEnums.findScpiEnum enums enumeration = None <->
     forall e, e ∈ enums -> ScpiEnums.enum_name e <> Some enumeration).
Proof.
  induction enums as [|a enums [IHsome IHnone]].
  - split.
    + intros e. split; [discriminate|]. intros (i & Hi & _). by rewrite lookup_nil in Hi.
    + split; [|done]. by intros _ e ?%elem_of_nil.
  - simpl. destruct (bool_decide (ScpiEnums.enum_name a = Some enumeration)) eqn:Ha.
    + apply bool_decide_eq_true in Ha. split.
      * intros e. split.
        -- intros [= <-]. exists O. split_and!; [done..|]. intros j e' Hj. lia.
        -- intros ([|i] & Hi & Hn & Hfirst); [by injection Hi as ->|].
           exfalso. apply (Hfirst O a); [lia|done|done].
      * split; [discriminate|]. intros H. exfalso. apply (H a); [by left|done].
    + apply bool_decide_eq_false in Ha. split.
      * intros e. rewrite IHsome. split.
        -- intros (i & Hi & Hn & Hfirst). exists (S i). split_and!; [done..|].
           intros [|j] e' Hj He'; [by injection He' as <-|].
           apply (Hfirst j e'); [lia|done].
        -- intros ([|i] & Hi & Hn & Hfirst).
           ++ injection Hi as ->. contradiction.
           ++ exists i. split_and!; [done..|].
              intros j e' Hj He'. apply (Hfirst (S j) e'); [lia|done].
      * rewrite IHnone. split.
        -- intros H e [->|Hin]%elem_of_cons; [done|by apply H].
        -- intros H e Hin. apply H. by right.
Qed.

(** ** Words drawn by [drawMultilineText] fit the padded box *)

Lemma wrap_result n width height x1 x2 y2 : forall x y x' y',
  wrap n width height x1 x2 y2 x y = Some (x', y') ->
  y2 < y' + height \/ width <= x2 - x' + 1.
Proof.
  induction n as [|n IH]; intros x y x' y'; [discriminate|].
  simpl. destruct (x2 - x + 1 <? width) eqn:Hw.
  - destruct (y2 <? y + height + height) eqn:Hy.
    + intros [= <- <-]. left. by apply Z.ltb_lt in Hy.
    + apply IH.
  - intros [= <- <-]. right. apply Z.ltb_ge in Hw. lia.
Qed.

Lemma layout_words_fit E fuel n : forall text font colors height spaceWidth
    x1 x2 y2 i x y ops t px py f,
  (forall t x y f, drawStr t x y f ∉ colors) ->
  layout E fuel n text font colors height spaceWidth x1 x2 y2 i x y = Some ops ->
  drawStr t px py f ∈ ops ->
  exists a b, px = zn a /\ py = zn b /\ f = font /\
              a + measureStr E t font 0 <= x2 + 1 /\ b + height <= y2.
Proof.
  induction n as [|n IH];
    intros text font colors height spaceWidth x1 x2 y2 i x y ops t px py f Hc;
    [discriminate|].
  simpl. destruct (wrap _ _ _ _ _ _ _ _) as [[xw yw]|] eqn:Hwrap; [|discriminate].
  apply wrap_result in Hwrap.
  destruct (y2 <? yw + height) eqn:Hy;
    [intros [= <-] Hin; by apply elem_of_nil in Hin|].
  apply Z.ltb_ge in Hy. destruct Hwrap as [Hbreak|Hfit]; [lia|].
  set (word := take _ _) in *.
  assert (Hword : forall more,
             drawStr t px py f ∈ (colors ++ [drawStr word (zn xw) (zn yw) font]) ++ more ->
             drawStr t px py f ∈ more \/
             exists a b, px = zn a /\ py = zn b /\ f = font /\
                         a + measureStr E t font 0 <= x2 + 1 /\ b + height <= y2).
  { intros more [[Hin|Hin]%elem_of_app|Hin]%elem_of_app; [by apply Hc in Hin| |by left].
    apply list_elem_of_singleton in Hin. injection Hin as -> -> -> ->. right.
    exists xw, yw. split_and!; [done..|lia|lia]. }
  destruct (_ || _).
  - destruct (Nat.eqb _ _).
    + intros [= <-] Hin. rewrite <- (app_nil_r (_ ++ _)) in Hin.
      apply Hword in Hin as [Hin|Hin]; [by apply elem_of_nil in Hin|done].
    + destruct (y2 <? _).
      * intros [= <-] Hin. rewrite <- (app_nil_r (_ ++ _)) in Hin.
        apply Hword in Hin as [Hin|Hin]; [by apply elem_of_nil in Hin|done].
      * destruct (layout _ _ _ _ _ _ _ _ _ _ _ _ _ _) as [more|] eqn:Hm;
          [|discriminate].
        intros [= <-] Hin. apply Hword in Hin as [Hin|Hin]; [|done].
        eapply IH; eauto.
  - destruct (layout _ _ _ _ _ _ _ _ _ _ _ _ _ _) as [more|] eqn:Hm; [|discriminate].
    intros [= <-] Hin. apply Hword in Hin as [Hin|Hin]; [|done].
    eapply IH; eauto.
Qed.

(** X11: every word [drawMultilineText] draws fits the padded inset
    rectangle on the right and at the bottom: it is drawn with the font of the
    style at a position where its measured width ends at or before the right
    edge and a full line height ends at or before the bottom edge; words that
    do not fit are moved to the next line or not drawn. *)
Theorem multiline_words_fit E fuel text w h style inverse ops t px py f :
  drawMultilineText_callback E fuel text w h style inverse = Some ops ->
  drawStr t px py f ∈ ops ->
  let sp := getStyleProperty E style in
  let b := (border_step E style w h).2 in
  exists a c,
    px = zn a /\ py = zn c /\ styleGetFont E style = Some f /\
    a + measureStr E t f 0 <= box_x2 b - paddingHorizontal sp + 1 /\
    c + (9 * font_height f) / 10 <= box_y2 b - paddingVertical sp.
Proof.
  intros Hcb Hin sp b. subst b. unfold drawMultilineText_callback in Hcb.
  destruct (border_step E style w h) as [border b] eqn:Hstep. simpl.
  assert (Hhead : forall c, drawStr t px py f ∉ border ++ [setColor c; fill_box b true]).
  { intros c [Hi|Hi]%elem_of_app.
    - unfold border_step in Hstep. destruct (0 <? _); injection Hstep as <- _.
      + repeat (apply elem_of_cons in Hi as [Hi|Hi]; [discriminate Hi|]).
        by apply elem_of_nil in Hi.
      + by apply elem_of_nil in Hi.
    - repeat (apply elem_of_cons in Hi as [Hi|Hi]; [discriminate Hi|]).
      by apply elem_of_nil in Hi. }
  destruct (styleGetFont E style) as [font|].
  - destruct (drawMultilineText_body _ _ _ _ _ _ _) as [body|] eqn:Hb; [|discriminate].
    injection Hcb as <-. apply elem_of_app in Hin as [Hin|Hin]; [by apply Hhead in Hin|].
    unfold drawMultilineText_body in Hb.
    destruct (layout_words_fit _ _ _ _ _ _ _ _ _ _ _ _ _ _ _ _ _ _ _
                (fun t x y f => text_colors_no_text _ _ _ t x y f) Hb Hin)
      as (a & c & -> & -> & -> & Hx & Hy).
    exists a, c. split_and!; done.
  - injection Hcb as <-. by apply Hhead in Hin.
Qed.

Lemma multiline_words_fit_witness :
  exists a c,
    zn 3 = zn a /\ zn 9 = zn c /\
    styleGetFont Sample.env Sample.default_style = Some Sample.font1 /\
    a + measureStr Sample.env (js "world") Sample.font1 0 <= 36 + 1 /\
    c + 7 <= 37.
Proof.
  destruct (drawMultilineText_callback Sample.env 50 (js "hello world\nbye") 40 40
              Sample.default_style false) as [ops|] eqn:H.
  - refine (multiline_words_fit Sample.env 50 (js "hello world\nbye") 40 40
              Sample.default_style false ops (js "world") (zn 3) (zn 9)
              Sample.font1 H _).
    vm_compute in H. injection H as <-.
    do 9 (apply elem_of_cons; right). apply elem_of_cons. by left.
  - assert (Hr : returns (drawMultilineText_callback Sample.env 50
                            (js "hello world\nbye") 40 40 Sample.default_style false)
                 = true) by (vm_compute; reflexivity).
    rewrite H in Hr. discriminate Hr.
Defined.
